(** * FlowSync: a shallow embedding of the execution backbone

    The development follows the TypeScript sources module by module:
    the idempotency store, the backpressure controller, the persistent
    job queue, the dead-letter queue, the job publisher, the job consumer,
    the result handler, the orchestrator, the cron parser, the condition
    handler and the DAG validator; then the metrics collector, the logger,
    the heartbeat monitor, the scheduler and the delay handler, each on
    its own state.  Part I embeds the code, Part II
    defines the vocabulary of the properties, Part III states and proves
    them.

    Conventions.  JavaScript [Map]s are [gmap]s, arrays are lists, the
    database tables are lists of rows in insertion order, [Date.now()] is
    an explicit argument [now] (milliseconds), and every operation that
    mutates a singleton takes the old state and returns the new one. *)

From Stdlib Require Import ZArith Lia Ascii Floats.SpecFloat.
From stdpp Require Import base option list strings gmap pretty sorting.

Set Warnings "-register-all".

Local Open Scope string_scope.
Local Open Scope list_scope.
Local Open Scope Z_scope.

(* ===================================================================== *)
(** * Part I: the embedding                                               *)
(* ===================================================================== *)

(** ** src/lib/queue/idempotency.ts *)

Module Idempotency.

Definition DEFAULT_TTL_MS : Z := 5 * 60 * 1000.

Record IdempotencyEntry := mkEntry {
  stepId : string;
  expiresAt : Z
}.

(** [private store = new Map<string, IdempotencyEntry>()] *)
Abbreviation Store := (gmap string IdempotencyEntry).

Record CheckResult := mkCheck {
  duplicate : bool;
  existingStepId : option string
}.

Definition generateKey (executionId nodeId : string) : string :=
  executionId +:+ ":" +:+ nodeId.

(** [checkAndSet(key, stepId, ttlMs)]: a live entry makes the call a
    duplicate and leaves the store alone; otherwise (no entry, or an entry
    with [expiresAt <= now]) the entry is overwritten. *)
Definition checkAndSet (now : Z) (key sid : string) (ttlMs : Z) (st : Store)
  : CheckResult * Store :=
  match st !! key with
  | Some existing =>
      if bool_decide (expiresAt existing > now)
      then (mkCheck true (Some (stepId existing)), st)
      else (mkCheck false None, <[key := mkEntry sid (now + ttlMs)]> st)
  | None => (mkCheck false None, <[key := mkEntry sid (now + ttlMs)]> st)
  end.

Definition remove (key : string) (st : Store) : Store := delete key st.

Definition size (st : Store) : nat := base.size st.

(** [cleanup()]: the periodic sweep deletes every entry with
    [expiresAt <= now]. *)
Definition cleanup (now : Z) (st : Store) : Store :=
  filter (λ kv, ¬ (expiresAt kv.2 ≤ now)) st.

End Idempotency.

(** ** lib/queue/backpressure.ts (src/unnamed/part_015) *)

Module Backpressure.

Record BackpressureConfig := mkConfig {
  maxQueueDepth : Z;
  highWaterMark : Z;
  lowWaterMark : Z
}.

Definition DEFAULT_CONFIG : BackpressureConfig :=
  {| maxQueueDepth := 1000; highWaterMark := 800; lowWaterMark := 200 |}.

Inductive BackpressureState := accepting | pressured | rejecting.

Record BackpressureController := mkController {
  config : BackpressureConfig;
  _state : BackpressureState;
  _totalRejected : Z
}.

(** [new BackpressureController()] *)
Definition init : BackpressureController :=
  mkController DEFAULT_CONFIG accepting 0.

Definition set_state (s : BackpressureState) (c : BackpressureController) :=
  mkController (config c) s (_totalRejected c).

(** [canAccept()]; [depth] is the value read from [jobQueue.depth]. *)
Definition canAccept (depth : Z) (c : BackpressureController)
  : bool * BackpressureController :=
  if bool_decide (depth >= maxQueueDepth (config c)) then
    (false, set_state rejecting c)
  else if bool_decide (depth >= highWaterMark (config c)) then
    (true, set_state pressured c)
  else if bool_decide (depth <= lowWaterMark (config c)) then
    (true, set_state accepting c)
  else (true, c).

Definition recordRejection (c : BackpressureController) :=
  mkController (config c) (_state c) (_totalRejected c + 1).

(** A sequence of [canAccept] calls, one per observed depth; the answers
    are collected in call order. *)
Fixpoint canAccept_seq (depths : list Z) (c : BackpressureController)
  : list bool * BackpressureController :=
  match depths with
  | [] => ([], c)
  | d :: ds =>
      let '(b, c1) := canAccept d c in
      let '(bs, c2) := canAccept_seq ds c1 in
      (b :: bs, c2)
  end.

End Backpressure.

(** ** JavaScript values

    JSON columns, handler results, workflow input and the operands of
    the condition handler are JavaScript values.  Numbers are IEEE 754
    binary64 values ([spec_float]); objects are association lists in
    insertion order.  Properties inherited from prototypes are not
    modelled. *)

Module Js.

Inductive value :=
  | VUndefined
  | VNull
  | VBool (b : bool)
  | VNumber (x : spec_float)
  | VString (s : string)
  | VArray (xs : list value)
  | VObject (fields : list (string * value)).

(** [o[k]] on an own property. *)
Fixpoint obj_get (k : string) (o : list (string * value)) : option value :=
  match o with
  | [] => None
  | (k', v) :: o' => if bool_decide (k' = k) then Some v else obj_get k o'
  end.

(** [o[k] = v]: an existing key keeps its place, a new key goes last. *)
Fixpoint obj_set (k : string) (v : value) (o : list (string * value))
  : list (string * value) :=
  match o with
  | [] => [(k, v)]
  | (k', v') :: o' =>
      if bool_decide (k' = k) then (k, v) :: o' else (k', v') :: obj_set k v o'
  end.

(** [Boolean(v)] *)
Definition truthy (v : value) : bool :=
  match v with
  | VUndefined | VNull => false
  | VBool b => b
  | VNumber (S754_zero _) | VNumber S754_nan => false
  | VNumber _ => true
  | VString s => negb (bool_decide (s = ""))
  | VArray _ | VObject _ => true
  end.

End Js.

(** ** lib/types.ts (src/unnamed/part_011) *)

Inductive NodeType :=
  | NStart | NEnd | NAction | NCondition | NDelay | NFork | NJoin
  | NTransform | NWebhookResponse.

Global Instance NodeType_eq_dec : EqDecision NodeType.
Proof. solve_decision. Defined.

(** The part of [node.config] that the backbone reads:
    [config.retry.{maxRetries, backoffMs, backoffMultiplier}] and
    [config.expression].  An absent key is [None]. *)
Record RetryConfig := mkRetry {
  cfg_maxRetries : option Z;
  cfg_backoffMs : option Z;
  cfg_backoffMultiplier : option Z
}.

Record NodeConfig := mkNodeConfig {
  cfg_retry : option RetryConfig;
  cfg_expression : option Js.value
}.

Definition no_config : NodeConfig := mkNodeConfig None None.

Record WorkflowNode := mkNode {
  node_id : string;
  node_type : NodeType;
  node_label : string;
  node_config : NodeConfig
}.

(** [conditionBranch?: "true" | "false"] *)
Record WorkflowEdge := mkEdge {
  edge_id : string;
  edge_source : string;
  edge_target : string;
  edge_conditionBranch : option bool
}.

Record WorkflowDefinition := mkDefinition {
  nodes : list WorkflowNode;
  edges : list WorkflowEdge
}.

Inductive WorkflowStatus := WfDraft | WfActive | WfArchived.
Inductive ExecutionStatus :=
  ExPending | ExRunning | ExCompleted | ExFailed | ExCancelled.
Inductive StepStatus :=
  StPending | StRunning | StCompleted | StFailed | StSkipped.

Global Instance WorkflowStatus_eq_dec : EqDecision WorkflowStatus.
Proof. solve_decision. Defined.
Global Instance ExecutionStatus_eq_dec : EqDecision ExecutionStatus.
Proof. solve_decision. Defined.
Global Instance StepStatus_eq_dec : EqDecision StepStatus.
Proof. solve_decision. Defined.

(** ** src/lib/workers/worker-types.ts *)

Record RetryPolicy := mkPolicy {
  maxRetries : Z;
  backoffMs : Z;
  backoffMultiplier : Z
}.

Definition DEFAULT_RETRY_POLICY : RetryPolicy :=
  {| maxRetries := 0; backoffMs := 1000; backoffMultiplier := 2 |}.

Record WorkerJob := mkJob {
  job_id : string;
  job_executionId : string;
  job_stepId : string;
  job_node : WorkflowNode;
  job_input : option Js.value;
  job_previousResults : list (string * Js.value);
  job_attempt : Z;
  job_maxRetries : Z;
  job_createdAt : Z
}.

Inductive ResultStatus := RCompleted | RFailed.

Global Instance ResultStatus_eq_dec : EqDecision ResultStatus.
Proof. solve_decision. Defined.

Record WorkerResult := mkResult {
  res_jobId : string;
  res_stepId : string;
  res_executionId : string;
  res_status : ResultStatus;
  res_result : option (list (string * Js.value));
  res_error : option string;
  res_durationMs : Z;
  res_retryable : option bool
}.

(** What [handler.execute(job)] settles to: a result, or a rejection with
    the error's message. *)
Inductive HandlerOutcome :=
  | Returns (r : WorkerResult)
  | Rejects (message : string).

Definition ActionHandler := WorkerJob → HandlerOutcome.

(** The handler registry: [registry.get(nodeType)]. *)
Definition HandlerRegistry := NodeType → option ActionHandler.

(** ** Database rows *)

Record WorkflowRow := mkWorkflowRow {
  wf_id : string;
  wf_name : string;
  wf_definitionJson : WorkflowDefinition;
  wf_status : WorkflowStatus
}.

Record ExecutionRow := mkExecutionRow {
  ex_id : string;
  ex_workflowId : string;
  ex_status : ExecutionStatus;
  ex_input : option Js.value;
  ex_output : option Js.value;
  ex_userId : option string;
  ex_startedAt : option Z;
  ex_completedAt : option Z
}.

Record StepRow := mkStepRow {
  st_id : string;
  st_executionId : string;
  st_nodeId : string;
  st_nodeLabel : string;
  st_nodeType : NodeType;
  st_status : StepStatus;
  st_attempts : Z;
  st_result : option Js.value;
  st_error : option string;
  st_startedAt : option Z;
  st_completedAt : option Z
}.

Inductive JobStatus := JqPending | JqProcessing | JqDone | JqFailed.

Global Instance JobStatus_eq_dec : EqDecision JobStatus.
Proof. solve_decision. Defined.

(** Modelled from the spec: the declaration of the [JobQueue] table is not
    among the sources; the columns and the primary key on [id] are those
    of the storage layout
    [(id PK, executionId, nodeId, nodeLabel, nodeType, payload JSON,
      status, attempts, maxAttempts, lockedAt, lockedBy, result JSON,
      error, createdAt)]. *)
Record JobRow := mkJobRow {
  jq_id : string;
  jq_executionId : string;
  jq_nodeId : string;
  jq_nodeLabel : string;
  jq_nodeType : NodeType;
  jq_payload : WorkerJob;
  jq_status : JobStatus;
  jq_attempts : Z;
  jq_maxAttempts : Z;
  jq_lockedAt : option Z;
  jq_lockedBy : option string;
  jq_result : option Js.value;
  jq_error : option string
}.

Record AuditEntry := mkAudit {
  au_event : string;
  au_entityType : string;
  au_entityId : string
}.

(** ** lib/queue/dead-letter-queue.ts (src/unnamed/part_014) *)

Record DLQItem := mkDLQItem {
  dlq_job : WorkerJob;
  dlq_error : string;
  dlq_attempts : Z;
  dlq_failedAt : Z
}.

(** Payload of the [done:<executionId>] completion signal. *)
Record DonePayload := mkDone {
  done_status : ResultStatus;
  done_output : option (list (string * Js.value));
  done_error : option string
}.

(** ** The state of the process and its database

    Tables are lists of rows in insertion order.  The in-process
    singletons are the queue counters, the idempotency store, the
    backpressure controller, the dead-letter queue, the pending
    [setTimeout] callbacks of the consumer (each re-enqueues a job after a
    delay) and the events emitted so far.  Logging, metrics and heartbeat
    bookkeeping are write-only and left out of the world; their classes
    are embedded on their own at the end of Part I. *)

Record World := mkWorld {
  workflows : list WorkflowRow;
  executions : list ExecutionRow;
  steps : list StepRow;
  jobRows : list JobRow;
  auditLog : list AuditEntry;
  nextId : N;
  q_totalEnqueued : Z;
  q_totalProcessed : Z;
  q_totalFailed : Z;
  jobEvents : list WorkerJob;
  idempotencyStore : gmap string Idempotency.IdempotencyEntry;
  backpressure : Backpressure.BackpressureController;
  dlq : list DLQItem;
  timers : list (Z * WorkerJob);
  executionEvents : list (string * DonePayload);
  totalRetries : Z
}.

Definition empty_world : World :=
  mkWorld [] [] [] [] [] 0%N 0 0 0 [] ∅ Backpressure.init [] [] [] 0.

Definition set_executions (f : list ExecutionRow → list ExecutionRow) (w : World) : World :=
  mkWorld (workflows w) (f (executions w)) (steps w) (jobRows w) (auditLog w)
    (nextId w) (q_totalEnqueued w) (q_totalProcessed w) (q_totalFailed w)
    (jobEvents w) (idempotencyStore w) (backpressure w) (dlq w) (timers w)
    (executionEvents w) (totalRetries w).

Definition set_steps (f : list StepRow → list StepRow) (w : World) : World :=
  mkWorld (workflows w) (executions w) (f (steps w)) (jobRows w) (auditLog w)
    (nextId w) (q_totalEnqueued w) (q_totalProcessed w) (q_totalFailed w)
    (jobEvents w) (idempotencyStore w) (backpressure w) (dlq w) (timers w)
    (executionEvents w) (totalRetries w).

Definition set_jobRows (f : list JobRow → list JobRow) (w : World) : World :=
  mkWorld (workflows w) (executions w) (steps w) (f (jobRows w)) (auditLog w)
    (nextId w) (q_totalEnqueued w) (q_totalProcessed w) (q_totalFailed w)
    (jobEvents w) (idempotencyStore w) (backpressure w) (dlq w) (timers w)
    (executionEvents w) (totalRetries w).

Definition set_auditLog (f : list AuditEntry → list AuditEntry) (w : World) : World :=
  mkWorld (workflows w) (executions w) (steps w) (jobRows w) (f (auditLog w))
    (nextId w) (q_totalEnqueued w) (q_totalProcessed w) (q_totalFailed w)
    (jobEvents w) (idempotencyStore w) (backpressure w) (dlq w) (timers w)
    (executionEvents w) (totalRetries w).

Definition set_nextId (f : N → N) (w : World) : World :=
  mkWorld (workflows w) (executions w) (steps w) (jobRows w) (auditLog w)
    (f (nextId w)) (q_totalEnqueued w) (q_totalProcessed w) (q_totalFailed w)
    (jobEvents w) (idempotencyStore w) (backpressure w) (dlq w) (timers w)
    (executionEvents w) (totalRetries w).

Definition set_counters (f : Z * Z * Z → Z * Z * Z) (w : World) : World :=
  let r := f (q_totalEnqueued w, q_totalProcessed w, q_totalFailed w) in
  mkWorld (workflows w) (executions w) (steps w) (jobRows w) (auditLog w)
    (nextId w) r.1.1 r.1.2 r.2
    (jobEvents w) (idempotencyStore w) (backpressure w) (dlq w) (timers w)
    (executionEvents w) (totalRetries w).

Definition set_jobEvents (f : list WorkerJob → list WorkerJob) (w : World) : World :=
  mkWorld (workflows w) (executions w) (steps w) (jobRows w) (auditLog w)
    (nextId w) (q_totalEnqueued w) (q_totalProcessed w) (q_totalFailed w)
    (f (jobEvents w)) (idempotencyStore w) (backpressure w) (dlq w) (timers w)
    (executionEvents w) (totalRetries w).

Definition set_idempotencyStore
    (f : gmap string Idempotency.IdempotencyEntry → gmap string Idempotency.IdempotencyEntry)
    (w : World) : World :=
  mkWorld (workflows w) (executions w) (steps w) (jobRows w) (auditLog w)
    (nextId w) (q_totalEnqueued w) (q_totalProcessed w) (q_totalFailed w)
    (jobEvents w) (f (idempotencyStore w)) (backpressure w) (dlq w) (timers w)
    (executionEvents w) (totalRetries w).

Definition set_backpressure
    (f : Backpressure.BackpressureController → Backpressure.BackpressureController)
    (w : World) : World :=
  mkWorld (workflows w) (executions w) (steps w) (jobRows w) (auditLog w)
    (nextId w) (q_totalEnqueued w) (q_totalProcessed w) (q_totalFailed w)
    (jobEvents w) (idempotencyStore w) (f (backpressure w)) (dlq w) (timers w)
    (executionEvents w) (totalRetries w).

Definition set_dlq (f : list DLQItem → list DLQItem) (w : World) : World :=
  mkWorld (workflows w) (executions w) (steps w) (jobRows w) (auditLog w)
    (nextId w) (q_totalEnqueued w) (q_totalProcessed w) (q_totalFailed w)
    (jobEvents w) (idempotencyStore w) (backpressure w) (f (dlq w)) (timers w)
    (executionEvents w) (totalRetries w).

Definition set_timers (f : list (Z * WorkerJob) → list (Z * WorkerJob)) (w : World) : World :=
  mkWorld (workflows w) (executions w) (steps w) (jobRows w) (auditLog w)
    (nextId w) (q_totalEnqueued w) (q_totalProcessed w) (q_totalFailed w)
    (jobEvents w) (idempotencyStore w) (backpressure w) (dlq w) (f (timers w))
    (executionEvents w) (totalRetries w).

Definition set_executionEvents
    (f : list (string * DonePayload) → list (string * DonePayload)) (w : World) : World :=
  mkWorld (workflows w) (executions w) (steps w) (jobRows w) (auditLog w)
    (nextId w) (q_totalEnqueued w) (q_totalProcessed w) (q_totalFailed w)
    (jobEvents w) (idempotencyStore w) (backpressure w) (dlq w) (timers w)
    (f (executionEvents w)) (totalRetries w).

Definition set_totalRetries (f : Z → Z) (w : World) : World :=
  mkWorld (workflows w) (executions w) (steps w) (jobRows w) (auditLog w)
    (nextId w) (q_totalEnqueued w) (q_totalProcessed w) (q_totalFailed w)
    (jobEvents w) (idempotencyStore w) (backpressure w) (dlq w) (timers w)
    (executionEvents w) (f (totalRetries w)).

(** ** Effects: state passing with exceptions

    A computation takes the world and returns the new world together
    with either a value or a thrown error; what was written before a throw
    stays written. *)

Inductive Outcome (A : Type) :=
  | Ok (a : A)
  | Throw (message : string).
Arguments Ok {A} a.
Arguments Throw {A} message.

Definition M (A : Type) : Type := World → Outcome A * World.

Global Instance M_ret : MRet M := λ A a w, (Ok a, w).
Global Instance M_bind : MBind M := λ A B k m w,
  match m w with
  | (Ok a, w1) => k a w1
  | (Throw e, w1) => (Throw e, w1)
  end.

Definition throw {A} (message : string) : M A := λ w, (Throw message, w).
Definition get_world : M World := λ w, (Ok w, w).
Definition modify (f : World → World) : M unit := λ w, (Ok tt, f w).

(** [try { m } catch { h }] *)
Definition try_catch {A} (m : M A) (h : string → M A) : M A := λ w,
  match m w with
  | (Ok a, w1) => (Ok a, w1)
  | (Throw e, w1) => h e w1
  end.

(** [for (const x of xs) await body(x)] *)
Fixpoint for_each {A} (xs : list A) (body : A → M unit) : M unit :=
  match xs with
  | [] => mret tt
  | x :: xs' => body x ≫= λ _, for_each xs' body
  end.

(** ** Database operations (the Prisma client)

    [create] draws the next generated id; [update] and [delete] throw when
    no row has the id; a foreign key or primary key violation throws. *)

Definition has (x : string) (l : list string) : bool := bool_decide (x ∈ l).

Definition fresh_id : M string := λ w,
  (Ok ("id-" +:+ pretty (nextId w)), set_nextId N.succ w).

Definition update_where {A} (p : A → bool) (f : A → A) (l : list A) : list A :=
  map (λ x, if p x then f x else x) l.

Definition stepExecution_create
    (executionId nodeId nodeLabel : string) (nodeType : NodeType)
    (status : StepStatus) (attempts : Z) (startedAt completedAt : option Z)
  : M StepRow :=
  w ← get_world;
  if existsb (λ e, bool_decide (ex_id e = executionId)) (executions w) then
    id ← fresh_id;
    if existsb (λ s, bool_decide (st_id s = id)) (steps w) then
      throw "Unique constraint failed on the fields: (id)"
    else
      let row := mkStepRow id executionId nodeId nodeLabel nodeType status
                   attempts None None startedAt completedAt in
      modify (set_steps (λ l, l ++ [row]));;
      mret row
  else throw "Foreign key constraint failed on the field: executionId".

Definition stepExecution_update (id : string) (f : StepRow → StepRow) : M unit :=
  w ← get_world;
  if existsb (λ s, bool_decide (st_id s = id)) (steps w) then
    modify (set_steps (update_where (λ s, bool_decide (st_id s = id)) f))
  else throw "Record to update not found.".

Definition stepExecution_delete (id : string) : M unit :=
  w ← get_world;
  if existsb (λ s, bool_decide (st_id s = id)) (steps w) then
    modify (set_steps (filter (λ s, st_id s ≠ id)))
  else throw "Record to delete does not exist.".

Definition stepExecution_updateMany (p : StepRow → bool) (f : StepRow → StepRow)
  : M unit :=
  modify (set_steps (update_where p f)).

Definition stepExecution_findMany (executionId : string) : M (list StepRow) :=
  w ← get_world;
  mret (filter (λ s, st_executionId s = executionId) (steps w)).

Definition workflow_findUnique (id : string) : M (option WorkflowRow) :=
  w ← get_world;
  mret (List.find (λ r, bool_decide (wf_id r = id)) (workflows w)).

Definition execution_create
    (workflowId : string) (status : ExecutionStatus) (input : option Js.value)
    (userId : option string) (startedAt : option Z) : M ExecutionRow :=
  w ← get_world;
  if existsb (λ r, bool_decide (wf_id r = workflowId)) (workflows w) then
    id ← fresh_id;
    if existsb (λ e, bool_decide (ex_id e = id)) (executions w) then
      throw "Unique constraint failed on the fields: (id)"
    else
      let row := mkExecutionRow id workflowId status input None userId startedAt None in
      modify (set_executions (λ l, l ++ [row]));;
      mret row
  else throw "Foreign key constraint failed on the field: workflowId".

Definition execution_update (id : string) (f : ExecutionRow → ExecutionRow) : M unit :=
  w ← get_world;
  if existsb (λ e, bool_decide (ex_id e = id)) (executions w) then
    modify (set_executions (update_where (λ e, bool_decide (ex_id e = id)) f))
  else throw "Record to update not found.".

Definition execution_findUnique (id : string) : M (option ExecutionRow) :=
  w ← get_world;
  mret (List.find (λ e, bool_decide (ex_id e = id)) (executions w)).

Definition jobQueue_create (row : JobRow) : M unit :=
  w ← get_world;
  if existsb (λ r, bool_decide (jq_id r = jq_id row)) (jobRows w) then
    throw "Unique constraint failed on the fields: (id)"
  else modify (set_jobRows (λ l, l ++ [row])).

Definition jobQueue_update (id : string) (f : JobRow → JobRow) : M unit :=
  w ← get_world;
  if existsb (λ r, bool_decide (jq_id r = id)) (jobRows w) then
    modify (set_jobRows (update_where (λ r, bool_decide (jq_id r = id)) f))
  else throw "Record to update not found.".

(** [recordAudit(entry)]: fire and forget. *)
Definition recordAudit (event entityType entityId : string) : M unit :=
  modify (set_auditLog (λ l, l ++ [mkAudit event entityType entityId])).

(** Row updates ([data: { ... }]). *)

Definition step_set_running (now attempts : Z) (s : StepRow) : StepRow :=
  mkStepRow (st_id s) (st_executionId s) (st_nodeId s) (st_nodeLabel s)
    (st_nodeType s) StRunning attempts (st_result s) (st_error s)
    (Some now) (st_completedAt s).

Definition step_set_retry (error : string) (attempts : Z) (s : StepRow) : StepRow :=
  mkStepRow (st_id s) (st_executionId s) (st_nodeId s) (st_nodeLabel s)
    (st_nodeType s) StPending attempts (st_result s) (Some error)
    (st_startedAt s) (st_completedAt s).

Definition step_set_outcome (status : StepStatus) (result : option Js.value)
    (error : option string) (now : Z) (s : StepRow) : StepRow :=
  mkStepRow (st_id s) (st_executionId s) (st_nodeId s) (st_nodeLabel s)
    (st_nodeType s) status (st_attempts s) result error
    (st_startedAt s) (Some now).

Definition step_set_skipped (now : Z) (s : StepRow) : StepRow :=
  mkStepRow (st_id s) (st_executionId s) (st_nodeId s) (st_nodeLabel s)
    (st_nodeType s) StSkipped (st_attempts s) (st_result s) (st_error s)
    (st_startedAt s) (Some now).

Definition execution_set_finished (status : ExecutionStatus) (output : Js.value)
    (now : Z) (e : ExecutionRow) : ExecutionRow :=
  mkExecutionRow (ex_id e) (ex_workflowId e) status (ex_input e) (Some output)
    (ex_userId e) (ex_startedAt e) (Some now).

Definition job_set_processing (now : Z) (workerId : string) (r : JobRow) : JobRow :=
  mkJobRow (jq_id r) (jq_executionId r) (jq_nodeId r) (jq_nodeLabel r)
    (jq_nodeType r) (jq_payload r) JqProcessing (jq_attempts r + 1)
    (jq_maxAttempts r) (Some now) (Some workerId) (jq_result r) (jq_error r).

Definition job_set_done (result : Js.value) (r : JobRow) : JobRow :=
  mkJobRow (jq_id r) (jq_executionId r) (jq_nodeId r) (jq_nodeLabel r)
    (jq_nodeType r) (jq_payload r) JqDone (jq_attempts r)
    (jq_maxAttempts r) (jq_lockedAt r) (jq_lockedBy r) (Some result) (jq_error r).

Definition job_set_failed (error : string) (r : JobRow) : JobRow :=
  mkJobRow (jq_id r) (jq_executionId r) (jq_nodeId r) (jq_nodeLabel r)
    (jq_nodeType r) (jq_payload r) JqFailed (jq_attempts r)
    (jq_maxAttempts r) (jq_lockedAt r) (jq_lockedBy r) (jq_result r) (Some error).

(** [x || d] on an optional string: [undefined] and [""] give [d]. *)
Definition or_default (x : option string) (d : string) : string :=
  match x with
  | Some s => if bool_decide (s = "") then d else s
  | None => d
  end.

(** [x || null] on an optional string. *)
Definition or_null (x : option string) : option string :=
  match x with
  | Some s => if bool_decide (s = "") then None else Some s
  | None => None
  end.

(** ** lib/queue/job-queue.ts, the PostgreSQL-backed [class JobQueue]
    (src/lib/observability/metrics.ts, lines 233 to 398) *)

(** [this.emit("job", job)] *)
Definition JobQueue_emit (job : WorkerJob) : M unit :=
  modify (set_jobEvents (λ l, l ++ [job])).

(** The row that [enqueue] hands to [prisma.jobQueue.create]. *)
Definition enqueue_row (job : WorkerJob) : JobRow :=
  {| jq_id := job_id job;
     jq_executionId := job_executionId job;
     jq_nodeId := node_id (job_node job);
     jq_nodeLabel := node_label (job_node job);
     jq_nodeType := node_type (job_node job);
     jq_payload := job;
     jq_status := JqPending;
     jq_attempts := 0;
     jq_maxAttempts :=
       if bool_decide (job_maxRetries job = 0) then 3 else job_maxRetries job + 1;
     jq_lockedAt := None;
     jq_lockedBy := None;
     jq_result := None;
     jq_error := None |}.

Definition JobQueue_enqueue (job : WorkerJob) : M unit :=
  try_catch
    (jobQueue_create (enqueue_row job);;
     modify (set_counters (λ '(e, p, f), (e + 1, p, f)));;
     JobQueue_emit job)
    (λ _,
     modify (set_counters (λ '(e, p, f), (e + 1, p, f)));;
     JobQueue_emit job).

(** [SELECT id FROM "JobQueue" WHERE status = 'pending'
     ORDER BY "createdAt" ASC LIMIT 1 FOR UPDATE SKIP LOCKED], then the
    update of that row. *)
Definition JobQueue_dequeue (now : Z) (workerId : string) : M (option WorkerJob) :=
  w ← get_world;
  match List.find (λ r, bool_decide (jq_status r = JqPending)) (jobRows w) with
  | None => mret None
  | Some row =>
      try_catch
        (jobQueue_update (jq_id row) (job_set_processing now workerId);;
         mret (Some (jq_payload row)))
        (λ _, mret None)
  end.

Definition JobQueue_markDone (jobId : string) (result : option Js.value) : M unit :=
  modify (set_counters (λ '(e, p, f), (e, p + 1, f)));;
  try_catch
    (jobQueue_update jobId (job_set_done (default Js.VNull result)))
    (λ _, mret tt).

Definition JobQueue_markFailed (jobId : string) (error : option string) : M unit :=
  modify (set_counters (λ '(e, p, f), (e, p, f + 1)));;
  try_catch
    (jobQueue_update jobId (job_set_failed (or_default error "Unknown error")))
    (λ _, mret tt).

(** [get depth()] *)
Definition JobQueue_depth (w : World) : Z :=
  Z.max 0 (q_totalEnqueued w - q_totalProcessed w - q_totalFailed w).

(** ** The dead-letter queue: [dlq.add] *)

Definition dlq_add (now : Z) (job : WorkerJob) (error : string) (attempts : Z)
  : M unit :=
  modify (set_dlq (λ l, l ++ [mkDLQItem job error attempts now])).

(** ** src/lib/queue/job-publisher.ts *)

Definition getMaxRetries (node : WorkflowNode) : Z :=
  match cfg_retry (node_config node) with
  | Some retry => default (maxRetries DEFAULT_RETRY_POLICY) (cfg_maxRetries retry)
  | None => maxRetries DEFAULT_RETRY_POLICY
  end.

Definition idempotency_checkAndSet (now : Z) (key stepId : string)
  : M Idempotency.CheckResult := λ w,
  let '(r, st) :=
    Idempotency.checkAndSet now key stepId Idempotency.DEFAULT_TTL_MS
      (idempotencyStore w) in
  (Ok r, set_idempotencyStore (λ _, st) w).

Definition backpressure_canAccept : M bool := λ w,
  let '(b, c) := Backpressure.canAccept (JobQueue_depth w) (backpressure w) in
  (Ok b, set_backpressure (λ _, c) w).

(** [ideCheck.duplicate && ideCheck.existingStepId]: the step id of the
    live entry, when there is one and it is a non-empty string. *)
Definition duplicate_of (c : Idempotency.CheckResult) : option string :=
  if Idempotency.duplicate c then
    match Idempotency.existingStepId c with
    | Some existing => if bool_decide (existing = "") then None else Some existing
    | None => None
    end
  else None.

Definition publishJob (now : Z) (executionId : string) (node : WorkflowNode)
    (input : option Js.value) (previousResults : list (string * Js.value))
    (attempt : Z) : M string :=
  let ideKey := Idempotency.generateKey executionId (node_id node) in
  step ← stepExecution_create executionId (node_id node) (node_label node)
            (node_type node) StPending attempt (Some now) None;
  ideCheck ← idempotency_checkAndSet now ideKey (st_id step);
  match duplicate_of ideCheck with
  | Some existing =>
      stepExecution_delete (st_id step);;
      mret existing
  | None =>
      let job := {| job_id := st_id step;
                    job_executionId := executionId;
                    job_stepId := st_id step;
                    job_node := node;
                    job_input := input;
                    job_previousResults := previousResults;
                    job_attempt := attempt;
                    job_maxRetries := getMaxRetries node;
                    job_createdAt := now |} in
      backpressure_canAccept ≫= λ ok : bool,
      if ok then
        JobQueue_enqueue job;;
        mret (st_id step)
      else
        modify (set_backpressure Backpressure.recordRejection);;
        mret (st_id step)
  end.

(** ** src/lib/queue/result-handler.ts *)

(** [executionEvents.emit(`done:${executionId}`, payload)] *)
Definition emit_done (executionId : string) (payload : DonePayload) : M unit :=
  modify (set_executionEvents (λ l, l ++ [("done:" +:+ executionId, payload)])).

(** [filterActiveEdges(outgoingEdges, nodeType, result)]; [nodeType] is
    [None] when the completed step was not found (the source passes [""]). *)
Definition filterActiveEdges (outgoingEdges : list WorkflowEdge)
    (nodeType : option NodeType) (result : option (list (string * Js.value)))
  : list WorkflowEdge :=
  if bool_decide (nodeType = Some NCondition) then
    let conditionResult :=
      match result with
      | Some r => Js.truthy (default Js.VUndefined (Js.obj_get "result" r))
      | None => false
      end in
    let labeledEdges :=
      filter (λ e, edge_conditionBranch e ≠ None) outgoingEdges in
    if bool_decide (labeledEdges ≠ []) then
      filter (λ e, edge_conditionBranch e = Some conditionResult
                   ∨ edge_conditionBranch e = None) outgoingEdges
    else outgoingEdges
  else outgoingEdges.

(** [skipBranch(nodeIds, definition, executionId, completedNodeIds,
    pendingOrRunningNodeIds)].  The recursion follows the edges of the
    definition and has no visited set, so it is bounded here by [depth];
    [handleResult] starts it with one more than the number of nodes, which
    no path of an acyclic definition exceeds.  On a definition with a
    reachable cycle the source does not return; the model throws. *)
Fixpoint skipBranch (depth : nat) (now : Z) (nodeIds : list string)
    (definition : WorkflowDefinition) (executionId : string)
    (completedNodeIds pendingOrRunningNodeIds : list string) : M unit :=
  match depth with
  | O => throw "skipBranch: recursion does not end"
  | S depth' =>
      for_each nodeIds (λ nodeId,
        if has nodeId completedNodeIds || has nodeId pendingOrRunningNodeIds
        then mret tt
        else
          match List.find (λ n, bool_decide (node_id n = nodeId)) (nodes definition) with
          | None => mret tt
          | Some node =>
              if bool_decide (node_type node = NJoin) then mret tt
              else
                stepExecution_create executionId (node_id node) (node_label node)
                  (node_type node) StSkipped 0 None (Some now);;
                let downstream :=
                  map edge_target
                    (filter (λ e, edge_source e = nodeId) (edges definition)) in
                if bool_decide (downstream ≠ []) then
                  skipBranch depth' now downstream definition executionId
                    completedNodeIds pendingOrRunningNodeIds
                else mret tt
          end)
  end.

Definition nodeIds_with (p : StepStatus → bool) (l : list StepRow) : list string :=
  map st_nodeId (filter (λ s, p (st_status s) = true) l).

Definition is_completed (s : StepStatus) : bool := bool_decide (s = StCompleted).
Definition is_skipped (s : StepStatus) : bool := bool_decide (s = StSkipped).
Definition is_pendingOrRunning (s : StepStatus) : bool :=
  bool_decide (s = StPending) || bool_decide (s = StRunning).

(** [step.status === "completed" && step.result] *)
Definition has_result (s : StepRow) : option Js.value :=
  if is_completed (st_status s) then
    match st_result s with
    | Some v => if Js.truthy v then Some v else None
    | None => None
    end
  else None.

(** [for (const step of steps) if (...) previousResults[step.nodeId] = step.result] *)
Definition collect_results (l : list StepRow) (acc : list (string * Js.value))
  : list (string * Js.value) :=
  fold_left (λ acc s,
    match has_result s with
    | Some v => Js.obj_set (st_nodeId s) v acc
    | None => acc
    end) l acc.

(** The nodes that are ready: not yet scheduled, with an incoming edge, and
    with every incoming edge's source completed or skipped.  (The [join]
    case of the source applies the same test.) *)
Definition readyNodes (definition : WorkflowDefinition)
    (updatedCompleted updatedSkipped updatedPendingOrRunning : list string)
  : list WorkflowNode :=
  filter (λ node,
    (if has (node_id node) updatedCompleted then false
     else if has (node_id node) updatedSkipped then false
     else if has (node_id node) updatedPendingOrRunning then false
     else
       let incomingEdges :=
         filter (λ e, edge_target e = node_id node) (edges definition) in
       if bool_decide (incomingEdges = []) then false
       else
         forallb (λ e, has (edge_source e) updatedCompleted
                       || has (edge_source e) updatedSkipped) incomingEdges)
    = true) (nodes definition).

Definition status_of_result (s : ResultStatus) : StepStatus :=
  match s with RCompleted => StCompleted | RFailed => StFailed end.

(** [{ error: result.error }] as a JSON object. *)
Definition error_output (error : option string) : Js.value :=
  match error with
  | Some e => Js.VObject [("error", Js.VString e)]
  | None => Js.VObject []
  end.

(** Steps 3 to 8 of [handleResult], once the execution row has been
    loaded: of that row the code reads [id], [input], the workflow (through
    [workflowId]) and the steps. *)
Definition advance (now : Z) (result : WorkerResult) (execution : ExecutionRow)
  : M unit :=
  workflow_findUnique (ex_workflowId execution) ≫= λ wf : option WorkflowRow,
  match wf with
  | None => throw "Cannot read properties of null (reading 'definitionJson')"
  | Some workflow =>
      let definition := wf_definitionJson workflow in
      stepExecution_findMany (ex_id execution) ≫= λ steps0 : list StepRow,
      let completedNodeIds := nodeIds_with is_completed steps0 in
      let pendingOrRunningNodeIds := nodeIds_with is_pendingOrRunning steps0 in
      let previousResults0 := collect_results steps0 [] in
      let completedStep :=
        List.find (λ s, bool_decide (st_id s = res_stepId result)) steps0 in
      let outgoingEdges :=
        match completedStep with
        | Some s => filter (λ e, edge_source e = st_nodeId s) (edges definition)
        | None => []
        end in
      let activeEdges :=
        filterActiveEdges outgoingEdges (st_nodeType <$> completedStep)
          (res_result result) in
      let activeTargetIds := map edge_target activeEdges in
      let skippedBranchTargets :=
        map edge_target
          (filter (λ e, has (edge_target e) activeTargetIds = false) outgoingEdges) in
      (if bool_decide (skippedBranchTargets ≠ []) then
         skipBranch (S (length (nodes definition))) now skippedBranchTargets
           definition (ex_id execution) completedNodeIds pendingOrRunningNodeIds
       else mret tt);;
      stepExecution_findMany (ex_id execution) ≫= λ updatedSteps : list StepRow,
      let updatedCompleted := nodeIds_with is_completed updatedSteps in
      let updatedSkipped := nodeIds_with is_skipped updatedSteps in
      let updatedPendingOrRunning := nodeIds_with is_pendingOrRunning updatedSteps in
      let ready :=
        readyNodes definition updatedCompleted updatedSkipped
          updatedPendingOrRunning in
      let previousResults := collect_results updatedSteps previousResults0 in
      if bool_decide (ready ≠ []) then
        for_each ready (λ node,
          publishJob now (res_executionId result) node (ex_input execution)
            previousResults 1;;
          mret tt)
      else if bool_decide (updatedPendingOrRunning = []) then
        execution_update (res_executionId result)
          (execution_set_finished ExCompleted (Js.VObject previousResults) now);;
        recordAudit "execution.completed" "execution" (res_executionId result);;
        emit_done (res_executionId result)
          (mkDone RCompleted (Some previousResults) None)
      else mret tt
  end.

Definition handleResult (now : Z) (result : WorkerResult) : M unit :=
  (* 1. Update the StepExecution record *)
  stepExecution_update (res_stepId result)
    (step_set_outcome (status_of_result (res_status result))
       (Js.VObject <$> res_result result) (or_null (res_error result)) now);;
  match res_status result with
  | RFailed =>
      (* 2. If step failed → mark execution as failed *)
      execution_update (res_executionId result)
        (execution_set_finished ExFailed (error_output (res_error result)) now);;
      stepExecution_updateMany
        (λ s, bool_decide (st_executionId s = res_executionId result)
              && bool_decide (st_status s = StPending))
        (step_set_skipped now);;
      recordAudit "execution.failed" "execution" (res_executionId result);;
      emit_done (res_executionId result)
        (mkDone RFailed None (res_error result))
  | RCompleted =>
      (* 3. Load execution context for next-step calculation *)
      execution_findUnique (res_executionId result) ≫= λ found : option ExecutionRow,
      match found with
      | None => mret tt
      | Some execution => advance now result execution
      end
  end.

(** ** lib/queue/job-consumer.ts, the polling consumer
    (src/unnamed/part_016, lines 277 to 592) *)

Definition MAX_CONCURRENCY : Z := 5.

(** [getRetryConfig(config)]: [x || default] falls back on a missing or
    zero value. *)
Definition getRetryConfig (config : NodeConfig) : Z * Z :=
  let pick (x : option Z) (d : Z) : Z :=
    match x with
    | Some v => if bool_decide (v = 0) then d else v
    | None => d
    end in
  match cfg_retry config with
  | Some retry =>
      (pick (cfg_backoffMs retry) (backoffMs DEFAULT_RETRY_POLICY),
       pick (cfg_backoffMultiplier retry) (backoffMultiplier DEFAULT_RETRY_POLICY))
  | None => (backoffMs DEFAULT_RETRY_POLICY, backoffMultiplier DEFAULT_RETRY_POLICY)
  end.

(** The result the consumer makes up when no handler is registered or the
    handler rejects. *)
Definition synthetic_failure (job : WorkerJob) (error : string) (retryable : bool)
  : WorkerResult :=
  {| res_jobId := job_id job;
     res_stepId := job_stepId job;
     res_executionId := job_executionId job;
     res_status := RFailed;
     res_result := None;
     res_error := Some error;
     res_durationMs := 0;
     res_retryable := Some retryable |}.

(** Dispatch to the handler and reflect the outcome on the queue row. *)
Definition run_handler (registry : HandlerRegistry) (job : WorkerJob)
  : M WorkerResult :=
  match registry (node_type (job_node job)) with
  | None =>
      let result :=
        synthetic_failure job "No handler registered for node type" false in
      JobQueue_markFailed (job_id job) (res_error result);;
      mret result
  | Some handler =>
      match handler job with
      | Returns result =>
          (if bool_decide (res_status result = RCompleted)
           then JobQueue_markDone (job_id job) (Js.VObject <$> res_result result)
           else JobQueue_markFailed (job_id job) (res_error result));;
          mret result
      | Rejects message =>
          let result := synthetic_failure job message true in
          JobQueue_markFailed (job_id job) (res_error result);;
          mret result
      end
  end.

(** The retry test of [processJob]:
    [result.status === "failed" && result.retryable !== false
     && job.attempt < job.maxRetries]. *)
Definition retries (result : WorkerResult) (job : WorkerJob) : bool :=
  bool_decide (res_status result = RFailed)
  && negb (bool_decide (res_retryable result = Some false))
  && bool_decide (job_attempt job < job_maxRetries job).

Definition retryJob_of (now : Z) (job : WorkerJob) : WorkerJob :=
  {| job_id := job_id job;
     job_executionId := job_executionId job;
     job_stepId := job_stepId job;
     job_node := job_node job;
     job_input := job_input job;
     job_previousResults := job_previousResults job;
     job_attempt := job_attempt job + 1;
     job_maxRetries := job_maxRetries job;
     job_createdAt := now |}.

(** [processJob(job)].  A retry is left as a pending timer: the pair of
    its delay and the job it will enqueue. *)
Definition processJob (registry : HandlerRegistry) (now : Z) (job : WorkerJob)
  : M unit :=
  try_catch
    (stepExecution_update (job_stepId job) (step_set_running now (job_attempt job));;
     mret true)
    (λ _,
     JobQueue_markFailed (job_id job)
       (Some "Step no longer exists or was cancelled");;
     mret false)
  ≫= λ marked : bool,
  if negb marked then mret tt
  else
    run_handler registry job ≫= λ result : WorkerResult,
    if retries result job then
      let '(backoff, multiplier) := getRetryConfig (node_config (job_node job)) in
      let delay := backoff * multiplier ^ (job_attempt job - 1) in
      modify (set_totalRetries (Z.add 1));;
      recordAudit "step.retried" "step" (job_stepId job);;
      stepExecution_update (job_stepId job)
        (step_set_retry
           ("Retry " +:+ pretty (job_attempt job) +:+ "/"
              +:+ pretty (job_maxRetries job) +:+ ": "
              +:+ default "undefined" (res_error result))
           (job_attempt job));;
      modify (set_idempotencyStore
                (Idempotency.remove
                   (Idempotency.generateKey (job_executionId job)
                      (node_id (job_node job)))));;
      modify (set_timers (λ l, l ++ [(delay, job)]))
    else
      (if bool_decide (res_status result = RFailed)
          && bool_decide (job_maxRetries job > 0)
       then
         dlq_add now job (or_default (res_error result) "Unknown error")
           (job_attempt job);;
         recordAudit "dlq.entry" "step" (job_stepId job)
       else mret tt);;
      try_catch (handleResult now result) (λ _, mret tt).

(** The callback of a retry timer: [jobQueue.enqueue(retryJob)]. *)
Definition fire_timer (now : Z) (job : WorkerJob) : M unit :=
  JobQueue_enqueue (retryJob_of now job).

(** One worker turn: dequeue, and process what was dequeued. *)
Definition worker_turn (registry : HandlerRegistry) (now : Z) (workerId : string)
  : M bool :=
  JobQueue_dequeue now workerId ≫= λ next : option WorkerJob,
  match next with
  | None => mret false
  | Some job => processJob registry now job;; mret true
  end.

(** ** lib/orchestrator.ts (src/unnamed/part_007) *)

Record OrchestratorResult := mkOrchestratorResult {
  or_executionId : string;
  or_status : ResultStatus;
  or_output : option (list (string * Js.value));
  or_error : option string
}.

(** [executeWorkflow] either returns at once or goes on to await the
    completion signal [done:<executionId>]. *)
Inductive Progress :=
  | Returned (r : OrchestratorResult)
  | Awaiting (executionId : string).

(** How [waitForExecution] settles: with the payload of the signal, or,
    when none arrives within 300 000 ms, with the timeout failure. *)
Definition waitForExecution_settle (signal : option DonePayload) : DonePayload :=
  match signal with
  | Some payload => payload
  | None => mkDone RFailed None (Some "Execution timed out (5m)")
  end.

Definition executeWorkflow (now : Z) (workflowId : string)
    (input : option Js.value) (userId : option string) : M Progress :=
  (* 1. Load workflow *)
  workflow_findUnique workflowId ≫= λ found : option WorkflowRow,
  match found with
  | None => throw ("Workflow " +:+ workflowId +:+ " not found")
  | Some workflow =>
      let definition := wf_definitionJson workflow in
      (* 2. Create execution record *)
      execution_create workflowId ExRunning input (or_null userId) (Some now)
        ≫= λ execution : ExecutionRow,
      recordAudit "execution.started" "execution" (ex_id execution);;
      (* 3. Find initial ready nodes (nodes with no incoming edges) *)
      let nodesWithIncoming := map edge_target (edges definition) in
      let initialNodes :=
        filter (λ n, has (node_id n) nodesWithIncoming = false) (nodes definition) in
      if bool_decide (initialNodes = []) then
        execution_update (ex_id execution)
          (execution_set_finished ExCompleted (Js.VObject []) now);;
        mret (Returned (mkOrchestratorResult (ex_id execution) RCompleted (Some []) None))
      else
        (* 4. Publish initial jobs to the queue *)
        for_each initialNodes (λ node,
          publishJob now (ex_id execution) node input [] 1;;
          mret tt);;
        (* 5. Wait for execution to complete *)
        mret (Awaiting (ex_id execution))
  end.

(** ** JavaScript strings

    Strings are byte strings.  Of JavaScript's string primitives the code
    uses [trim], [split], [includes], [indexOf], [slice], [parseInt] and
    [Number]; they are written out here.  Whitespace is the ASCII
    whitespace (tab, line feed, vertical tab, form feed, carriage return,
    space). *)

Module JsString.

Definition is_ws (a : ascii) : bool :=
  let n := nat_of_ascii a in
  ((9 <=? n) && (n <=? 13) || (n =? 32))%nat.

Fixpoint trim_start (s : string) : string :=
  match s with
  | String a s' => if is_ws a then trim_start s' else s
  | EmptyString => EmptyString
  end.

Definition string_rev (s : string) : string :=
  String.string_of_list_ascii (rev (String.list_ascii_of_string s)).

(** [s.trim()] *)
Definition trim (s : string) : string :=
  string_rev (trim_start (string_rev (trim_start s))).

(** [s.split(c)] for a one-character separator. *)
Fixpoint split (c : ascii) (s : string) : list string :=
  match s with
  | EmptyString => [EmptyString]
  | String a s' =>
      if Ascii.eqb a c then EmptyString :: split c s'
      else match split c s' with
           | h :: t => String a h :: t
           | [] => [String a EmptyString]
           end
  end.

(** [s.split(/\s+/)]: [in_sep] tells that the previous character was
    whitespace. *)
Fixpoint split_ws_from (in_sep : bool) (s : string) : list string :=
  match s with
  | EmptyString => [EmptyString]
  | String a s' =>
      if is_ws a then
        if in_sep then split_ws_from true s'
        else EmptyString :: split_ws_from true s'
      else match split_ws_from false s' with
           | h :: t => String a h :: t
           | [] => [String a EmptyString]
           end
  end.

Definition split_ws (s : string) : list string := split_ws_from false s.

(** [s.includes(c)] *)
Fixpoint includes_char (c : ascii) (s : string) : bool :=
  match s with
  | EmptyString => false
  | String a s' => Ascii.eqb a c || includes_char c s'
  end.

Definition digit_of (a : ascii) : option Z :=
  let n := nat_of_ascii a in
  if ((48 <=? n) && (n <=? 57))%nat then Some (Z.of_nat n - 48) else None.

(** The longest prefix of digits, as a number; [acc] is what has been
    read, [None] when no digit has. *)
Fixpoint digits_prefix (s : string) (acc : option Z) : option Z :=
  match s with
  | EmptyString => acc
  | String a s' =>
      match digit_of a with
      | Some d => digits_prefix s' (Some (10 * default 0 acc + d))
      | None => acc
      end
  end.

(** The whole text as digits; [None] when it is empty or has another
    character. *)
Fixpoint digits_only (s : string) (acc : option Z) : option Z :=
  match s with
  | EmptyString => acc
  | String a s' =>
      match digit_of a with
      | Some d => digits_only s' (Some (10 * default 0 acc + d))
      | None => None
      end
  end.

Definition signed (read : string → option Z) (s : string) : option Z :=
  match s with
  | String a s' =>
      if Ascii.eqb a "-" then Z.opp <$> read s'
      else if Ascii.eqb a "+" then read s'
      else read s
  | EmptyString => read s
  end.

(** [parseInt(s, 10)] *)
Definition parseInt (s : string) : option Z :=
  signed (λ r, digits_prefix r None) (trim_start s).

(** [Number(s)] *)
Definition Number (s : string) : option Z :=
  let t := trim s in
  if bool_decide (t = EmptyString) then Some 0
  else signed (λ r, digits_only r None) t.

End JsString.

(** ** lib/scheduler/cron-parser.ts (src/unnamed/part_016, lines 593 to 754)

    [Number] on a string is [JsString.Number]: it reads an optionally
    signed run of decimal digits (and the empty string as 0) and every
    other text as [NaN], which is exact for texts over the cron alphabet
    (digits, [*], [,], [-], [/]).  [NaN] is [None]. *)

Module CronParser.
Import JsString.

Record CronFields := mkCronFields {
  minute : list Z;
  hour : list Z;
  dayOfMonth : list Z;
  month : list Z;
  dayOfWeek : list Z
}.

(** [for (let i = start; i <= end; i += step) values.add(i)], for
    [step > 0]: the values added, in order.  Nothing is added when [start]
    or [end] is [NaN]. *)
Definition loop_values (start end_ : option Z) (step : Z) : list Z :=
  match start, end_ with
  | Some a, Some b =>
      if bool_decide (a <= b)
      then map (λ k, a + step * Z.of_nat k) (seq 0 (Z.to_nat ((b - a) / step + 1)))
      else []
  | _, _ => []
  end.

Definition nth_string (n : nat) (l : list string) : string :=
  nth n l EmptyString.

(** One comma-separated part of a field: the values it adds, or the error
    it throws. *)
Definition parsePart (part : string) (min max : Z) : Outcome (list Z) :=
  if includes_char "/" part then
    (* step values: */5 or 1-10/2 *)
    let pieces := split "/" part in
    let range := nth_string 0 pieces in
    let stepStr := nth_string 1 pieces in
    match parseInt stepStr with
    | None => Throw ("Invalid step: " +:+ stepStr)
    | Some step =>
        if bool_decide (step <= 0) then Throw ("Invalid step: " +:+ stepStr)
        else
          let '(start, end_) :=
            if bool_decide (range = "*") then (Some min, Some max)
            else if includes_char "-" range then
              let bounds := map Number (split "-" range) in
              (nth 0 bounds None, nth 1 bounds None)
            else (parseInt range, Some max) in
          Ok (loop_values start end_ step)
    end
  else if includes_char "-" part then
    (* range: 1-5 *)
    let pieces := split "-" part in
    Ok (loop_values (parseInt (nth_string 0 pieces))
          (parseInt (nth_string 1 pieces)) 1)
  else if bool_decide (part = "*") then
    Ok (loop_values (Some min) (Some max) 1)
  else
    match parseInt part with
    | Some val =>
        if bool_decide (val >= min) && bool_decide (val <= max) then Ok [val]
        else Throw ("Invalid cron value: " +:+ part)
    | None => Throw ("Invalid cron value: " +:+ part)
    end.

Fixpoint parseParts (parts : list string) (min max : Z) (values : list Z)
  : Outcome (list Z) :=
  match parts with
  | [] => Ok values
  | part :: rest =>
      match parsePart part min max with
      | Ok vs => parseParts rest min max (values ++ vs)
      | Throw e => Throw e
      end
  end.

(** [parseField(field, min, max)]: the set of values, sorted. *)
Definition parseField (field : string) (min max : Z) : Outcome (list Z) :=
  match parseParts (split "," field) min max [] with
  | Ok values => Ok (merge_sort Z.le (remove_dups values))
  | Throw e => Throw e
  end.

Definition parseCron (expression : string) : Outcome CronFields :=
  let parts := split_ws (trim expression) in
  if bool_decide (length parts ≠ 5%nat) then
    Throw "Invalid cron expression: expected 5 fields"
  else
    match parseField (nth_string 0 parts) 0 59 with
    | Throw e => Throw e
    | Ok minute =>
        match parseField (nth_string 1 parts) 0 23 with
        | Throw e => Throw e
        | Ok hour =>
            match parseField (nth_string 2 parts) 1 31 with
            | Throw e => Throw e
            | Ok dayOfMonth =>
                match parseField (nth_string 3 parts) 1 12 with
                | Throw e => Throw e
                | Ok month =>
                    match parseField (nth_string 4 parts) 0 6 with
                    | Throw e => Throw e
                    | Ok dayOfWeek =>
                        Ok (mkCronFields minute hour dayOfMonth month dayOfWeek)
                    end
                end
            end
        end
    end.

(** *** Dates

    A [Date] is its time value, in milliseconds since the epoch; every
    integer is taken as a valid time value.  The getters read local time;
    the local zone is at a fixed offset of [tz] minutes east of UTC. *)

Section Dates.
Variable tz : Z.

Definition local_ms (t : Z) : Z := t + tz * 60000.
Definition local_days (t : Z) : Z := local_ms t / 86400000.
Definition getMinutes (t : Z) : Z := (local_ms t / 60000) mod 60.
Definition getHours (t : Z) : Z := (local_ms t / 3600000) mod 24.
(** 1 January 1970 was a Thursday. *)
Definition getDay (t : Z) : Z := (local_days t + 4) mod 7.

(** Year, month (1 to 12) and day of the month of a day number, in the
    proleptic Gregorian calendar. *)
Definition civil_from_days (days : Z) : Z * Z * Z :=
  let z := days + 719468 in
  let era := z / 146097 in
  let doe := z - era * 146097 in
  let yoe := (doe - doe / 1460 + doe / 36524 - doe / 146096) / 365 in
  let doy := doe - (365 * yoe + yoe / 4 - yoe / 100) in
  let mp := (5 * doy + 2) / 153 in
  let d := doy - (153 * mp + 2) / 5 + 1 in
  let m := if bool_decide (mp < 10) then mp + 3 else mp - 9 in
  let y := yoe + era * 400 + (if bool_decide (m <= 2) then 1 else 0) in
  (y, m, d).

Definition getDate (t : Z) : Z := (civil_from_days (local_days t)).2.
(** [getMonth()] counts from 0. *)
Definition getMonth (t : Z) : Z := (civil_from_days (local_days t)).1.2 - 1.

(** [xs.includes(x)] *)
Definition includes (xs : list Z) (x : Z) : bool := bool_decide (x ∈ xs).

(** The conjunction that both [shouldRun] and [getNextRunTime] test. *)
Definition matches (fields : CronFields) (t : Z) : bool :=
  includes (minute fields) (getMinutes t)
  && includes (hour fields) (getHours t)
  && includes (dayOfMonth fields) (getDate t)
  && includes (month fields) (getMonth t + 1)
  && includes (dayOfWeek fields) (getDay t).

Definition shouldRun (expression : string) (now : Z) : bool :=
  match parseCron expression with
  | Ok fields => matches fields now
  | Throw _ => false
  end.

(** [366 * 24 * 60] *)
Definition maxIterations : nat := Z.to_nat (366 * 24 * 60).

(** The search loop of [getNextRunTime]: [remaining] iterations are left;
    each one moves [candidate] a minute on. *)
Fixpoint search (fields : CronFields) (remaining : nat) (candidate : Z)
  : option Z :=
  match remaining with
  | O => None
  | S remaining' =>
      if matches fields candidate then Some candidate
      else search fields remaining' (candidate + 60000)
  end.

(** At the fixed offset [tz], [setSeconds(0, 0)] takes the time value
    down to the whole minute and [setMinutes(getMinutes() + 1)] adds a
    minute to it; where the offset of the local zone changes, the two
    setters are not this. *)
Definition getNextRunTime (expression : string) (from : Z) : option Z :=
  match parseCron expression with
  | Ok fields =>
      (* candidate.setSeconds(0, 0); candidate.setMinutes(getMinutes() + 1) *)
      let candidate := from - from mod 60000 + 60000 in
      search fields maxIterations candidate
  | Throw _ => None
  end.

Definition validateCronExpression (expression : string) : option string :=
  match parseCron expression with
  | Ok _ => None
  | Throw e => Some e
  end.

End Dates.

End CronParser.

(** ** src/lib/workers/handlers/condition-handler.ts

    The previous results and the configuration are JSON data.  The
    conversions [String(v)] and [Number(v)] follow ECMAScript's [ToString]
    and [ToNumber].  What the runtime adds is taken as parameters:
    [StringToNumber], the number a string is read as; [NumberToString],
    the text a number is printed as; and a [Runtime], the built-in objects
    that a property access reaches through the prototype chain. *)

Module ConditionHandler.
Import Js.

Definition NaN : spec_float := S754_nan.

(** An integer as a binary64 number. *)
Definition number_of_Z (z : Z) : spec_float := binary_normalize 53 1024 z 0 false.

Definition is_NaN (x : spec_float) : bool :=
  match x with S754_nan => true | _ => false end.

(** What a reference resolves to: JSON data, or a built-in object of the
    runtime (a function such as [Object.prototype.toString], or a
    prototype object), known by a handle. *)
Inductive Resolved :=
  | Json (v : value)
  | Builtin (b : N).

(** The built-in objects, as far as a reference can reach them:
    - [inherited v key] is [v[key]] for JSON data [v], neither [null] nor
      [undefined], that has no own property [key]: what the prototype
      chain of [v] holds under that name, [undefined] when it holds
      nothing;
    - [builtin_get b key] is [b[key]] for a built-in object; the access
      can throw (the restricted [caller] and [arguments] of a function);
    - [builtin_ToString b] and [builtin_ToNumber b] are [String(b)] and
      [Number(b)];
    - [not_a_function v] and [cannot_convert v] are the messages of the
      TypeErrors thrown for [v.trim()] when [v] is no string, and for
      [String(v)] or [Number(v)] when [v] has no usable [toString]. *)
Record Runtime := mkRuntime {
  inherited : value → string → Resolved;
  builtin_get : N → string → Outcome Resolved;
  builtin_ToString : N → Outcome string;
  builtin_ToNumber : N → Outcome spec_float;
  not_a_function : value → string;
  cannot_convert : value → string
}.

Section Conversions.
Variable StringToNumber : string → spec_float.
Variable NumberToString : spec_float → string.
Variable runtime : Runtime.

Fixpoint join (sep : string) (l : list string) : string :=
  match l with
  | [] => ""
  | [s] => s
  | s :: l' => s +:+ sep +:+ join sep l'
  end.

(** [String(v)] for JSON data that can be converted (see [unconvertible]);
    an array prints its elements joined by commas, with [null] and
    [undefined] elements printed as nothing. *)
Fixpoint ToString (v : value) : string :=
  match v with
  | VUndefined => "undefined"
  | VNull => "null"
  | VBool true => "true"
  | VBool false => "false"
  | VNumber x => NumberToString x
  | VString s => s
  | VArray xs =>
      join ","
        (map (λ x, match x with
                   | VUndefined | VNull => ""
                   | _ => ToString x
                   end) xs)
  | VObject _ => "[object Object]"
  end.

(** [Number(v)] for JSON data that can be converted; an array or object is
    converted through its string. *)
Definition ToNumber (v : value) : spec_float :=
  match v with
  | VUndefined => NaN
  | VNull => S754_zero false
  | VBool true => number_of_Z 1
  | VBool false => S754_zero false
  | VNumber x => x
  | VString s => StringToNumber s
  | VArray _ | VObject _ => StringToNumber (ToString v)
  end.

(** The conversion of an object to a primitive calls its [toString] (and
    its [valueOf], which for JSON data gives no primitive).  An own
    property [toString] of JSON data is no function, so an object that has
    one cannot be converted, nor can an array with such an element:
    [String(v)] and [Number(v)] throw a TypeError. *)
Fixpoint unconvertible (v : value) : bool :=
  match v with
  | VObject o => bool_decide (is_Some (obj_get "toString" o))
  | VArray xs => existsb unconvertible xs
  | _ => false
  end.

(** [String(v)] *)
Definition String_of (v : Resolved) : Outcome string :=
  match v with
  | Json v =>
      if unconvertible v then Throw (cannot_convert runtime v)
      else Ok (ToString v)
  | Builtin b => builtin_ToString runtime b
  end.

(** [Number(v)] *)
Definition Number_of (v : Resolved) : Outcome spec_float :=
  match v with
  | Json v =>
      if unconvertible v then Throw (cannot_convert runtime v)
      else Ok (ToNumber v)
  | Builtin b => builtin_ToNumber runtime b
  end.

(** [Boolean(v)]; every object is truthy. *)
Definition Boolean_of (v : Resolved) : bool :=
  match v with
  | Json v => truthy v
  | Builtin _ => true
  end.

(** An array index in canonical form: [0], or digits without a leading
    zero. *)
Definition array_index (key : string) : option nat :=
  match key with
  | String a rest =>
      if Ascii.eqb a "0" then
        if bool_decide (rest = "") then Some 0%nat else None
      else Z.to_nat <$> JsString.digits_only key None
  | EmptyString => None
  end.

(** [v[key]] as an own property of JSON data that is neither [null] nor
    [undefined]; [None] when there is no such property. *)
Definition own_prop (v : value) (key : string) : option value :=
  match v with
  | VObject o => obj_get key o
  | VArray xs =>
      if bool_decide (key = "length")
      then Some (VNumber (number_of_Z (Z.of_nat (length xs))))
      else i ← array_index key; xs !! i
  | VString s =>
      if bool_decide (key = "length")
      then Some (VNumber (number_of_Z (Z.of_nat (String.length s))))
      else i ← array_index key;
           c ← String.get i s;
           Some (VString (String c ""))
  | _ => None
  end.

(** [value[key]] for a value that is neither [null] nor [undefined]: the
    own property, or else what the value inherits under that name. *)
Definition get_prop (v : Resolved) (key : string) : Outcome Resolved :=
  match v with
  | Json v =>
      Ok (match own_prop v key with
          | Some x => Json x
          | None => inherited runtime v key
          end)
  | Builtin b => builtin_get runtime b key
  end.

(** [for (let i = 1; i < path.length && value != null; i++)
      value = value[path[i]]] *)
Fixpoint walk (v : Resolved) (path : list string) : Outcome Resolved :=
  match path with
  | [] => Ok v
  | key :: rest =>
      match v with
      | Json VUndefined | Json VNull => Ok v
      | _ =>
          match get_prop v key with
          | Ok v' => walk v' rest
          | Throw e => Throw e
          end
      end
  end.

Definition startsWith (c : ascii) (s : string) : bool :=
  match s with
  | String a _ => Ascii.eqb a c
  | EmptyString => false
  end.

Definition endsWith (c : ascii) (s : string) : bool :=
  startsWith c (JsString.string_rev s).

(** [token.slice(1)] *)
Definition slice_1 (s : string) : string :=
  match s with
  | String _ rest => rest
  | EmptyString => EmptyString
  end.

(** [token.slice(1, -1)] *)
Definition slice_1_m1 (s : string) : string :=
  String.substring 1 (String.length s - 2) s.

Definition double_quote : ascii := ascii_of_nat 34.
Definition single_quote : ascii := ascii_of_nat 39.

(** The path of a reference [$nodeId.a.b]: [token.slice(1).split(".")]. *)
Definition path_of (token : string) : list string :=
  JsString.split "." (slice_1 token).

Definition resolveValue (token : string) (previousResults : list (string * value))
  : Outcome Resolved :=
  if negb (startsWith "$" token) then
    let num := StringToNumber token in
    if negb (is_NaN num) then Ok (Json (VNumber num))
    else if (startsWith double_quote token && endsWith double_quote token)
            || (startsWith single_quote token && endsWith single_quote token)
    then Ok (Json (VString (slice_1_m1 token)))
    else Ok (Json (VString token))
  else
    match path_of token with
    | nodeId :: rest =>
        match get_prop (Json (VObject previousResults)) nodeId with
        | Ok value => walk value rest
        | Throw e => Throw e
        end
    | [] => Ok (Json VUndefined)
    end.

Inductive Operator := OpGe | OpLe | OpNe | OpEq | OpGt | OpLt.

Definition operator_text (op : Operator) : string :=
  match op with
  | OpGe => ">=" | OpLe => "<=" | OpNe => "!=" | OpEq => "=="
  | OpGt => ">" | OpLt => "<"
  end.

(** The two operands converted, the left one first. *)
Definition both {A} (convert : Resolved → Outcome A) (left right : Resolved)
  : Outcome (A * A) :=
  match convert left with
  | Ok l =>
      match convert right with
      | Ok r => Ok (l, r)
      | Throw e => Throw e
      end
  | Throw e => Throw e
  end.

(** [compare(left, op, right)] *)
Definition compare (left : Resolved) (op : Operator) (right : Resolved)
  : Outcome bool :=
  match op with
  | OpEq | OpNe =>
      match both String_of left right with
      | Ok (l, r) =>
          Ok (match op with
              | OpEq => bool_decide (l = r)
              | _ => negb (bool_decide (l = r))
              end)
      | Throw e => Throw e
      end
  | _ =>
      match both Number_of left right with
      | Ok (l, r) =>
          Ok (match op with
              | OpGt => SFltb r l
              | OpLt => SFltb l r
              | OpGe => SFleb r l
              | _ => SFleb l r
              end)
      | Throw e => Throw e
      end
  end.

(** The operators in the order in which [evaluate] looks for them. *)
Definition operators : list Operator := [OpGe; OpLe; OpNe; OpEq; OpGt; OpLt].

(** [for (const op of operators) { const idx = trimmed.indexOf(op); ... }] *)
Fixpoint first_operator (ops : list Operator) (trimmed : string)
  : option (Operator * nat) :=
  match ops with
  | [] => None
  | op :: rest =>
      match String.index 0 (operator_text op) trimmed with
      | Some idx => Some (op, idx)
      | None => first_operator rest trimmed
      end
  end.

(** [evaluate(expression, previousResults)] for a string [expression] *)
Definition evaluate (expression : string) (previousResults : list (string * value))
  : Outcome bool :=
  let trimmed := JsString.trim expression in
  if bool_decide (trimmed = "true") || bool_decide (trimmed = "1") then Ok true
  else if bool_decide (trimmed = "false") || bool_decide (trimmed = "0") then Ok false
  else
    match first_operator operators trimmed with
    | Some (op, idx) =>
        let left := JsString.trim (String.substring 0 idx trimmed) in
        let from := (idx + String.length (operator_text op))%nat in
        let right :=
          JsString.trim
            (String.substring from (String.length trimmed - from) trimmed) in
        match resolveValue left previousResults with
        | Ok leftVal =>
            match resolveValue right previousResults with
            | Ok rightVal => compare leftVal op rightVal
            | Throw e => Throw e
            end
        | Throw e => Throw e
        end
    | None =>
        match resolveValue trimmed previousResults with
        | Ok resolved => Ok (Boolean_of resolved)
        | Throw e => Throw e
        end
    end.

(** [(job.node.config?.expression as string) || "true"]: the cast checks
    nothing, so this is the configured value when it is truthy. *)
Definition expression_of (job : WorkerJob) : value :=
  match cfg_expression (node_config (job_node job)) with
  | Some e => if truthy e then e else VString "true"
  | None => VString "true"
  end.

(** The result of the [catch] branch. *)
Definition evaluation_error (job : WorkerJob) (message : string) : WorkerResult :=
  {| res_jobId := job_id job;
     res_stepId := job_stepId job;
     res_executionId := job_executionId job;
     res_status := RFailed;
     res_result := None;
     res_error := Some ("Condition evaluation error: " +:+ message);
     res_durationMs := 0;
     res_retryable := Some false |}.

(** [execute(job)].  [evaluate] starts with [expression.trim()], which
    throws a TypeError when the expression is no string. *)
Definition execute (job : WorkerJob) : HandlerOutcome :=
  let expression := expression_of job in
  match
    match expression with
    | VString s => evaluate s (job_previousResults job)
    | _ => Throw (not_a_function runtime expression)
    end
  with
  | Throw message => Returns (evaluation_error job message)
  | Ok result =>
      Returns
        {| res_jobId := job_id job;
           res_stepId := job_stepId job;
           res_executionId := job_executionId job;
           res_status := RCompleted;
           res_result :=
             Some [("message",
                    VString ("Condition " +:+ String double_quote ""
                               +:+ node_label (job_node job)
                               +:+ String double_quote "" +:+ " evaluated"));
                   ("expression", expression);
                   ("result", VBool result)];
           res_error := None;
           res_durationMs := 0;
           res_retryable := None |}
  end.

(** The value at the end of a path of own properties, when the whole path
    exists. *)
Fixpoint lookup_path (v : value) (path : list string) : option value :=
  match path with
  | [] => Some v
  | key :: rest => v' ← own_prop v key; lookup_path v' rest
  end.

End Conversions.

End ConditionHandler.

(** ** [validateDAG] (src/lib/validations.ts, lines 94 to 283)

    [nodeIds], [edgeIds] and [reachable] are JavaScript [Set]s, [adjacency]
    and [inDegree] are [Map]s keyed by node id.  A [Map] is iterated in the
    order in which its keys were first inserted, here the order of
    [nodes].  The two [while] loops take a bound on their iterations;
    [validateDAG] gives them one more than the number of nodes, and
    returns [None] only if a loop has not ended within it. *)

Module Validations.

Record ValidationResult := mkValidation {
  valid : bool;
  errors : list string
}.

(** [for (const x of xs) { if (seen.has(x.id)) errors.push(...); seen.add(x.id) }]:
    the ids that draw an error. *)
Fixpoint duplicate_ids (seen : gset string) (ids : list string) : list string :=
  match ids with
  | [] => []
  | id :: rest =>
      (if bool_decide (id ∈ seen) then [id] else [])
        ++ duplicate_ids ({[id]} ∪ seen) rest
  end.

Definition start_count_errors (startNodes : list WorkflowNode) : list string :=
  if bool_decide (length startNodes = 0%nat) then
    ["Workflow must have exactly one start node"]
  else if bool_decide (1 < length startNodes)%nat then
    ["Workflow must have exactly one start node, found "
       +:+ pretty (length startNodes)]
  else [].

Definition end_count_errors (endNodes : list WorkflowNode) : list string :=
  if bool_decide (length endNodes = 0%nat) then
    ["Workflow must have at least one end node"]
  else [].

Definition edge_reference_errors (nodeIds : gset string) (e : WorkflowEdge)
  : list string :=
  (if bool_decide (edge_source e ∈ nodeIds) then []
   else ["Edge " +:+ edge_id e +:+ " references non-existent source node: "
           +:+ edge_source e])
  ++
  (if bool_decide (edge_target e ∈ nodeIds) then []
   else ["Edge " +:+ edge_id e +:+ " references non-existent target node: "
           +:+ edge_target e]).

(** The errors of the structural checks, in the order in which the source
    pushes them. *)
Definition structural_errors (definition : WorkflowDefinition) : list string :=
  let nodeIds : gset string := list_to_set (map node_id (nodes definition)) in
  map (λ id, "Duplicate node ID: " +:+ id)
    (duplicate_ids ∅ (map node_id (nodes definition)))
  ++ map (λ id, "Duplicate edge ID: " +:+ id)
       (duplicate_ids ∅ (map edge_id (edges definition)))
  ++ start_count_errors
       (filter (λ n, node_type n = NStart) (nodes definition))
  ++ end_count_errors
       (filter (λ n, node_type n = NEnd) (nodes definition))
  ++ concat (map (edge_reference_errors nodeIds) (edges definition)).

(** [for (const node of nodes) { adjacency.set(node.id, []); inDegree.set(node.id, 0) }] *)
Definition init_adjacency (ns : list WorkflowNode) : gmap string (list string) :=
  fold_left (λ m n, <[node_id n := []]> m) ns ∅.

Definition init_inDegree (ns : list WorkflowNode) : gmap string Z :=
  fold_left (λ m n, <[node_id n := 0]> m) ns ∅.

(** [adjacency.get(edge.source)!.push(edge.target)]; every source is a
    key, the edge references having been checked. *)
Definition build_adjacency (es : list WorkflowEdge) (m : gmap string (list string))
  : gmap string (list string) :=
  fold_left (λ m e, alter (λ l, l ++ [edge_target e]) (edge_source e) m) es m.

(** [inDegree.set(edge.target, (inDegree.get(edge.target) || 0) + 1)] *)
Definition build_inDegree (es : list WorkflowEdge) (m : gmap string Z)
  : gmap string Z :=
  fold_left (λ m e, <[edge_target e := default 0 (m !! edge_target e) + 1]> m) es m.

(** [for (const [nodeId, degree] of inDegree) if (degree === 0) queue.push(nodeId)] *)
Definition initial_queue (ns : list WorkflowNode) (inDegree : gmap string Z)
  : list string :=
  filter (λ id, inDegree !! id = Some 0) (map node_id ns).

(** The inner loop of Kahn's algorithm, over the neighbours of [current]. *)
Definition relax (neighbors : list string) (state : gmap string Z * list string)
  : gmap string Z * list string :=
  fold_left (λ '(inDegree, queue) neighbor,
    let newDegree := default 0 (inDegree !! neighbor) - 1 in
    (<[neighbor := newDegree]> inDegree,
     if bool_decide (newDegree = 0) then queue ++ [neighbor] else queue))
    neighbors state.

(** [while (queue.length > 0) { const current = queue.shift()!; processedCount++; ... }] *)
Fixpoint kahn (bound : nat) (adjacency : gmap string (list string))
    (inDegree : gmap string Z) (queue : list string) (processedCount : nat)
  : option nat :=
  match bound with
  | O => None
  | S bound' =>
      match queue with
      | [] => Some processedCount
      | current :: rest =>
          let '(inDegree', queue') :=
            relax (default [] (adjacency !! current)) (inDegree, rest) in
          kahn bound' adjacency inDegree' queue' (S processedCount)
      end
  end.

(** The inner loop of the reachability search. *)
Definition visit (neighbors : list string) (state : gset string * list string)
  : gset string * list string :=
  fold_left (λ '(reachable, bfsQueue) neighbor,
    if bool_decide (neighbor ∈ reachable) then (reachable, bfsQueue)
    else ({[neighbor]} ∪ reachable, bfsQueue ++ [neighbor]))
    neighbors state.

Fixpoint bfs (bound : nat) (adjacency : gmap string (list string))
    (reachable : gset string) (bfsQueue : list string) : option (gset string) :=
  match bound with
  | O => None
  | S bound' =>
      match bfsQueue with
      | [] => Some reachable
      | current :: rest =>
          let '(reachable', bfsQueue') :=
            visit (default [] (adjacency !! current)) (reachable, rest) in
          bfs bound' adjacency reachable' bfsQueue'
      end
  end.

(** The fork and join checks on one node. *)
Definition fork_join_errors (es : list WorkflowEdge) (node : WorkflowNode)
  : list string :=
  (if bool_decide (node_type node = NFork) then
     let outgoing := filter (λ e, edge_source e = node_id node) es in
     if bool_decide (length outgoing < 2)%nat then
       ["Fork node " +:+ node_id node
          +:+ " must have at least 2 outgoing edges, found "
          +:+ pretty (length outgoing)]
     else []
   else [])
  ++
  (if bool_decide (node_type node = NJoin) then
     let incoming := filter (λ e, edge_target e = node_id node) es in
     if bool_decide (length incoming < 2)%nat then
       ["Join node " +:+ node_id node
          +:+ " must have at least 2 incoming edges, found "
          +:+ pretty (length incoming)]
     else []
   else []).

Definition validateDAG (definition : WorkflowDefinition) : option ValidationResult :=
  let ns := nodes definition in
  let es := edges definition in
  if bool_decide (ns = []) then
    Some (mkValidation false ["Workflow must have at least one node"])
  else
    let errors0 := structural_errors definition in
    (* If structural errors exist, return early before cycle detection *)
    if bool_decide (errors0 ≠ []) then Some (mkValidation false errors0)
    else
      let adjacency := build_adjacency es (init_adjacency ns) in
      let inDegree := build_inDegree es (init_inDegree ns) in
      let queue := initial_queue ns inDegree in
      processedCount ← kahn (S (length ns)) adjacency inDegree queue 0;
      let errors1 :=
        if bool_decide (processedCount ≠ length ns)
        then ["Workflow contains a cycle"] else [] in
      let startNodes := filter (λ n, node_type n = NStart) ns in
      errors2 ←
        match startNodes with
        | [startNode] =>
            if bool_decide (errors1 = []) then
              reachable ← bfs (S (length ns)) adjacency {[node_id startNode]}
                            [node_id startNode];
              Some (map (λ n, "Node " +:+ node_id n
                                +:+ " is not reachable from the start node")
                      (filter (λ n, node_id n ∉ reachable) ns))
            else Some []
        | _ => Some []
        end;
      let errors3 := concat (map (fork_join_errors es) ns) in
      let errors := errors1 ++ errors2 ++ errors3 in
      Some (mkValidation (bool_decide (errors = [])) errors).

End Validations.

(** ** JavaScript arrays used as bounded buffers *)

Module JsArray.

(** [xs.push(x); if (xs.length > limit) xs.shift()] *)
Definition push_bounded {A} (limit : nat) (x : A) (xs : list A) : list A :=
  let xs' := xs ++ [x] in
  if bool_decide (limit < length xs')%nat then tail xs' else xs'.

(** [xs.slice(start)] for an integer [start]: a negative [start] counts
    from the end. *)
Definition slice_from {A} (start : Z) (xs : list A) : list A :=
  let len := Z.of_nat (length xs) in
  let from := if bool_decide (start < 0) then Z.max (len + start) 0
              else Z.min start len in
  drop (Z.to_nat from) xs.

End JsArray.

(** ** lib/observability/metrics.ts, [class MetricsCollector]
    (src/lib/observability/metrics.ts, lines 1 to 189)

    Durations are whole numbers of milliseconds.  [stepMetrics] is a [Map]
    that the recording methods read and write by key.  [getMetrics], which
    averages in floating point, is not modelled. *)

Module Metrics.

Record StepData := mkStepData {
  count : Z;
  successCount : Z;
  failureCount : Z;
  durations : list Z
}.

Record MetricsCollector := mkCollector {
  startTime : Z;
  executionDurations : list Z;
  executionCompletedCount : Z;
  executionFailedCount : Z;
  executionTotalCount : Z;
  stepMetrics : gmap string StepData;
  queueJobsProcessed : Z;
  queueRetries : Z;
  queueDLQEntries : Z
}.

(** [new MetricsCollector()] at time [now] *)
Definition init (now : Z) : MetricsCollector :=
  mkCollector now [] 0 0 0 ∅ 0 0 0.

Definition recordExecutionStarted (c : MetricsCollector) : MetricsCollector :=
  mkCollector (startTime c) (executionDurations c) (executionCompletedCount c)
    (executionFailedCount c) (executionTotalCount c + 1) (stepMetrics c)
    (queueJobsProcessed c) (queueRetries c) (queueDLQEntries c).

Definition recordExecutionCompleted (durationMs : Z) (c : MetricsCollector)
  : MetricsCollector :=
  mkCollector (startTime c)
    (JsArray.push_bounded 1000 durationMs (executionDurations c))
    (executionCompletedCount c + 1)
    (executionFailedCount c) (executionTotalCount c) (stepMetrics c)
    (queueJobsProcessed c) (queueRetries c) (queueDLQEntries c).

Definition recordExecutionFailed (durationMs : Z) (c : MetricsCollector)
  : MetricsCollector :=
  mkCollector (startTime c)
    (JsArray.push_bounded 1000 durationMs (executionDurations c))
    (executionCompletedCount c)
    (executionFailedCount c + 1) (executionTotalCount c) (stepMetrics c)
    (queueJobsProcessed c) (queueRetries c) (queueDLQEntries c).

(** [getOrCreateStepMetric(nodeType)]: the entry, created empty when the
    key is new. *)
Definition getOrCreateStepMetric (nodeType : string) (m : gmap string StepData)
  : StepData :=
  default (mkStepData 0 0 0 []) (m !! nodeType).

Definition set_stepMetrics (m : gmap string StepData) (c : MetricsCollector)
  : MetricsCollector :=
  mkCollector (startTime c) (executionDurations c) (executionCompletedCount c)
    (executionFailedCount c) (executionTotalCount c) m
    (queueJobsProcessed c) (queueRetries c) (queueDLQEntries c).

Definition recordStepCompleted (nodeType : string) (durationMs : Z)
    (c : MetricsCollector) : MetricsCollector :=
  let metric := getOrCreateStepMetric nodeType (stepMetrics c) in
  set_stepMetrics
    (<[nodeType :=
         mkStepData (count metric + 1) (successCount metric + 1)
           (failureCount metric)
           (JsArray.push_bounded 500 durationMs (durations metric))]>
       (stepMetrics c)) c.

Definition recordStepFailed (nodeType : string) (durationMs : Z)
    (c : MetricsCollector) : MetricsCollector :=
  let metric := getOrCreateStepMetric nodeType (stepMetrics c) in
  set_stepMetrics
    (<[nodeType :=
         mkStepData (count metric + 1) (successCount metric)
           (failureCount metric + 1)
           (JsArray.push_bounded 500 durationMs (durations metric))]>
       (stepMetrics c)) c.

Definition recordJobProcessed (c : MetricsCollector) : MetricsCollector :=
  mkCollector (startTime c) (executionDurations c) (executionCompletedCount c)
    (executionFailedCount c) (executionTotalCount c) (stepMetrics c)
    (queueJobsProcessed c + 1) (queueRetries c) (queueDLQEntries c).

Definition recordRetry (c : MetricsCollector) : MetricsCollector :=
  mkCollector (startTime c) (executionDurations c) (executionCompletedCount c)
    (executionFailedCount c) (executionTotalCount c) (stepMetrics c)
    (queueJobsProcessed c) (queueRetries c + 1) (queueDLQEntries c).

Definition recordDLQEntry (c : MetricsCollector) : MetricsCollector :=
  mkCollector (startTime c) (executionDurations c) (executionCompletedCount c)
    (executionFailedCount c) (executionTotalCount c) (stepMetrics c)
    (queueJobsProcessed c) (queueRetries c) (queueDLQEntries c + 1).

Definition reset (c : MetricsCollector) : MetricsCollector :=
  mkCollector (startTime c) [] 0 0 0 ∅ 0 0 0.

End Metrics.

(** ** lib/observability/logger.ts (src/unnamed/part_012, lines 1 to 135)

    An entry keeps the time value that its [timestamp] prints.  The lines
    written to the console are not modelled. *)

Module Logger.

Inductive LogLevel := LDebug | LInfo | LWarn | LError.

Global Instance LogLevel_eq_dec : EqDecision LogLevel.
Proof. solve_decision. Defined.

Definition LOG_LEVEL_PRIORITY (l : LogLevel) : Z :=
  match l with LDebug => 0 | LInfo => 1 | LWarn => 2 | LError => 3 end.

Definition MAX_BUFFER_SIZE : nat := 500.

Record LogEntry := mkLogEntry {
  level : LogLevel;
  message : string;
  timestamp : Z;
  context : option Js.value
}.

Record StructuredLogger := mkLogger {
  buffer : list LogEntry;
  minLevel : LogLevel
}.

(** [new StructuredLogger()] *)
Definition init : StructuredLogger := mkLogger [] LInfo.

Definition setLevel (l : LogLevel) (s : StructuredLogger) : StructuredLogger :=
  mkLogger (buffer s) l.

(** [log(level, message, context)] at time [now] *)
Definition log (now : Z) (l : LogLevel) (msg : string) (ctx : option Js.value)
    (s : StructuredLogger) : StructuredLogger :=
  if bool_decide (LOG_LEVEL_PRIORITY l < LOG_LEVEL_PRIORITY (minLevel s)) then s
  else
    mkLogger
      (JsArray.push_bounded MAX_BUFFER_SIZE (mkLogEntry l msg now ctx) (buffer s))
      (minLevel s).

Definition debug now := log now LDebug.
Definition info now := log now LInfo.
Definition warn now := log now LWarn.
Definition error now := log now LError.

(** [getRecentLogs({level, limit})]; [limit] is an integer. *)
Definition getRecentLogs (lv : option LogLevel) (limit : option Z)
    (s : StructuredLogger) : list LogEntry :=
  let entries :=
    match lv with
    | Some l =>
        filter (λ e, LOG_LEVEL_PRIORITY (level e) >= LOG_LEVEL_PRIORITY l) (buffer s)
    | None => buffer s
    end in
  JsArray.slice_from (- default 100 limit) entries.

Record LogStats := mkLogStats {
  totalEntries : nat;
  maxBufferSize : nat;
  counts : LogLevel → nat
}.

Definition getStats (s : StructuredLogger) : LogStats :=
  mkLogStats (length (buffer s)) MAX_BUFFER_SIZE
    (λ l, length (filter (λ e, level e = l) (buffer s))).

Definition clear (s : StructuredLogger) : StructuredLogger :=
  mkLogger [] (minLevel s).

End Logger.

(** ** JavaScript [Map]s that are iterated

    A [Map] whose entries are listed is kept as the list of its entries in
    insertion order: [set] on a key that is present replaces the value in
    place, on a new key it appends; [delete] removes the entry. *)

Module JsMap.

Fixpoint get {V} (k : string) (m : list (string * V)) : option V :=
  match m with
  | [] => None
  | (k', v) :: m' => if bool_decide (k' = k) then Some v else get k m'
  end.

Fixpoint set {V} (k : string) (v : V) (m : list (string * V)) : list (string * V) :=
  match m with
  | [] => [(k, v)]
  | (k', v') :: m' =>
      if bool_decide (k' = k) then (k, v) :: m' else (k', v') :: set k v m'
  end.

Definition delete {V} (k : string) (m : list (string * V)) : list (string * V) :=
  filter (λ kv, kv.1 ≠ k) m.

Definition values {V} (m : list (string * V)) : list V := map snd m.

End JsMap.

(** ** lib/workers/worker-heartbeat.ts (src/unnamed/part_010) *)

Module Heartbeat.

Record HeartbeatEntry := mkHeartbeat {
  jobId : string;
  executionId : string;
  nodeLabel : string;
  startedAt : Z;
  lastHeartbeat : Z
}.

Record HeartbeatStatus := mkStatus {
  st_activeJobs : nat;
  st_stalledJobs : nat;
  st_entries : list HeartbeatEntry
}.

Definition STALL_THRESHOLD_MS : Z := 30000.

Record WorkerHeartbeat := mkMonitor {
  activeJobs : list (string * HeartbeatEntry);
  stallThresholdMs : Z
}.

(** [new WorkerHeartbeat()] *)
Definition init : WorkerHeartbeat := mkMonitor [] STALL_THRESHOLD_MS.

Definition registerJob (now : Z) (job execution label : string)
    (h : WorkerHeartbeat) : WorkerHeartbeat :=
  mkMonitor
    (JsMap.set job (mkHeartbeat job execution label now now) (activeJobs h))
    (stallThresholdMs h).

Definition heartbeat (now : Z) (job : string) (h : WorkerHeartbeat)
  : WorkerHeartbeat :=
  match JsMap.get job (activeJobs h) with
  | Some entry =>
      mkMonitor
        (JsMap.set job
           (mkHeartbeat (jobId entry) (executionId entry) (nodeLabel entry)
              (startedAt entry) now)
           (activeJobs h))
        (stallThresholdMs h)
  | None => h
  end.

Definition deregisterJob (job : string) (h : WorkerHeartbeat) : WorkerHeartbeat :=
  mkMonitor (JsMap.delete job (activeJobs h)) (stallThresholdMs h).

Definition getStalledJobs (now : Z) (h : WorkerHeartbeat) : list HeartbeatEntry :=
  filter (λ entry, now - lastHeartbeat entry > stallThresholdMs h)
    (JsMap.values (activeJobs h)).

Definition getStatus (now : Z) (h : WorkerHeartbeat) : HeartbeatStatus :=
  let entries := JsMap.values (activeJobs h) in
  mkStatus (length entries)
    (length (filter (λ e, now - lastHeartbeat e > stallThresholdMs h) entries))
    entries.

End Heartbeat.

(** ** src/lib/scheduler/scheduler.ts

    One tick is taken as one step: its clock readings are one instant
    [now], and the rows it reads are the rows it updates.  Of a trigger's
    [config] the tick reads [expression] and [input]; an [expression] that
    is not a string never fires ([shouldRun] catches what it throws) and is
    kept as [None], like an absent one.  The foreign key from a trigger to
    its workflow makes the joined workflow exist.  The executions that the
    tick starts are not awaited; the tick returns them as the list of the
    calls it has made, and an execution that fails later is counted in
    [errors] when it does, outside the tick. *)

Module Scheduler.
Import CronParser.

Inductive TriggerType := TManual | TWebhook | TCron.

Global Instance TriggerType_eq_dec : EqDecision TriggerType.
Proof. solve_decision. Defined.

Record TriggerRow := mkTrigger {
  tr_id : string;
  tr_workflowId : string;
  tr_type : TriggerType;
  tr_expression : option string;
  tr_input : option Js.value;
  tr_enabled : bool;
  tr_lastFiredAt : option Z;
  tr_nextRunAt : option Z
}.

Record SchedulerStatus := mkScheduler {
  isRunning : bool;
  tickIntervalMs : Z;
  lastTickAt : option Z;
  tickCount : Z;
  triggersChecked : Z;
  triggersFired : Z;
  errors : Z;
  isProcessing : bool
}.

(** [new Scheduler()] *)
Definition init : SchedulerStatus :=
  mkScheduler false 60000 None 0 0 0 0 false.

(** A call [executeWorkflow(workflowId, input)] made for a trigger. *)
Record Launch := mkLaunch {
  launch_trigger : string;
  launch_workflowId : string;
  launch_input : option Js.value
}.

Section Clock.
Variable tz : Z.

Definition getFullYear (t : Z) : Z := (civil_from_days (local_days tz t)).1.1.

(** The test that prevents firing twice within a minute. *)
Definition same_minute (lastFired now : Z) : bool :=
  bool_decide (getFullYear lastFired = getFullYear now)
  && bool_decide (getMonth tz lastFired = getMonth tz now)
  && bool_decide (getDate tz lastFired = getDate tz now)
  && bool_decide (getHours tz lastFired = getHours tz now)
  && bool_decide (getMinutes tz lastFired = getMinutes tz now).

(** [prisma.trigger.findMany({where: {type: "cron", enabled: true},
     include: {workflow}})] *)
Definition cronTriggers (workflows : list WorkflowRow) (triggers : list TriggerRow)
  : list (TriggerRow * WorkflowRow) :=
  omap (λ t,
    if bool_decide (tr_type t = TCron) && tr_enabled t then
      (λ wf, (t, wf)) <$>
        List.find (λ wf, bool_decide (wf_id wf = tr_workflowId t)) workflows
    else None) triggers.

(** The expression of a trigger that passes the tests of the loop body
    at [now]; [None] when one of them says [continue]. *)
Definition fires (now : Z) (trigger : TriggerRow) (workflow : WorkflowRow)
  : option string :=
  if negb (bool_decide (wf_status workflow = WfActive)) then None
  else
    match tr_expression trigger with
    | None => None
    | Some expression =>
        if bool_decide (expression = "") then None
        else if negb (shouldRun tz expression now) then None
        else
          match tr_lastFiredAt trigger with
          | Some lastFired =>
              if same_minute lastFired now then None else Some expression
          | None => Some expression
          end
    end.

(** [prisma.trigger.update({where: {id}, data: {lastFiredAt, nextRunAt?}})] *)
Definition set_fired (now : Z) (nextRun : option Z) (t : TriggerRow) : TriggerRow :=
  mkTrigger (tr_id t) (tr_workflowId t) (tr_type t) (tr_expression t)
    (tr_input t) (tr_enabled t) (Some now)
    (match nextRun with Some d => Some d | None => tr_nextRunAt t end).

(** The loop over the triggers read: the table, the calls made and the
    number of triggers fired so far. *)
Fixpoint fire_all (now : Z) (read : list (TriggerRow * WorkflowRow))
    (state : list TriggerRow * list Launch * Z)
  : list TriggerRow * list Launch * Z :=
  match read with
  | [] => state
  | (trigger, workflow) :: rest =>
      let '(triggers, launches, fired) := state in
      match fires now trigger workflow with
      | None => fire_all now rest state
      | Some expression =>
          let nextRun := getNextRunTime tz expression now in
          fire_all now rest
            (update_where (λ t, bool_decide (tr_id t = tr_id trigger))
               (set_fired now nextRun) triggers,
             launches ++ [mkLaunch (tr_id trigger) (wf_id workflow) (tr_input trigger)],
             fired + 1)
      end
  end.

(** [tick()] *)
Definition tick (now : Z) (workflows : list WorkflowRow)
    (triggers : list TriggerRow) (s : SchedulerStatus)
  : SchedulerStatus * list TriggerRow * list Launch :=
  if isProcessing s then (s, triggers, [])
  else
    let read := cronTriggers workflows triggers in
    let '(triggers', launches, fired) := fire_all now read (triggers, [], 0) in
    (mkScheduler (isRunning s) (tickIntervalMs s) (Some now) (tickCount s + 1)
       (triggersChecked s + Z.of_nat (length read))
       (triggersFired s + fired) (errors s) false,
     triggers', launches).

End Clock.

End Scheduler.

(** ** src/lib/workers/handlers/delay-handler.ts

    [config] is the object [job.node.config || {}].  The runtime gives
    three primitives: [StringToNumber] and [NumberToString] as in the
    condition handler, and [DateToTime], the time value of [new Date(v)]
    ([NaN] for an invalid date).  [execute] waits on a timer; the model
    returns the delay it asks the timer for together with the result,
    whose [durationMs] is the time [elapsed] when it returns. *)

Module DelayHandler.
Import Js.

Definition MAX_DELAY_MS : spec_float := ConditionHandler.number_of_Z 300000.

(** [Math.min(x, y)]: [NaN] if either is, and [-0] below [+0]. *)
Definition Math_min (x y : spec_float) : spec_float :=
  match SFcompare x y with
  | None => S754_nan
  | Some Lt => x
  | Some Gt => y
  | Some Eq => match x with S754_zero true => x | _ => y end
  end.

Section Runtime.
Variable StringToNumber : string → spec_float.
Variable NumberToString : spec_float → string.
Variable DateToTime : value → spec_float.

(** [x || d] *)
Definition or_else (x d : value) : value := if truthy x then x else d.

Definition zero : spec_float := S754_zero false.

(** The [actualMs] that [execute] computes, or the [scheduledTime] that it
    could not read as a date. *)
Definition actualMs (now : Z) (config : list (string * value))
  : spec_float + value :=
  let scheduledTime := default VUndefined (obj_get "scheduledTime" config) in
  if truthy scheduledTime then
    let targetTime := DateToTime scheduledTime in
    if ConditionHandler.is_NaN targetTime then inr scheduledTime
    else
      let diff := SFsub 53 1024 targetTime (ConditionHandler.number_of_Z now) in
      inl (if SFltb zero diff then Math_min diff MAX_DELAY_MS else zero)
  else
    let requestedMs :=
      or_else (default VUndefined (obj_get "delayMs" config))
        (VNumber (ConditionHandler.number_of_Z 1000)) in
    inl (Math_min
           (ConditionHandler.ToNumber StringToNumber NumberToString requestedMs)
           MAX_DELAY_MS).

(** [if (actualMs > 0) await new Promise(r => setTimeout(r, actualMs))]:
    the delay of the timer, when one is set. *)
Definition timer (now : Z) (config : list (string * value)) : option spec_float :=
  match actualMs now config with
  | inl ms => if SFltb zero ms then Some ms else None
  | inr _ => None
  end.

Definition quoted (s : string) : string :=
  String ConditionHandler.double_quote (s +:+ String ConditionHandler.double_quote "").

Definition execute (now elapsed : Z) (config : list (string * value))
    (job : WorkerJob) : WorkerResult :=
  let scheduledTime := default VUndefined (obj_get "scheduledTime" config) in
  match actualMs now config with
  | inr invalid =>
      {| res_jobId := job_id job;
         res_stepId := job_stepId job;
         res_executionId := job_executionId job;
         res_status := RFailed;
         res_result := None;
         res_error :=
           Some ("Invalid scheduledTime: "
                   +:+ quoted (ConditionHandler.ToString NumberToString invalid));
         res_durationMs := 0;
         res_retryable := Some false |}
  | inl ms =>
      {| res_jobId := job_id job;
         res_stepId := job_stepId job;
         res_executionId := job_executionId job;
         res_status := RCompleted;
         res_result :=
           Some
             ([("message",
                VString
                  (if truthy scheduledTime then
                     "Waited until "
                       +:+ ConditionHandler.ToString NumberToString scheduledTime
                       +:+ " (" +:+ NumberToString ms +:+ "ms)"
                   else "Delayed " +:+ NumberToString ms +:+ "ms"));
               ("actualMs", VNumber ms)]
              ++ (if truthy scheduledTime then [("scheduledTime", scheduledTime)]
                  else [("requestedMs",
                         or_else (default VUndefined (obj_get "delayMs" config))
                           (VNumber (ConditionHandler.number_of_Z 1000)))]));
         res_error := None;
         res_durationMs := elapsed;
         res_retryable := None |}
  end.

End Runtime.

End DelayHandler.

(* ===================================================================== *)
(** * Part II: the vocabulary of the properties                           *)
(* ===================================================================== *)

(** ** Predicates on computations in [M] *)

(** [preserves f m]: running [m] leaves the component [f] of the world as
    it was, whether [m] returns or throws. *)
Definition preserves {A X} (f : World → X) (m : M A) : Prop :=
  ∀ w, f (m w).2 = f w.

(** [keeps P m]: [P] survives [m], whether [m] returns or throws. *)
Definition keeps {A} (P : World → Prop) (m : M A) : Prop :=
  ∀ w, P w → P (m w).2.

(** An execution row with its status blanked. *)
Definition erase_status (e : ExecutionRow) : ExecutionRow :=
  mkExecutionRow (ex_id e) (ex_workflowId e) ExRunning (ex_input e)
    (ex_output e) (ex_userId e) (ex_startedAt e) (ex_completedAt e).

(** Two worlds are the same but for the status column of the executions
    table. *)
Definition same_but_status (w1 w2 : World) : Prop :=
  set_executions (map erase_status) w1 = set_executions (map erase_status) w2.

(** [respects m]: the outcome of [m], and everything it writes, do not
    depend on the status of any execution. *)
Definition respects {A} (m : M A) : Prop :=
  ∀ w1 w2, same_but_status w1 w2 →
    (m w1).1 = (m w2).1 ∧ same_but_status (m w1).2 (m w2).2.

(** [recorded sid st w]: the steps table holds a row with id [sid] in
    status [st]. *)
Definition recorded (sid : string) (st : StepStatus) (w : World) : Prop :=
  ∃ s, s ∈ steps w ∧ st_id s = sid ∧ st_status s = st.

(** ** The idempotency store *)

(** The key has no live entry at time [now]: it was never stored, or its
    entry has expired. *)
Definition unseen (now : Z) (k : string)
    (st : gmap string Idempotency.IdempotencyEntry) : Prop :=
  ∀ e, st !! k = Some e → Idempotency.expiresAt e <= now.

(** ** Fixtures: a workflow, its jobs, and worlds that hold them *)

(** A job for a node without retry configuration ([maxRetries = 0]). *)
Definition job0 : WorkerJob :=
  {| job_id := "step-1"; job_executionId := "exec-1"; job_stepId := "step-1";
     job_node := mkNode "A" NAction "A" no_config;
     job_input := None; job_previousResults := [];
     job_attempt := 1; job_maxRetries := 0; job_createdAt := 0 |}.

(** A workflow [start → A → end] whose action node [A] is configured with
    [retry: {maxRetries: 1, backoffMs: 10}], and an action handler that
    always fails. *)
Definition node_A : WorkflowNode :=
  mkNode "A" NAction "A"
    (mkNodeConfig (Some (mkRetry (Some 1) (Some 10) None)) None).

Definition linear_definition : WorkflowDefinition :=
  mkDefinition
    [mkNode "start" NStart "Start" no_config; node_A;
     mkNode "end" NEnd "End" no_config]
    [mkEdge "e1" "start" "A" None; mkEdge "e2" "A" "end" None].

Definition completing_handler : ActionHandler := λ job,
  Returns (mkResult (job_id job) (job_stepId job) (job_executionId job)
             RCompleted (Some [("message", Js.VString "ok")]) None 0 None).

Definition failing_handler : ActionHandler := λ job,
  Returns (mkResult (job_id job) (job_stepId job) (job_executionId job)
             RFailed None (Some "boom") 0 None).

Definition failing_registry : HandlerRegistry := λ t,
  match t with
  | NAction => Some failing_handler
  | _ => Some completing_handler
  end.

Definition world_with (status : WorkflowStatus) : World :=
  mkWorld [mkWorkflowRow "wf-1" "demo" linear_definition status]
    [] [] [] [] 0%N 0 0 0 [] ∅ Backpressure.init [] [] [] 0.

(** The job for [A] on its first attempt, and a world holding its step. *)
Definition job_A : WorkerJob :=
  {| job_id := "step-A"; job_executionId := "exec-1"; job_stepId := "step-A";
     job_node := node_A; job_input := None; job_previousResults := [];
     job_attempt := 1; job_maxRetries := getMaxRetries node_A;
     job_createdAt := 0 |}.

Definition world_A : World :=
  set_steps (λ _, [mkStepRow "step-A" "exec-1" "A" "A" NAction StPending 1
                     None None (Some 0) None])
    (set_executions (λ _, [mkExecutionRow "exec-1" "wf-1" ExRunning None None
                             None (Some 0) None])
       (world_with WfActive)).

(** The whole scenario, run: the orchestrator starts the execution, one
    worker turn completes [start], the next one runs [A], which fails. *)
Definition retry_exhaustion_run : World :=
  let w1 := (executeWorkflow 1000 "wf-1" None None (world_with WfActive)).2 in
  let w2 := (worker_turn failing_registry 2000 "worker-1" w1).2 in
  (worker_turn failing_registry 3000 "worker-1" w2).2.

(** An execution that was cancelled while the handler of its step [A] was
    running: the cancel request has set the execution [cancelled] and the
    step [skipped]. *)
Definition cancelled_world : World :=
  set_steps (λ _, [mkStepRow "step-A" "exec-1" "A" "A" NAction StSkipped 1
                     None None (Some 0) (Some 1)])
    (set_executions (λ _, [mkExecutionRow "exec-1" "wf-1" ExCancelled None None
                             None (Some 0) (Some 1)])
       (world_with WfActive)).

(** The result that the handler delivers afterwards. *)
Definition late_result (status : ResultStatus) : WorkerResult :=
  mkResult "step-A" "step-A" "exec-1" status
    (match status with RCompleted => Some [("message", Js.VString "ok")] | RFailed => None end)
    (match status with RCompleted => None | RFailed => Some "boom" end) 0 None.

(** A runtime for the examples.  Every object inherits [toString] and
    [constructor], built-in functions that the model knows as 0 and 1;
    nothing else is inherited.  A built-in function has a [name], and its
    [caller] cannot be read; it prints as itself and is no number. *)
Definition sample_runtime : ConditionHandler.Runtime :=
  ConditionHandler.mkRuntime
    (λ v key,
       match v with
       | Js.VObject _ =>
           if bool_decide (key = "toString") then ConditionHandler.Builtin 0
           else if bool_decide (key = "constructor") then ConditionHandler.Builtin 1
           else ConditionHandler.Json Js.VUndefined
       | _ => ConditionHandler.Json Js.VUndefined
       end)
    (λ b key,
       if bool_decide (key = "caller") then Throw "restricted"
       else if bool_decide (key = "name")
       then Ok (ConditionHandler.Json
                  (Js.VString (if bool_decide (b = 0%N) then "toString" else "Object")))
       else Ok (ConditionHandler.Json Js.VUndefined))
    (λ b, Ok "function () { [native code] }")
    (λ b, Ok ConditionHandler.NaN)
    (λ v, "expression.trim is not a function")
    (λ v, "Cannot convert object to primitive value").

(** What a reference with the path [path] resolves to: the first segment
    is read from the previous results, the rest is walked. *)
Definition resolve_path (runtime : ConditionHandler.Runtime) (path : list string)
    (previousResults : list (string * Js.value))
  : Outcome ConditionHandler.Resolved :=
  match path with
  | nodeId :: rest =>
      match ConditionHandler.get_prop runtime
              (ConditionHandler.Json (Js.VObject previousResults)) nodeId with
      | Ok value => ConditionHandler.walk runtime value rest
      | Throw e => Throw e
      end
  | [] => Ok (ConditionHandler.Json Js.VUndefined)
  end.

(** An instance of [StringToNumber]: the integer reading of
    [JsString.Number]. *)
Definition integer_StringToNumber (s : string) : spec_float :=
  match JsString.Number s with
  | Some z => ConditionHandler.number_of_Z z
  | None => ConditionHandler.NaN
  end.

(** ** Graphs *)

(** There is an edge from [u] to [v]. *)
Definition edge_rel (D : WorkflowDefinition) (u v : string) : Prop :=
  ∃ e, e ∈ edges D ∧ edge_source e = u ∧ edge_target e = v.

(** [u] stands before [v] in the list [l]. *)
Definition before (l : list string) (u v : string) : Prop :=
  ∃ i j : nat, l !! i = Some u ∧ l !! j = Some v ∧ (i < j)%nat.

(** [order] lists every node id once, each edge's source before its
    target. *)
Definition topological_ordering (D : WorkflowDefinition) (order : list string)
  : Prop :=
  order ≡ₚ map node_id (nodes D) ∧ NoDup order ∧
  ∀ e, e ∈ edges D → before order (edge_source e) (edge_target e).

(** No node reaches itself along one or more edges. *)
Definition acyclic (D : WorkflowDefinition) : Prop :=
  ∀ u, ¬ tc (edge_rel D) u u.

(** The targets of the edges that leave [k], in edge order. *)
Definition targets_from (es : list WorkflowEdge) (k : string) : list string :=
  map edge_target (filter (λ e, edge_source e = k) es).

(** The number of edges into [v]. *)
Definition count_into (es : list WorkflowEdge) (v : string) : Z :=
  Z.of_nat (length (filter (λ e, edge_target e = v) es)).

(** [inDegree.get(k)], read as 0 when absent. *)
Definition dg (m : gmap string Z) (k : string) : Z := default 0 (m !! k).

(** The number of times [k] occurs in [l]. *)
Definition occurrences (k : string) (l : list string) : Z :=
  Z.of_nat (length (filter (λ x, x = k) l)).

(** The number of edges into [v] whose source is in [done]. *)
Definition into (es : list WorkflowEdge) (done : list string) (v : string) : Z :=
  Z.of_nat (length (filter (λ e, edge_target e = v ∧ edge_source e ∈ done) es)).

(** The invariant of the loop, for the nodes [done] that were shifted
    off the queue, in order, the [queue], and the in-degree map [m]:
    the nodes seen are distinct nodes of the definition; the map holds for
    each node the number of edges into it that do not come from [done];
    no node seen has a degree left; and an edge into a node seen has its
    source earlier in [done ++ queue]. *)
Definition kahn_inv (D : WorkflowDefinition) (done queue : list string)
    (m : gmap string Z) : Prop :=
  NoDup (done ++ queue) ∧
  (∀ x, x ∈ done ++ queue → x ∈ map node_id (nodes D)) ∧
  (∀ v, v ∈ map node_id (nodes D) →
        dg m v = count_into (edges D) v - into (edges D) done v) ∧
  (∀ v, v ∈ done ++ queue → dg m v <= 0) ∧
  (∀ e, e ∈ edges D → edge_target e ∈ done ++ queue →
        before (done ++ queue) (edge_source e) (edge_target e)).

(** Everything in the set, and in the queue, is reachable from [s]. *)
Definition bfs_inv (D : WorkflowDefinition) (s : string)
    (reachable : gset string) (bfsQueue : list string) : Prop :=
  (∀ x, x ∈ reachable → rtc (edge_rel D) s x) ∧
  (∀ x, x ∈ bfsQueue → rtc (edge_rel D) s x).

(** ** Rows, ids and results *)

(** The executions table holds a row with this id. *)
Definition execution_exists (executionId : string) (w : World) : Prop :=
  ∃ e, e ∈ executions w ∧ ex_id e = executionId.

(** The steps table holds a row with this id. *)
Definition step_exists (stepId : string) (w : World) : Prop :=
  ∃ s, s ∈ steps w ∧ st_id s = stepId.

(** No row of the steps table has an id that the database has yet to
    generate. *)
Definition step_ids_fresh (w : World) : Prop :=
  ∀ s n, s ∈ steps w → (nextId w <= n)%N → st_id s ≠ "id-" +:+ pretty n.

(** The job that [publishJob] builds for the step [sid]. *)
Definition published_job (now : Z) (sid executionId : string) (node : WorkflowNode)
    (input : option Js.value) (previousResults : list (string * Js.value))
    (attempt : Z) : WorkerJob :=
  {| job_id := sid; job_executionId := executionId; job_stepId := sid;
     job_node := node; job_input := input;
     job_previousResults := previousResults; job_attempt := attempt;
     job_maxRetries := getMaxRetries node; job_createdAt := now |}.

(** The result that [processJob] obtains from a registered handler: the
    handler's own, or the failure made up when the handler rejects. *)
Definition outcome_of (handler : ActionHandler) (job : WorkerJob) : WorkerResult :=
  match handler job with
  | Returns result => result
  | Rejects message => synthetic_failure job message true
  end.

(** [appends P m]: whatever [m] does to the steps table, it only appends
    rows, and each row it appends satisfies [P]. *)
Definition appends {A} (P : StepRow → Prop) (m : M A) : Prop :=
  ∀ w, ∃ new, steps (m w).2 = steps w ++ new ∧ Forall P new.

(** ** More fixtures *)

(** A store with an entry that has expired by time 1000 and one that is
    live. *)
Definition stale_and_live_store : Idempotency.Store :=
  {[ "e1:n1" := Idempotency.mkEntry "old" 500;
     "e1:n2" := Idempotency.mkEntry "live" 9000 ]}.

(** A queue table with a finished row followed by two pending ones. *)
Definition queue_row (id : string) (status : JobStatus) : JobRow :=
  mkJobRow id "exec-1" "A" "A" NAction job0 status 0 3 None None None None.

Definition queue_world : World :=
  set_jobRows (λ _, [queue_row "j1" JqDone; queue_row "j2" JqPending;
                     queue_row "j3" JqPending]) empty_world.

(** [world_A] with a queue that has reached the maximum depth. *)
Definition full_world : World :=
  set_counters (λ _, (1000, 0, 0)) world_A.

(** The job for a node that allows three retries, on its second attempt. *)
Definition node_B : WorkflowNode :=
  mkNode "A" NAction "A"
    (mkNodeConfig (Some (mkRetry (Some 3) (Some 10) None)) None).

Definition job_B : WorkerJob :=
  {| job_id := "step-A"; job_executionId := "exec-1"; job_stepId := "step-A";
     job_node := node_B; job_input := None; job_previousResults := [];
     job_attempt := 2; job_maxRetries := getMaxRetries node_B;
     job_createdAt := 0 |}.

(** The job for the step of [world_A] when its node has no retry
    configuration: [maxRetries] is 0. *)
Definition job_C : WorkerJob :=
  {| job_id := "step-A"; job_executionId := "exec-1"; job_stepId := "step-A";
     job_node := mkNode "A" NAction "A" no_config;
     job_input := None; job_previousResults := [];
     job_attempt := 1; job_maxRetries := 0; job_createdAt := 0 |}.

(** [world_A] as a worker sees it when it has dequeued [job_B]: the row
    of the job is in the queue table, locked. *)
Definition processing_world : World :=
  set_jobRows (λ _, [job_set_processing 4 "worker-1" (enqueue_row job_B)]) world_A.

(** A stored definition in which every node has an incoming edge. *)
Definition cyclic_definition : WorkflowDefinition :=
  mkDefinition
    [mkNode "a" NAction "A" no_config; mkNode "b" NAction "B" no_config]
    [mkEdge "e1" "a" "b" None; mkEdge "e2" "b" "a" None].

Definition cyclic_world : World :=
  mkWorld [mkWorkflowRow "wf-2" "loop" cyclic_definition WfActive]
    [] [] [] [] 0%N 0 0 0 [] ∅ Backpressure.init [] [] [] 0.

(** ** Graphs, continued *)

(** Every node whose remaining in-degree is zero has been put on the
    queue. *)
Definition zero_seen (D : WorkflowDefinition) (done queue : list string)
    (m : gmap string Z) : Prop :=
  ∀ v, v ∈ map node_id (nodes D) → dg m v <= 0 → v ∈ done ++ queue.

(** The set holds the queue and only nodes, and is closed under the
    edges but for the nodes that still wait in the queue. *)
Definition bfs_closed (D : WorkflowDefinition)
    (reachable : gset string) (bfsQueue : list string) : Prop :=
  (∀ x, x ∈ bfsQueue → x ∈ reachable) ∧
  (∀ x, x ∈ reachable → x ∈ map node_id (nodes D)) ∧
  (∀ x y, x ∈ reachable → x ∉ bfsQueue → edge_rel D x y → y ∈ reachable).

(** What [validateDAG] asks of a definition. *)
Record well_formed (D : WorkflowDefinition) : Prop := {
  dag_node_ids : NoDup (map node_id (nodes D));
  dag_edge_ids : NoDup (map edge_id (edges D));
  dag_start : ∃ start,
    filter (λ n, node_type n = NStart) (nodes D) = [start] ∧
    ∀ n, n ∈ nodes D → rtc (edge_rel D) (node_id start) (node_id n);
  dag_end : ∃ n, n ∈ nodes D ∧ node_type n = NEnd;
  dag_edges : ∀ e, e ∈ edges D →
    edge_source e ∈ map node_id (nodes D) ∧ edge_target e ∈ map node_id (nodes D);
  dag_acyclic : acyclic D;
  dag_forks : ∀ n, n ∈ nodes D → node_type n = NFork →
    (2 <= length (filter (λ e, edge_source e = node_id n) (edges D)))%nat;
  dag_joins : ∀ n, n ∈ nodes D → node_type n = NJoin →
    (2 <= length (filter (λ e, edge_target e = node_id n) (edges D)))%nat
}.

(** ** Bounded buffers, the collector and the logger *)

(** The last [n] elements of a list (all of it when it is shorter). *)
Definition last_n {A} (n : nat) (l : list A) : list A := drop (length l - n) l.

(** The end of an execution, as the result handler reports it to the
    collector. *)
Inductive ExecutionEnd := EndCompleted (durationMs : Z) | EndFailed (durationMs : Z).

Definition duration_of (e : ExecutionEnd) : Z :=
  match e with EndCompleted d | EndFailed d => d end.

Definition record_end (c : Metrics.MetricsCollector) (e : ExecutionEnd)
  : Metrics.MetricsCollector :=
  match e with
  | EndCompleted d => Metrics.recordExecutionCompleted d c
  | EndFailed d => Metrics.recordExecutionFailed d c
  end.

(** A call of one of the collector's methods. *)
Inductive MetricsCall :=
  | CallExecutionStarted
  | CallExecutionCompleted (durationMs : Z)
  | CallExecutionFailed (durationMs : Z)
  | CallStepCompleted (nodeType : string) (durationMs : Z)
  | CallStepFailed (nodeType : string) (durationMs : Z)
  | CallJobProcessed
  | CallRetry
  | CallDLQEntry
  | CallReset.

Definition perform (c : Metrics.MetricsCollector) (call : MetricsCall)
  : Metrics.MetricsCollector :=
  match call with
  | CallExecutionStarted => Metrics.recordExecutionStarted c
  | CallExecutionCompleted d => Metrics.recordExecutionCompleted d c
  | CallExecutionFailed d => Metrics.recordExecutionFailed d c
  | CallStepCompleted t d => Metrics.recordStepCompleted t d c
  | CallStepFailed t d => Metrics.recordStepFailed t d c
  | CallJobProcessed => Metrics.recordJobProcessed c
  | CallRetry => Metrics.recordRetry c
  | CallDLQEntry => Metrics.recordDLQEntry c
  | CallReset => Metrics.reset c
  end.

(** What holds of the collector's figures between calls: the window of
    execution durations has at most 1000 entries, no more than executions
    have ended; and each step entry counts its successes and failures,
    with at most 500 durations, no more than it has counted. *)
Definition metrics_consistent (c : Metrics.MetricsCollector) : Prop :=
  (length (Metrics.executionDurations c) <= 1000)%nat ∧
  Z.of_nat (length (Metrics.executionDurations c))
    <= Metrics.executionCompletedCount c + Metrics.executionFailedCount c ∧
  0 <= Metrics.executionCompletedCount c ∧
  0 <= Metrics.executionFailedCount c ∧
  ∀ nodeType data, Metrics.stepMetrics c !! nodeType = Some data →
    Metrics.count data = Metrics.successCount data + Metrics.failureCount data ∧
    0 <= Metrics.successCount data ∧ 0 <= Metrics.failureCount data ∧
    1 <= Metrics.count data ∧
    (length (Metrics.durations data) <= 500)%nat ∧
    Z.of_nat (length (Metrics.durations data)) <= Metrics.count data.

(** A call [logger.debug/info/warn/error(message, context)] at a time. *)
Record LogCall := mkLogCall {
  call_time : Z;
  call_level : Logger.LogLevel;
  call_message : string;
  call_context : option Js.value
}.

Definition write (s : Logger.StructuredLogger) (c : LogCall)
  : Logger.StructuredLogger :=
  Logger.log (call_time c) (call_level c) (call_message c) (call_context c) s.

Definition entry_of (c : LogCall) : Logger.LogEntry :=
  Logger.mkLogEntry (call_level c) (call_message c) (call_time c) (call_context c).

(** The calls that a logger with minimum level [l] does not suppress. *)
Definition passing (l : Logger.LogLevel) (calls : list LogCall) : list LogCall :=
  filter (λ c, Logger.LOG_LEVEL_PRIORITY l <= Logger.LOG_LEVEL_PRIORITY (call_level c))
    calls.

(** ** The heartbeat monitor and the scheduler *)

(** The entries of the monitor are keyed by their own job id, one entry
    per key. *)
Definition heartbeat_wf (h : Heartbeat.WorkerHeartbeat) : Prop :=
  NoDup (map fst (Heartbeat.activeJobs h)) ∧
  ∀ k e, (k, e) ∈ Heartbeat.activeJobs h → Heartbeat.jobId e = k.

(** An enabled cron trigger of the workflow [wf-1] that is due every
    minute. *)
Definition minutely_trigger : Scheduler.TriggerRow :=
  Scheduler.mkTrigger "tr-1" "wf-1" Scheduler.TCron (Some "* * * * *") None true
    None None.

(* ===================================================================== *)
(** * Part III: properties                                                *)
(* ===================================================================== *)

(** ** Idempotency store *)

Section IdempotencyFacts.
Import Idempotency.

Lemma checkAndSet_absent now k s ttl (st : Store) :
  st !! k = None →
  checkAndSet now k s ttl st = (mkCheck false None, <[k := mkEntry s (now + ttl)]> st).
Proof. intros H. unfold checkAndSet. by rewrite H. Qed.

Lemma checkAndSet_live now k s ttl (st : Store) e :
  st !! k = Some e → now < expiresAt e →
  checkAndSet now k s ttl st = (mkCheck true (Some (stepId e)), st).
Proof.
  intros H Hlt. unfold checkAndSet. rewrite H.
  rewrite bool_decide_eq_true_2; [done | lia].
Qed.

Lemma checkAndSet_stale now k s ttl (st : Store) e :
  st !! k = Some e → expiresAt e <= now →
  checkAndSet now k s ttl st = (mkCheck false None, <[k := mkEntry s (now + ttl)]> st).
Proof.
  intros H Hle. unfold checkAndSet. rewrite H.
  rewrite bool_decide_eq_false_2; [done | lia].
Qed.

Lemma checkAndSet_unseen now k s ttl (st : Store) :
  unseen now k st →
  checkAndSet now k s ttl st = (mkCheck false None, <[k := mkEntry s (now + ttl)]> st).
Proof.
  intros H. destruct (st !! k) as [e|] eqn:E.
  - eapply checkAndSet_stale; eauto.
  - by apply checkAndSet_absent.
Qed.

(** C7.  On first sight of key [k] (no live entry), [checkAndSet k s1]
    followed, before the TTL elapses, by [checkAndSet k s2] answers
    [{duplicate: true, existingStepId: s1}]; and after [remove k] a
    [checkAndSet k s2] answers [{duplicate: false}], whatever the store
    held. *)
Theorem checkAndSet_twice_then_remove :
  ∀ (k s1 s2 : string) (t1 t2 t3 ttl ttl2 ttl3 : Z) (st : Store),
    unseen t1 k st →
    t2 < t1 + ttl →
    let st1 := (checkAndSet t1 k s1 ttl st).2 in
    let r2 := checkAndSet t2 k s2 ttl2 st1 in
    r2.1 = mkCheck true (Some s1) ∧
    (checkAndSet t3 k s2 ttl3 (remove k r2.2)).1 = mkCheck false None.
Proof.
  intros k s1 s2 t1 t2 t3 ttl ttl2 ttl3 st Hun Hlt st1 r2.
  subst st1 r2. rewrite (checkAndSet_unseen _ _ _ _ _ Hun). cbn [snd].
  erewrite checkAndSet_live; [| apply lookup_insert_eq | cbn; lia].
  split; [done |]. cbn [fst snd].
  rewrite checkAndSet_absent; [done |]. apply lookup_delete_eq.
Qed.

Lemma checkAndSet_twice_then_remove_witness :
  let st1 := (checkAndSet 1000 "e1:n1" "step-1" DEFAULT_TTL_MS ∅).2 in
  let r2 := checkAndSet 2000 "e1:n1" "step-2" DEFAULT_TTL_MS st1 in
  r2.1 = mkCheck true (Some "step-1") ∧
  (checkAndSet 3000 "e1:n1" "step-2" DEFAULT_TTL_MS (remove "e1:n1" r2.2)).1
    = mkCheck false None.
Proof.
  apply (checkAndSet_twice_then_remove "e1:n1" "step-1" "step-2"
           1000 2000 3000 DEFAULT_TTL_MS DEFAULT_TTL_MS DEFAULT_TTL_MS ∅).
  - intros e He. by rewrite lookup_empty in He.
  - unfold DEFAULT_TTL_MS. lia.
Defined.

(** C10.  An expired entry ([expiresAt <= now]) is treated as absent even
    before the sweep has run: the call is not a duplicate, and the entry is
    overwritten with the new step id and the expiry [now + ttl]. *)
Theorem checkAndSet_expired_reuses_key :
  ∀ (k s : string) (now ttl : Z) (st : Store) (e : IdempotencyEntry),
    st !! k = Some e →
    expiresAt e <= now →
    let r := checkAndSet now k s ttl st in
    r.1 = mkCheck false None ∧
    r.2 !! k = Some (mkEntry s (now + ttl)) ∧
    (∀ k', k' ≠ k → r.2 !! k' = st !! k').
Proof.
  intros k s now ttl st e He Hexp r. subst r.
  rewrite (checkAndSet_stale _ _ _ _ _ _ He Hexp). cbn [fst snd].
  split; [done |]. split; [apply lookup_insert_eq |].
  intros k' Hne. by rewrite lookup_insert_ne.
Qed.

Lemma checkAndSet_expired_reuses_key_witness :
  let st : Store := {[ "e1:n1" := mkEntry "old" 500 ]} in
  let r := checkAndSet 500 "e1:n1" "new" 300000 st in
  r.1 = mkCheck false None ∧
  r.2 !! "e1:n1" = Some (mkEntry "new" (500 + 300000)) ∧
  (∀ k', k' ≠ "e1:n1" → r.2 !! k' = st !! k').
Proof.
  apply (checkAndSet_expired_reuses_key "e1:n1" "new" 500 300000
           {[ "e1:n1" := mkEntry "old" 500 ]} (mkEntry "old" 500)).
  - apply lookup_singleton_eq.
  - cbn. lia.
Defined.

End IdempotencyFacts.

(** ** Backpressure controller *)

Section BackpressureFacts.
Import Backpressure.

Lemma canAccept_config d c : config (canAccept d c).2 = config c.
Proof. unfold canAccept. repeat case_bool_decide; reflexivity. Qed.

Lemma canAccept_seq_config ds : ∀ c, config (canAccept_seq ds c).2 = config c.
Proof.
  induction ds as [|d ds IH]; intros c; cbn; [done |].
  destruct (canAccept d c) as [b c1] eqn:E1.
  destruct (canAccept_seq ds c1) as [bs c2] eqn:E2. cbn.
  change c2 with (bs, c2).2. rewrite <- E2, IH.
  change c1 with (b, c1).2. rewrite <- E1. apply canAccept_config.
Qed.

Lemma canAccept_seq_app ds1 ds2 : ∀ c,
  canAccept_seq (ds1 ++ ds2) c =
    let r1 := canAccept_seq ds1 c in
    let r2 := canAccept_seq ds2 r1.2 in
    (r1.1 ++ r2.1, r2.2).
Proof.
  induction ds1 as [|d ds1 IH]; intros c; cbn.
  - by destruct (canAccept_seq ds2 c).
  - destruct (canAccept d c) as [b c1]. rewrite IH. cbn.
    destruct (canAccept_seq ds1 c1) as [bs c2]. cbn.
    by destruct (canAccept_seq ds2 c2).
Qed.

(** The answer of one call depends on the observed depth only. *)
Lemma canAccept_answer d c :
  (canAccept d c).1 = bool_decide (d < maxQueueDepth (config c)).
Proof.
  unfold canAccept. repeat case_bool_decide; cbn; try reflexivity; lia.
Qed.

Lemma canAccept_seq_answers ds : ∀ c,
  (canAccept_seq ds c).1 = map (λ d, bool_decide (d < maxQueueDepth (config c))) ds.
Proof.
  induction ds as [|d ds IH]; intros c; cbn; [done |].
  pose proof (canAccept_answer d c) as Ha.
  pose proof (canAccept_config d c) as Hc.
  destruct (canAccept d c) as [b c1]. cbn in Ha, Hc.
  specialize (IH c1). destruct (canAccept_seq ds c1) as [bs c2].
  cbn in *. by rewrite Ha, IH, Hc.
Qed.

(** A call that leaves the controller in [accepting] either found it
    there or observed a depth at or under the low-water mark. *)
Lemma canAccept_accepting d c :
  _state (canAccept d c).2 = accepting →
  _state c = accepting ∨ d <= lowWaterMark (config c).
Proof.
  unfold canAccept. repeat case_bool_decide; cbn; intros Hst;
    try discriminate; auto.
Qed.

Lemma canAccept_seq_sticky ds : ∀ c,
  _state c ≠ accepting →
  Forall (λ d, lowWaterMark (config c) < d) ds →
  _state (canAccept_seq ds c).2 ≠ accepting.
Proof.
  induction ds as [|d ds IH]; intros c Hs Hall; cbn; [done |].
  inversion Hall as [|? ? Hd Hds]; subst.
  pose proof (canAccept_accepting d c) as Hacc.
  pose proof (canAccept_config d c) as Hc.
  destruct (canAccept d c) as [b c1]. cbn in Hacc, Hc.
  specialize (IH c1). destruct (canAccept_seq ds c1) as [bs c2]. cbn in *.
  apply IH.
  - intros Ha. destruct (Hacc Ha); [done | lia].
  - by rewrite Hc.
Qed.

(** C6.  With the default thresholds, over any sequence of calls: each
    call answers [false] exactly when the depth it observes is at least
    1000; and once a call that observed a depth of at least 800 has left
    the controller [pressured], no later call returns it to [accepting] as
    long as every depth observed since stays above 200. *)
Theorem backpressure_hysteresis :
  ∀ (c : BackpressureController) (pre mid : list Z) (d : Z),
    config c = DEFAULT_CONFIG →
    (canAccept_seq pre c).1 = map (λ x, negb (bool_decide (x >= 1000))) pre ∧
    (let c1 := (canAccept_seq (pre ++ [d]) c).2 in
     d >= 800 →
     _state c1 = pressured →
     Forall (λ x, ¬ x <= 200) mid →
     _state (canAccept_seq mid c1).2 ≠ accepting).
Proof.
  intros c pre mid d Hcfg. split.
  - rewrite canAccept_seq_answers, Hcfg. cbn.
    apply map_ext. intros x. repeat case_bool_decide; cbn; try reflexivity; lia.
  - intros c1 _ Hp Hmid. apply canAccept_seq_sticky.
    + by rewrite Hp.
    + subst c1. rewrite canAccept_seq_config, Hcfg. cbn.
      eapply Forall_impl; [exact Hmid |]. cbn. intros; lia.
Qed.

Lemma backpressure_hysteresis_witness :
  (canAccept_seq [100; 1000] init).1
    = map (λ x, negb (bool_decide (x >= 1000))) [100; 1000] ∧
  _state (canAccept_seq [500; 201; 999] (canAccept_seq ([100; 1000] ++ [850]) init).2).2
    ≠ accepting.
Proof.
  pose proof (backpressure_hysteresis init [100; 1000] [500; 201; 999] 850 eq_refl)
    as [H1 H2].
  split; [exact H1 |].
  apply H2; [lia | reflexivity |].
  repeat constructor; lia.
Defined.

End BackpressureFacts.

(** ** Reasoning about computations in [M] *)

Lemma bind_ok {A B} (m : M A) (k : A → M B) w a w1 :
  m w = (Ok a, w1) → (m ≫= k) w = k a w1.
Proof. intros H. unfold mbind, M_bind. by rewrite H. Qed.

Lemma bind_throw {A B} (m : M A) (k : A → M B) w e w1 :
  m w = (Throw e, w1) → (m ≫= k) w = (Throw e, w1).
Proof. intros H. unfold mbind, M_bind. by rewrite H. Qed.

Lemma preserves_ret {A X} (f : World → X) (a : A) : preserves f (mret a).
Proof. by intros w. Qed.

Lemma preserves_throw {A X} (f : World → X) e : preserves f (@throw A e).
Proof. by intros w. Qed.

Lemma preserves_get_world {X} (f : World → X) : preserves f get_world.
Proof. by intros w. Qed.

Lemma preserves_modify {X} (f : World → X) g :
  (∀ w, f (g w) = f w) → preserves f (modify g).
Proof. intros H w. apply H. Qed.

Lemma preserves_bind {A B X} (f : World → X) (m : M A) (k : A → M B) :
  preserves f m → (∀ a, preserves f (k a)) → preserves f (m ≫= k).
Proof.
  intros Hm Hk w. unfold mbind, M_bind.
  specialize (Hm w). destruct (m w) as [[a|e] w1]; cbn in *.
  - by rewrite Hk.
  - done.
Qed.

Lemma preserves_try_catch {A X} (f : World → X) (m : M A) h :
  preserves f m → (∀ e, preserves f (h e)) → preserves f (try_catch m h).
Proof.
  intros Hm Hh w. unfold try_catch.
  specialize (Hm w). destruct (m w) as [[a|e] w1]; cbn in *.
  - done.
  - by rewrite Hh.
Qed.

Lemma preserves_for_each {A X} (f : World → X) (xs : list A) body :
  (∀ x, preserves f (body x)) → preserves f (for_each xs body).
Proof.
  intros Hb. induction xs as [|x xs IH]; cbn.
  - apply preserves_ret.
  - apply preserves_bind; auto.
Qed.

(** ** The persistent queue: what [enqueue] inserts *)

Lemma jobQueue_create_fresh row w :
  existsb (λ r, bool_decide (jq_id r = jq_id row)) (jobRows w) = false →
  jobQueue_create row w = (Ok tt, set_jobRows (λ l, l ++ [row]) w).
Proof.
  intros H. unfold jobQueue_create.
  erewrite bind_ok by reflexivity. by rewrite H.
Qed.

(** C4, as stated, fails: a job with [maxRetries = 0] is inserted with
    [maxAttempts = 3], not [0 + 1]. *)
Lemma enqueue_maxAttempts_counterexample :
  ¬ (∀ (job : WorkerJob) (w : World),
       existsb (λ r, bool_decide (jq_id r = job_id job)) (jobRows w) = false →
       ∃ row, jobRows (JobQueue_enqueue job w).2 = jobRows w ++ [row] ∧
              jq_status row = JqPending ∧ jq_attempts row = 0 ∧
              jq_payload row = job ∧
              jq_maxAttempts row = job_maxRetries job + 1).
Proof.
  intros H. destruct (H job0 empty_world eq_refl) as (row & Hrows & _ & _ & _ & Hmax).
  vm_compute in Hrows. injection Hrows as <-. vm_compute in Hmax. discriminate.
Qed.

(** C4, amended.  For every job whose id is not yet in the table,
    [enqueue] appends one row with status [pending], [attempts = 0], the
    job as payload and the job's id; its [maxAttempts] is
    [job.maxRetries + 1] when [job.maxRetries] is not zero, and 3 when it
    is zero. *)
Theorem enqueue_inserts_row :
  ∀ (job : WorkerJob) (w : World),
    existsb (λ r, bool_decide (jq_id r = job_id job)) (jobRows w) = false →
    ∃ row, jobRows (JobQueue_enqueue job w).2 = jobRows w ++ [row] ∧
           jq_id row = job_id job ∧
           jq_status row = JqPending ∧ jq_attempts row = 0 ∧
           jq_payload row = job ∧
           jq_maxAttempts row =
             (if bool_decide (job_maxRetries job = 0) then 3
              else job_maxRetries job + 1).
Proof.
  intros job w Hfresh. exists (enqueue_row job).
  split; [| by repeat split].
  unfold JobQueue_enqueue, try_catch.
  erewrite bind_ok; [| by apply jobQueue_create_fresh].
  reflexivity.
Qed.

Lemma enqueue_inserts_row_witness :
  ∃ row, jobRows (JobQueue_enqueue job0 empty_world).2
           = jobRows empty_world ++ [row] ∧
         jq_id row = job_id job0 ∧
         jq_status row = JqPending ∧ jq_attempts row = 0 ∧
         jq_payload row = job0 ∧
         jq_maxAttempts row =
           (if bool_decide (job_maxRetries job0 = 0) then 3
            else job_maxRetries job0 + 1).
Proof. apply (enqueue_inserts_row job0 empty_world). reflexivity. Defined.

(** ** Frame lemmas

    [frame] proves [preserves f m] by following the structure of [m] down
    to the operations that touch the world; it applies when [f] is a field
    that none of them writes. *)

Lemma preserves_fresh_id {X} (f : World → X) :
  (∀ g w, f (set_nextId g w) = f w) → preserves f fresh_id.
Proof. intros H w. apply H. Qed.

Lemma preserves_idempotency_checkAndSet {X} (f : World → X) now key sid :
  (∀ g w, f (set_idempotencyStore g w) = f w) →
  preserves f (idempotency_checkAndSet now key sid).
Proof.
  intros H w. unfold idempotency_checkAndSet.
  destruct (Idempotency.checkAndSet _ _ _ _ _). apply H.
Qed.

Lemma preserves_backpressure_canAccept {X} (f : World → X) :
  (∀ g w, f (set_backpressure g w) = f w) → preserves f backpressure_canAccept.
Proof.
  intros H w. unfold backpressure_canAccept.
  destruct (Backpressure.canAccept _ _). apply H.
Qed.

Ltac frame_step :=
  match goal with
  | |- ∀ _, _ => intro
  | |- preserves _ (mret _) => apply preserves_ret
  | |- preserves _ (throw _) => apply preserves_throw
  | |- preserves _ get_world => apply preserves_get_world
  | |- preserves _ (modify _) =>
      apply preserves_modify; intros; first [reflexivity | auto]
  | |- preserves _ fresh_id =>
      apply preserves_fresh_id; intros; first [reflexivity | auto]
  | |- preserves _ (idempotency_checkAndSet _ _ _) =>
      apply preserves_idempotency_checkAndSet; intros; first [reflexivity | auto]
  | |- preserves _ backpressure_canAccept =>
      apply preserves_backpressure_canAccept; intros; first [reflexivity | auto]
  | |- preserves _ (_ ≫= _) => apply preserves_bind
  | |- preserves _ (try_catch _ _) => apply preserves_try_catch
  | |- preserves _ (for_each _ _) => apply preserves_for_each
  | |- preserves _ (if ?b then _ else _) => destruct b
  | |- preserves _ (match ?x with _ => _ end) => destruct x
  | |- preserves _ (let '(_, _) := ?x in _) => destruct x
  end.

Ltac unfold_ops :=
  unfold stepExecution_create, stepExecution_update, stepExecution_delete,
    stepExecution_updateMany, stepExecution_findMany, workflow_findUnique,
    execution_findUnique, jobQueue_create, jobQueue_update, recordAudit,
    JobQueue_emit, JobQueue_enqueue, JobQueue_markDone, JobQueue_markFailed,
    JobQueue_dequeue, emit_done, dlq_add.

Ltac frame := repeat first [frame_step | progress unfold_ops].

Section Frames.
Context {X : Type} (f : World → X).
Hypothesis f_steps : ∀ g w, f (set_steps g w) = f w.
Hypothesis f_nextId : ∀ g w, f (set_nextId g w) = f w.
Hypothesis f_jobRows : ∀ g w, f (set_jobRows g w) = f w.
Hypothesis f_auditLog : ∀ g w, f (set_auditLog g w) = f w.
Hypothesis f_counters : ∀ g w, f (set_counters g w) = f w.
Hypothesis f_jobEvents : ∀ g w, f (set_jobEvents g w) = f w.
Hypothesis f_idem : ∀ g w, f (set_idempotencyStore g w) = f w.
Hypothesis f_bp : ∀ g w, f (set_backpressure g w) = f w.

(** Publishing writes steps, the id counter, the queue and the two
    admission singletons, and nothing else. *)
Lemma preserves_publishJob now executionId node input previousResults attempt :
  preserves f (publishJob now executionId node input previousResults attempt).
Proof. unfold publishJob. frame. Qed.

Lemma preserves_skipBranch depth now definition executionId completed pending :
  ∀ nodeIds,
    preserves f (skipBranch depth now nodeIds definition executionId completed pending).
Proof.
  induction depth as [|depth IH]; intros nodeIds; cbn [skipBranch].
  - apply preserves_throw.
  - apply preserves_for_each. intros nodeId.
    destruct (_ || _); [apply preserves_ret |].
    destruct (List.find _ _); [| apply preserves_ret].
    destruct (bool_decide _); [apply preserves_ret |].
    apply preserves_bind; [frame |].
    intros _. destruct (bool_decide _); [apply IH | apply preserves_ret].
Qed.

End Frames.

Section FramesOfTheHandlers.
Context {X : Type} (f : World → X).
Hypothesis f_steps : ∀ g w, f (set_steps g w) = f w.
Hypothesis f_executions : ∀ g w, f (set_executions g w) = f w.
Hypothesis f_nextId : ∀ g w, f (set_nextId g w) = f w.
Hypothesis f_jobRows : ∀ g w, f (set_jobRows g w) = f w.
Hypothesis f_auditLog : ∀ g w, f (set_auditLog g w) = f w.
Hypothesis f_counters : ∀ g w, f (set_counters g w) = f w.
Hypothesis f_jobEvents : ∀ g w, f (set_jobEvents g w) = f w.
Hypothesis f_idem : ∀ g w, f (set_idempotencyStore g w) = f w.
Hypothesis f_bp : ∀ g w, f (set_backpressure g w) = f w.
Hypothesis f_events : ∀ g w, f (set_executionEvents g w) = f w.

Lemma preserves_execution_update id g : preserves f (execution_update id g).
Proof. unfold execution_update. frame. Qed.

(** The result handler writes steps, executions, the audit log, the
    completion events and what publishing writes; in particular neither
    the retry timers nor the dead-letter queue. *)
Lemma preserves_advance now result execution :
  preserves f (advance now result execution).
Proof.
  unfold advance.
  apply preserves_bind; [frame |].
  intros [workflow|]; [| apply preserves_throw].
  apply preserves_bind; [frame |].
  intros steps0.
  apply preserves_bind.
  { destruct (bool_decide _); [apply preserves_skipBranch; auto | apply preserves_ret]. }
  intros _.
  apply preserves_bind; [frame |].
  intros updatedSteps. cbv zeta.
  destruct (bool_decide _).
  - apply preserves_for_each. intros node.
    apply preserves_bind; [apply preserves_publishJob; auto |].
    intros; apply preserves_ret.
  - destruct (bool_decide _); [| apply preserves_ret].
    apply preserves_bind; [apply preserves_execution_update |].
    intros _. frame.
Qed.

Lemma preserves_handleResult now result : preserves f (handleResult now result).
Proof.
  unfold handleResult.
  apply preserves_bind; [frame |].
  intros _. destruct (res_status result).
  - apply preserves_bind; [frame |].
    intros [execution|]; [apply preserves_advance | apply preserves_ret].
  - apply preserves_bind; [apply preserves_execution_update |].
    intros _. frame.
Qed.

Lemma preserves_run_handler registry job : preserves f (run_handler registry job).
Proof.
  unfold run_handler.
  destruct (registry _) as [handler|].
  - destruct (handler job) as [result|message].
    + apply preserves_bind; [| intros; apply preserves_ret].
      destruct (bool_decide _); frame.
    + frame.
  - frame.
Qed.

End FramesOfTheHandlers.

(** ** The consumer's retry decision *)

Lemma stepExecution_update_ok id g w :
  existsb (λ s, bool_decide (st_id s = id)) (steps w) = true →
  stepExecution_update id g w
    = (Ok tt, set_steps (update_where (λ s, bool_decide (st_id s = id)) g) w).
Proof.
  intros H. unfold stepExecution_update.
  erewrite bind_ok by reflexivity. by rewrite H.
Qed.

Lemma run_handler_returns registry job handler result w :
  registry (node_type (job_node job)) = Some handler →
  handler job = Returns result →
  (run_handler registry job w).1 = Ok result.
Proof.
  intros Hreg Hres. unfold run_handler. rewrite Hreg, Hres.
  unfold mbind, M_bind.
  destruct (bool_decide _).
  - by destruct (JobQueue_markDone _ _ w) as [[[]|e] w1] eqn:E;
      [| unfold JobQueue_markDone, try_catch, jobQueue_update, mbind, M_bind,
           modify, get_world in E; cbn in E;
         repeat (case_match; simplify_eq)].
  - by destruct (JobQueue_markFailed _ _ w) as [[[]|e] w1] eqn:E;
      [| unfold JobQueue_markFailed, try_catch, jobQueue_update, mbind, M_bind,
           modify, get_world in E; cbn in E;
         repeat (case_match; simplify_eq)].
Qed.

(** The retry test fails as soon as the attempt number has reached
    [maxRetries]; attempts are numbered from 1. *)
Lemma retries_exhausted result job :
  job_maxRetries job <= job_attempt job → retries result job = false.
Proof.
  intros H. unfold retries.
  rewrite (bool_decide_eq_false_2 (job_attempt job < job_maxRetries job)) by lia.
  by rewrite andb_false_r.
Qed.

Lemma processJob_unfold registry now job w :
  existsb (λ s, bool_decide (st_id s = job_stepId job)) (steps w) = true →
  processJob registry now job w =
    (run_handler registry job ≫= λ result : WorkerResult,
     if retries result job then
       let '(backoff, multiplier) := getRetryConfig (node_config (job_node job)) in
       let delay := backoff * multiplier ^ (job_attempt job - 1) in
       modify (set_totalRetries (Z.add 1));;
       recordAudit "step.retried" "step" (job_stepId job);;
       stepExecution_update (job_stepId job)
         (step_set_retry
            ("Retry " +:+ pretty (job_attempt job) +:+ "/"
               +:+ pretty (job_maxRetries job) +:+ ": "
               +:+ default "undefined" (res_error result))
            (job_attempt job));;
       modify (set_idempotencyStore
                 (Idempotency.remove
                    (Idempotency.generateKey (job_executionId job)
                       (node_id (job_node job)))));;
       modify (set_timers (λ l, l ++ [(delay, job)]))
     else
       (if bool_decide (res_status result = RFailed)
           && bool_decide (job_maxRetries job > 0)
        then
          dlq_add now job (or_default (res_error result) "Unknown error")
            (job_attempt job);;
          recordAudit "dlq.entry" "step" (job_stepId job)
        else mret tt);;
       try_catch (handleResult now result) (λ _, mret tt))
      (set_steps
         (update_where (λ s, bool_decide (st_id s = job_stepId job))
            (step_set_running now (job_attempt job))) w).
Proof.
  intros Hstep. unfold processJob.
  rewrite (bind_ok _ _ w true
             (set_steps
                (update_where (λ s, bool_decide (st_id s = job_stepId job))
                   (step_set_running now (job_attempt job))) w)).
  - reflexivity.
  - unfold try_catch.
    rewrite (bind_ok _ _ w tt _ (stepExecution_update_ok _ _ _ Hstep)).
    reflexivity.
Qed.

(** C1, on the code.  Take a job on its first attempt ([attempt = 1]) for
    a node configured with [retry.maxRetries = 1], whose handler returns a
    failure.  [processJob] schedules no retry (the timers are as before),
    and appends exactly one entry to the dead-letter queue, recording one
    attempt: the step is attempted once, not twice. *)
Theorem processJob_maxRetries_1_single_attempt :
  ∀ (registry : HandlerRegistry) (now : Z) (job : WorkerJob) (w : World)
    (handler : ActionHandler) (result : WorkerResult),
    existsb (λ s, bool_decide (st_id s = job_stepId job)) (steps w) = true →
    registry (node_type (job_node job)) = Some handler →
    handler job = Returns result →
    res_status result = RFailed →
    job_attempt job = 1 →
    job_maxRetries job = 1 →
    let w' := (processJob registry now job w).2 in
    timers w' = timers w ∧
    dlq w' = dlq w ++
      [mkDLQItem job (or_default (res_error result) "Unknown error") 1 now].
Proof.
  intros registry now job w handler result Hstep Hreg Hres Hfailed Hatt Hmax w'.
  subst w'. rewrite processJob_unfold by exact Hstep.
  set (w1 := set_steps _ w).
  pose proof (run_handler_returns registry job handler result w1 Hreg Hres) as Hr.
  assert (timers (run_handler registry job w1).2 = timers w1) as Ht
    by (apply preserves_run_handler; done).
  assert (dlq (run_handler registry job w1).2 = dlq w1) as Hd
    by (apply preserves_run_handler; done).
  destruct (run_handler registry job w1) as [o w2] eqn:E.
  cbn in Hr, Ht, Hd. subst o.
  erewrite bind_ok by exact E.
  rewrite retries_exhausted by lia.
  rewrite Hfailed, Hmax, Hatt. cbn [bool_decide andb].
  rewrite !bool_decide_eq_true_2 by (done || lia). cbn [andb].
  erewrite bind_ok by reflexivity.
  split.
  - rewrite (preserves_try_catch timers (handleResult now result) (λ _, mret tt)).
    + cbn. exact Ht.
    + apply preserves_handleResult; done.
    + intros; apply preserves_ret.
  - rewrite (preserves_try_catch dlq (handleResult now result) (λ _, mret tt)).
    + cbn. by rewrite Hd.
    + apply preserves_handleResult; done.
    + intros; apply preserves_ret.
Qed.

Lemma processJob_maxRetries_1_single_attempt_witness :
  timers (processJob failing_registry 5 job_A world_A).2 = timers world_A ∧
  dlq (processJob failing_registry 5 job_A world_A).2 =
    dlq world_A ++ [mkDLQItem job_A "boom" 1 5].
Proof.
  exact (processJob_maxRetries_1_single_attempt failing_registry 5 job_A world_A
           failing_handler (mkResult "step-A" "step-A" "exec-1" RFailed None
                              (Some "boom") 0 None)
           eq_refl eq_refl eq_refl eq_refl eq_refl eq_refl).
Defined.

(** In that run the step of [A] ends [failed] after its first attempt,
    nothing is left to retry, the dead-letter queue has one entry and the
    execution is [failed]. *)
Example retry_exhaustion_scenario :
  map (λ s, (st_nodeId s, st_status s, st_attempts s)) (steps retry_exhaustion_run)
    = [("start", StCompleted, 1); ("A", StFailed, 1)] ∧
  timers retry_exhaustion_run = [] ∧
  length (dlq retry_exhaustion_run) = 1%nat ∧
  map ex_status (executions retry_exhaustion_run) = [ExFailed] ∧
  map (λ r, (jq_nodeId r, jq_status r, jq_attempts r, jq_maxAttempts r))
    (jobRows retry_exhaustion_run)
    = [("start", JqDone, 1, 3); ("A", JqFailed, 1, 2)].
Proof. vm_compute. repeat split; reflexivity. Qed.

(** ** The orchestrator *)


Lemma find_existsb {A} (p : A → bool) (l : list A) x :
  List.find p l = Some x → existsb p l = true.
Proof.
  induction l as [|y l IH]; cbn; [discriminate |].
  destruct (p y); [done | auto].
Qed.

Lemma existsb_fresh {A} (p : A → bool) (l : list A) :
  (∀ x, x ∈ l → p x = false) → existsb p l = false.
Proof.
  intros H. induction l as [|x l IH]; cbn; [done |].
  rewrite (H x) by left. apply IH. intros y Hy. apply H. by right.
Qed.

Lemma update_where_fresh {A} (p : A → bool) (g : A → A) (l : list A) :
  (∀ x, x ∈ l → p x = false) → update_where p g l = l.
Proof.
  intros H. unfold update_where. induction l as [|x l IH]; cbn; [done |].
  rewrite (H x) by left. f_equal. apply IH. intros y Hy. apply H. by right.
Qed.

Lemma execution_update_ok id g w :
  existsb (λ e, bool_decide (ex_id e = id)) (executions w) = true →
  execution_update id g w
    = (Ok tt, set_executions (update_where (λ e, bool_decide (ex_id e = id)) g) w).
Proof.
  intros H. unfold execution_update.
  rewrite (bind_ok _ _ w w w) by reflexivity. by rewrite H.
Qed.

(** ** The result handler and the status of the parent execution *)

(** What [handleResult] leaves of a cancelled execution when the result
    of an in-flight handler arrives late: a failure overwrites the status
    with [failed]; a success publishes the next node. *)
Example handleResult_on_cancelled :
  map (λ e, (ex_status e, ex_output e))
    (executions (handleResult 5 (late_result RFailed) cancelled_world).2)
    = [(ExFailed, Some (Js.VObject [("error", Js.VString "boom")]))] ∧
  map (λ r, (jq_nodeId r, jq_status r))
    (jobRows (handleResult 5 (late_result RCompleted) cancelled_world).2)
    = [("end", JqPending)].
Proof. vm_compute. split; reflexivity. Qed.


Lemma same_but_status_fields w1 w2 :
  same_but_status w1 w2 ↔
    workflows w1 = workflows w2 ∧
    map erase_status (executions w1) = map erase_status (executions w2) ∧
    steps w1 = steps w2 ∧ jobRows w1 = jobRows w2 ∧
    auditLog w1 = auditLog w2 ∧ nextId w1 = nextId w2 ∧
    q_totalEnqueued w1 = q_totalEnqueued w2 ∧
    q_totalProcessed w1 = q_totalProcessed w2 ∧
    q_totalFailed w1 = q_totalFailed w2 ∧
    jobEvents w1 = jobEvents w2 ∧
    idempotencyStore w1 = idempotencyStore w2 ∧
    backpressure w1 = backpressure w2 ∧
    dlq w1 = dlq w2 ∧ timers w1 = timers w2 ∧
    executionEvents w1 = executionEvents w2 ∧
    totalRetries w1 = totalRetries w2.
Proof.
  unfold same_but_status, set_executions. split.
  - intros H. injection H. intros. repeat split; assumption.
  - intros (-> & -> & -> & -> & -> & -> & -> & -> & -> & -> & -> & -> & -> & -> & -> & ->).
    reflexivity.
Qed.

Lemma respects_ret {A} (a : A) : respects (mret a).
Proof. intros w1 w2 H. by split. Qed.

Lemma respects_throw {A} e : respects (@throw A e).
Proof. intros w1 w2 H. by split. Qed.

Lemma respects_bind {A B} (m : M A) (k : A → M B) :
  respects m → (∀ a, respects (k a)) → respects (m ≫= k).
Proof.
  intros Hm Hk w1 w2 H. unfold mbind, M_bind.
  destruct (Hm w1 w2 H) as [Ho Hw].
  destruct (m w1) as [o1 w1'], (m w2) as [o2 w2']. cbn in Ho, Hw. subst o2.
  destruct o1 as [a|e]; [by apply Hk | by split].
Qed.

Lemma respects_try_catch {A} (m : M A) h :
  respects m → (∀ e, respects (h e)) → respects (try_catch m h).
Proof.
  intros Hm Hh w1 w2 H. unfold try_catch.
  destruct (Hm w1 w2 H) as [Ho Hw].
  destruct (m w1) as [o1 w1'], (m w2) as [o2 w2']. cbn in Ho, Hw. subst o2.
  destruct o1 as [a|e]; [by split | by apply Hh].
Qed.

Lemma respects_for_each {A} (xs : list A) body :
  (∀ x, respects (body x)) → respects (for_each xs body).
Proof.
  intros Hb. induction xs as [|x xs IH]; cbn.
  - apply respects_ret.
  - apply respects_bind; auto.
Qed.

Lemma existsb_erase_status id l :
  existsb (λ e, bool_decide (ex_id e = id)) l
  = existsb (λ e, bool_decide (ex_id e = id)) (map erase_status l).
Proof. induction l as [|e l IH]; cbn; [done | by rewrite IH]. Qed.

Lemma find_erase_status id l :
  erase_status <$> List.find (λ e, bool_decide (ex_id e = id)) l
  = List.find (λ e, bool_decide (ex_id e = id)) (map erase_status l).
Proof.
  induction l as [|e l IH]; cbn; [done |].
  destruct (bool_decide _); [done | exact IH].
Qed.

Lemma update_where_erase_status id g l1 l2 :
  (∀ e1 e2, erase_status e1 = erase_status e2 →
            erase_status (g e1) = erase_status (g e2)) →
  map erase_status l1 = map erase_status l2 →
  map erase_status (update_where (λ e, bool_decide (ex_id e = id)) g l1)
  = map erase_status (update_where (λ e, bool_decide (ex_id e = id)) g l2).
Proof.
  intros Hg. revert l2. induction l1 as [|e1 l1 IH]; intros [|e2 l2] H;
    try discriminate; [done |].
  assert (erase_status e1 = erase_status e2) as He
    by exact (f_equal (λ l, match l with x :: _ => x | [] => erase_status e1 end) H).
  assert (map erase_status l1 = map erase_status l2) as Hl
    by exact (f_equal (λ l, match l with _ :: l' => l' | [] => [] end) H).
  assert (ex_id e1 = ex_id e2) as Hid by exact (f_equal ex_id He).
  cbn [update_where map]. rewrite Hid. f_equal; [| by apply IH].
  destruct (bool_decide _); [by apply Hg | done].
Qed.

Ltac respects_prim :=
  let w1 := fresh "w1" in let w2 := fresh "w2" in let H := fresh "H" in
  intros w1 w2 H;
  pose proof H as (? & ? & ? & ? & ? & ? & ? & ? & ? & ? & ? & ? & ? & ? & ? & ?)%same_but_status_fields;
  cbn; unfold mbind, M_bind, get_world, modify, throw, mret, M_ret; cbn.

Lemma respects_stepExecution_update id g : respects (stepExecution_update id g).
Proof.
  unfold stepExecution_update. respects_prim.
  replace (steps w2) with (steps w1).
  destruct (existsb _ _); cbn; (split; [done |]);
    [| done]. apply same_but_status_fields. cbn. repeat split; congruence.
Qed.

Lemma respects_stepExecution_delete id : respects (stepExecution_delete id).
Proof.
  unfold stepExecution_delete. respects_prim.
  replace (steps w2) with (steps w1).
  destruct (existsb _ _); cbn; (split; [done |]);
    [| done]. apply same_but_status_fields. cbn. repeat split; congruence.
Qed.

Lemma respects_stepExecution_updateMany p g :
  respects (stepExecution_updateMany p g).
Proof.
  unfold stepExecution_updateMany. respects_prim.
  split; [done |]. apply same_but_status_fields. cbn. repeat split; congruence.
Qed.

Lemma respects_stepExecution_findMany id : respects (stepExecution_findMany id).
Proof.
  unfold stepExecution_findMany. respects_prim.
  replace (steps w2) with (steps w1). by split.
Qed.

Lemma respects_workflow_findUnique id : respects (workflow_findUnique id).
Proof.
  unfold workflow_findUnique. respects_prim.
  replace (workflows w2) with (workflows w1). by split.
Qed.

Lemma respects_fresh_id : respects fresh_id.
Proof.
  unfold fresh_id. respects_prim.
  replace (nextId w2) with (nextId w1). split; [done |].
  apply same_but_status_fields. cbn. repeat split; congruence.
Qed.

Lemma respects_stepExecution_create eid nid label type status attempts started completed :
  respects (stepExecution_create eid nid label type status attempts started completed).
Proof.
  unfold stepExecution_create, fresh_id. respects_prim.
  rewrite (existsb_erase_status eid (executions w1)),
    (existsb_erase_status eid (executions w2)).
  replace (map erase_status (executions w2)) with (map erase_status (executions w1)).
  destruct (existsb _ (map _ _)); cbn; [| by split].
  replace (steps w2) with (steps w1).
  replace (nextId w2) with (nextId w1).
  destruct (existsb _ (steps w1)); cbn.
  - split; [done |].
    apply same_but_status_fields. cbn. repeat split; congruence.
  - split; [done |].
    apply same_but_status_fields. cbn. repeat split; congruence.
Qed.

Lemma respects_execution_update id g :
  (∀ e1 e2, erase_status e1 = erase_status e2 →
            erase_status (g e1) = erase_status (g e2)) →
  respects (execution_update id g).
Proof.
  intros Hg. unfold execution_update. respects_prim.
  rewrite (existsb_erase_status id (executions w1)),
    (existsb_erase_status id (executions w2)).
  replace (map erase_status (executions w2)) with (map erase_status (executions w1)).
  destruct (existsb _ _); cbn; (split; [done |]); [| done].
  apply same_but_status_fields. cbn. repeat split; try congruence.
  by apply update_where_erase_status.
Qed.

Lemma respects_jobQueue_create row : respects (jobQueue_create row).
Proof.
  unfold jobQueue_create. respects_prim.
  replace (jobRows w2) with (jobRows w1).
  destruct (existsb _ _); cbn; (split; [done |]); [done |].
  apply same_but_status_fields. cbn. repeat split; congruence.
Qed.

Lemma respects_recordAudit event type id : respects (recordAudit event type id).
Proof.
  unfold recordAudit. respects_prim.
  split; [done |]. apply same_but_status_fields. cbn. repeat split; congruence.
Qed.

Lemma respects_emit_done id payload : respects (emit_done id payload).
Proof.
  unfold emit_done. respects_prim.
  split; [done |]. apply same_but_status_fields. cbn. repeat split; congruence.
Qed.

Lemma respects_idempotency_checkAndSet now key sid :
  respects (idempotency_checkAndSet now key sid).
Proof.
  unfold idempotency_checkAndSet. respects_prim.
  replace (idempotencyStore w2) with (idempotencyStore w1).
  destruct (Idempotency.checkAndSet _ _ _ _ _). cbn.
  split; [done |]. apply same_but_status_fields. cbn. repeat split; congruence.
Qed.

Lemma respects_backpressure_canAccept : respects backpressure_canAccept.
Proof.
  unfold backpressure_canAccept, JobQueue_depth. respects_prim.
  replace (backpressure w2) with (backpressure w1).
  replace (q_totalEnqueued w2) with (q_totalEnqueued w1).
  replace (q_totalProcessed w2) with (q_totalProcessed w1).
  replace (q_totalFailed w2) with (q_totalFailed w1).
  destruct (Backpressure.canAccept _ _). cbn.
  split; [done |]. apply same_but_status_fields. cbn. repeat split; congruence.
Qed.

Lemma respects_JobQueue_enqueue job : respects (JobQueue_enqueue job).
Proof.
  unfold JobQueue_enqueue, JobQueue_emit.
  assert (∀ g, respects (modify (set_counters g))) as Hc.
  { intros g. respects_prim. split; [done |].
    apply same_but_status_fields. cbn. repeat split; congruence. }
  assert (respects (modify (set_jobEvents (λ l, l ++ [job])))) as He.
  { respects_prim. split; [done |].
    apply same_but_status_fields. cbn. repeat split; congruence. }
  apply respects_try_catch.
  - apply respects_bind; [apply respects_jobQueue_create |]. intros _.
    apply respects_bind; [apply Hc | intros _; apply He].
  - intros _. apply respects_bind; [apply Hc | intros _; apply He].
Qed.

Lemma respects_publishJob now eid node input previousResults attempt :
  respects (publishJob now eid node input previousResults attempt).
Proof.
  unfold publishJob.
  apply respects_bind; [apply respects_stepExecution_create |]. intros step.
  apply respects_bind; [apply respects_idempotency_checkAndSet |]. intros check.
  destruct (duplicate_of check).
  - apply respects_bind; [apply respects_stepExecution_delete |].
    intros; apply respects_ret.
  - apply respects_bind; [apply respects_backpressure_canAccept |].
    intros [].
    + apply respects_bind; [apply respects_JobQueue_enqueue |].
      intros; apply respects_ret.
    + apply respects_bind; [| intros; apply respects_ret].
      respects_prim. split; [done |].
      apply same_but_status_fields. cbn. repeat split; congruence.
Qed.

Lemma respects_skipBranch depth now definition eid completed pending :
  ∀ nodeIds,
    respects (skipBranch depth now nodeIds definition eid completed pending).
Proof.
  induction depth as [|depth IH]; intros nodeIds; cbn [skipBranch].
  - apply respects_throw.
  - apply respects_for_each. intros nodeId.
    destruct (_ || _); [apply respects_ret |].
    destruct (List.find _ _); [| apply respects_ret].
    destruct (bool_decide _); [apply respects_ret |].
    apply respects_bind; [apply respects_stepExecution_create |].
    intros _. destruct (bool_decide _); [apply IH | apply respects_ret].
Qed.

Lemma execution_set_finished_erase status output now e1 e2 :
  erase_status e1 = erase_status e2 →
  erase_status (execution_set_finished status output now e1)
  = erase_status (execution_set_finished status output now e2).
Proof.
  intros H. unfold execution_set_finished, erase_status. cbn.
  assert (ex_id e1 = ex_id e2) as -> by exact (f_equal ex_id H).
  assert (ex_workflowId e1 = ex_workflowId e2) as -> by exact (f_equal ex_workflowId H).
  assert (ex_input e1 = ex_input e2) as -> by exact (f_equal ex_input H).
  assert (ex_userId e1 = ex_userId e2) as -> by exact (f_equal ex_userId H).
  assert (ex_startedAt e1 = ex_startedAt e2) as -> by exact (f_equal ex_startedAt H).
  reflexivity.
Qed.

Lemma respects_advance now result execution :
  respects (advance now result execution).
Proof.
  unfold advance.
  apply respects_bind; [apply respects_workflow_findUnique |].
  intros [workflow|]; [| apply respects_throw].
  apply respects_bind; [apply respects_stepExecution_findMany |].
  intros steps0.
  apply respects_bind.
  { destruct (bool_decide _); [apply respects_skipBranch | apply respects_ret]. }
  intros _.
  apply respects_bind; [apply respects_stepExecution_findMany |].
  intros updatedSteps. cbv zeta.
  destruct (bool_decide _).
  - apply respects_for_each. intros node.
    apply respects_bind; [apply respects_publishJob |].
    intros; apply respects_ret.
  - destruct (bool_decide _); [| apply respects_ret].
    apply respects_bind.
    { apply respects_execution_update. apply execution_set_finished_erase. }
    intros _.
    apply respects_bind; [apply respects_recordAudit |].
    intros _. apply respects_emit_done.
Qed.

(** Of the loaded row only fields other than the status are used. *)
Lemma advance_erase_status now result e1 e2 :
  erase_status e1 = erase_status e2 →
  advance now result e1 = advance now result e2.
Proof.
  intros H. unfold advance.
  assert (ex_id e1 = ex_id e2) as -> by exact (f_equal ex_id H).
  assert (ex_workflowId e1 = ex_workflowId e2) as -> by exact (f_equal ex_workflowId H).
  assert (ex_input e1 = ex_input e2) as -> by exact (f_equal ex_input H).
  reflexivity.
Qed.

Lemma respects_handleResult now result : respects (handleResult now result).
Proof.
  unfold handleResult.
  apply respects_bind; [apply respects_stepExecution_update |].
  intros _. destruct (res_status result).
  - intros w1 w2 H.
    pose proof H as (_ & Hex & _)%same_but_status_fields.
    rewrite (bind_ok _ _ w1
               (List.find (λ e, bool_decide (ex_id e = res_executionId result))
                  (executions w1)) w1) by reflexivity.
    rewrite (bind_ok _ _ w2
               (List.find (λ e, bool_decide (ex_id e = res_executionId result))
                  (executions w2)) w2) by reflexivity.
    pose proof (find_erase_status (res_executionId result) (executions w1)) as F1.
    pose proof (find_erase_status (res_executionId result) (executions w2)) as F2.
    rewrite Hex, <- F2 in F1.
    destruct (List.find _ (executions w1)) as [e1|],
             (List.find _ (executions w2)) as [e2|]; try discriminate.
    + rewrite (advance_erase_status now result e1 e2)
        by exact (f_equal (default (erase_status e1)) F1).
      by apply respects_advance.
    + by split.
  - apply respects_bind.
    { apply respects_execution_update. apply execution_set_finished_erase. }
    intros _.
    apply respects_bind; [apply respects_stepExecution_updateMany |].
    intros _.
    apply respects_bind; [apply respects_recordAudit |].
    intros _. apply respects_emit_done.
Qed.

Lemma keeps_ret {A} P (a : A) : keeps P (mret a).
Proof. by intros w. Qed.

Lemma keeps_throw {A} P e : keeps P (@throw A e).
Proof. by intros w. Qed.

Lemma keeps_bind {A B} P (m : M A) (k : A → M B) :
  keeps P m → (∀ a, keeps P (k a)) → keeps P (m ≫= k).
Proof.
  intros Hm Hk w HP. unfold mbind, M_bind.
  specialize (Hm w HP). destruct (m w) as [[a|e] w1]; cbn in *; [by apply Hk | done].
Qed.

Lemma keeps_for_each {A} P (xs : list A) body :
  (∀ x, keeps P (body x)) → keeps P (for_each xs body).
Proof.
  intros Hb. induction xs as [|x xs IH]; cbn.
  - apply keeps_ret.
  - apply keeps_bind; auto.
Qed.

Lemma keeps_of_preserves {A} sid st (m : M A) :
  preserves steps m → keeps (recorded sid st) m.
Proof. intros Hm w HP. unfold recorded. by rewrite Hm. Qed.

(** [create] either throws, leaving the steps as they were, or appends a
    row whose id no earlier row has. *)
Lemma stepExecution_create_cases eid nid label type status attempts started completed w :
  let r := stepExecution_create eid nid label type status attempts started completed w in
  (∃ e, r.1 = Throw e ∧ steps r.2 = steps w) ∨
  (∃ row, r.1 = Ok row ∧ steps r.2 = steps w ++ [row] ∧
          ∀ s, s ∈ steps w → st_id s ≠ st_id row).
Proof.
  unfold stepExecution_create.
  rewrite (bind_ok _ _ w w w) by reflexivity.
  destruct (existsb _ (executions w)); [| left; by eexists].
  rewrite (bind_ok _ _ w ("id-" +:+ pretty (nextId w)) (set_nextId N.succ w))
    by reflexivity.
  destruct (existsb _ (steps w)) eqn:E; [left; by eexists |].
  right. eexists. split; [reflexivity |]. split; [reflexivity |].
  intros s Hs Heq. cbn in Heq.
  assert (existsb (λ s, bool_decide (st_id s = "id-" +:+ pretty (nextId w))) (steps w)
          = true) as Ht; [| cbn in E; congruence].
  apply existsb_exists. exists s. split; [by apply list_elem_of_In |].
  by apply bool_decide_eq_true_2.
Qed.

Lemma keeps_stepExecution_create sid st eid nid label type status attempts started completed :
  keeps (recorded sid st)
    (stepExecution_create eid nid label type status attempts started completed).
Proof.
  intros w (s & Hs & Hid & Hst).
  destruct (stepExecution_create_cases eid nid label type status attempts
              started completed w) as [(e & _ & Hsteps) | (row & _ & Hsteps & _)];
    exists s; rewrite Hsteps; [done |].
  split; [| done]. apply elem_of_app. by left.
Qed.

Lemma keeps_skipBranch sid st depth now definition eid completed pending :
  ∀ nodeIds,
    keeps (recorded sid st)
      (skipBranch depth now nodeIds definition eid completed pending).
Proof.
  induction depth as [|depth IH]; intros nodeIds; cbn [skipBranch].
  - apply keeps_throw.
  - apply keeps_for_each. intros nodeId.
    destruct (_ || _); [apply keeps_ret |].
    destruct (List.find _ _); [| apply keeps_ret].
    destruct (bool_decide _); [apply keeps_ret |].
    apply keeps_bind; [apply keeps_stepExecution_create |].
    intros _. destruct (bool_decide _); [apply IH | apply keeps_ret].
Qed.

Lemma then_ret_snd {A B} (m : M A) (b : B) w :
  ((m ≫= λ _, mret b) w).2 = (m w).2.
Proof. unfold mbind, M_bind. by destruct (m w) as [[a|e] w1]. Qed.

Lemma stepExecution_delete_steps id w :
  steps (stepExecution_delete id w).2 = filter (λ s, st_id s ≠ id) (steps w) ∨
  steps (stepExecution_delete id w).2 = steps w.
Proof.
  unfold stepExecution_delete.
  rewrite (bind_ok _ _ w w w) by reflexivity.
  destruct (existsb _ _); [by left | by right].
Qed.

(** Publishing a node keeps every row that was there: the only row it may
    delete is the one it has just created. *)
Lemma keeps_publishJob sid st now eid node input previousResults attempt :
  keeps (recorded sid st) (publishJob now eid node input previousResults attempt).
Proof.
  intros w (s & Hs & Hid & Hst). unfold publishJob.
  pose proof (stepExecution_create_cases eid (node_id node) (node_label node)
                (node_type node) StPending attempt (Some now) None w) as Hc.
  destruct (stepExecution_create _ _ _ _ _ _ _ _ w) as [o w1] eqn:E.
  cbn in Hc. destruct Hc as [(e & -> & Hsteps) | (row & -> & Hsteps & Hfresh)].
  - rewrite (bind_throw _ _ _ _ _ E). exists s. cbn. by rewrite Hsteps.
  - rewrite (bind_ok _ _ _ _ _ E).
    assert (s ∈ steps w1) as Hs1 by (rewrite Hsteps; apply elem_of_app; by left).
    set (key := Idempotency.generateKey eid (node_id node)).
    assert (steps (idempotency_checkAndSet now key (st_id row) w1).2 = steps w1) as Hi
      by (by apply preserves_idempotency_checkAndSet).
    destruct (idempotency_checkAndSet now key (st_id row) w1) as [[check|e] w2] eqn:E2;
      cbn in Hi.
    2:{ rewrite (bind_throw _ _ _ _ _ E2). exists s. cbn. by rewrite Hi. }
    rewrite (bind_ok _ _ _ _ _ E2).
    destruct (duplicate_of check).
    + rewrite then_ret_snd.
      destruct (stepExecution_delete_steps (st_id row) w2) as [Hd | Hd];
        exists s; rewrite Hd; [| by rewrite Hi].
      split; [| done]. apply list_elem_of_filter. rewrite Hi.
      split; [exact (Hfresh s Hs) | done].
    + cut (recorded sid st w2 →
           recorded sid st
             ((backpressure_canAccept ≫= λ ok : bool,
               if ok then
                 JobQueue_enqueue
                   {| job_id := st_id row; job_executionId := eid;
                      job_stepId := st_id row; job_node := node;
                      job_input := input; job_previousResults := previousResults;
                      job_attempt := attempt; job_maxRetries := getMaxRetries node;
                      job_createdAt := now |};;
                 mret (st_id row)
               else
                 modify (set_backpressure Backpressure.recordRejection);;
                 mret (st_id row)) w2).2).
      { intros Hcut. apply Hcut. exists s. by rewrite Hi. }
      apply keeps_of_preserves. frame.
Qed.

Lemma keeps_advance sid st now result execution :
  keeps (recorded sid st) (advance now result execution).
Proof.
  unfold advance.
  apply keeps_bind; [apply keeps_of_preserves; frame |].
  intros [workflow|]; [| apply keeps_throw].
  apply keeps_bind; [apply keeps_of_preserves; frame |].
  intros steps0.
  apply keeps_bind.
  { destruct (bool_decide _); [apply keeps_skipBranch | apply keeps_ret]. }
  intros _.
  apply keeps_bind; [apply keeps_of_preserves; frame |].
  intros updatedSteps. cbv zeta.
  destruct (bool_decide _).
  - apply keeps_for_each. intros node.
    apply keeps_bind; [apply keeps_publishJob | intros; apply keeps_ret].
  - destruct (bool_decide _); [| apply keeps_ret].
    apply keeps_of_preserves.
    apply preserves_bind; [by apply preserves_execution_update |].
    intros _. frame.
Qed.

Lemma update_where_elem {A} (p : A → bool) (g : A → A) (l : list A) y :
  y ∈ update_where p g l ↔ ∃ x, x ∈ l ∧ y = (if p x then g x else x).
Proof.
  unfold update_where. rewrite list_elem_of_fmap.
  split; intros (x & H1 & H2); exists x; by split.
Qed.



(** ** Cron: the next run time is a time to run *)

Section CronFacts.
Import CronParser.

(** What the search returns satisfies the test it searched for. *)
Lemma search_matches tz fields remaining : ∀ candidate d,
  search tz fields remaining candidate = Some d → matches tz fields d = true.
Proof.
  induction remaining as [|remaining IH]; intros candidate d; cbn [search].
  - discriminate.
  - destruct (matches tz fields candidate) eqn:Hm.
    + intros [= <-]. exact Hm.
    + apply IH.
Qed.

(** The search moves forward by whole minutes from its first candidate. *)
Lemma search_minutes tz fields remaining : ∀ candidate d,
  search tz fields remaining candidate = Some d →
  ∃ k : nat, (k < remaining)%nat ∧ d = candidate + 60000 * Z.of_nat k.
Proof.
  induction remaining as [|remaining IH]; intros candidate d; cbn [search].
  - discriminate.
  - destruct (matches tz fields candidate).
    + intros [= <-]. exists 0%nat. split; lia.
    + intros H. destruct (IH _ _ H) as (k & Hk & ->).
      exists (S k). split; lia.
Qed.

(** C8.  Whenever [getNextRunTime e t] returns a date [d] (which it only
    does for an expression that parses), [shouldRun e d] is true; this
    holds in every time zone offset [tz]. *)
Theorem shouldRun_getNextRunTime :
  ∀ (tz : Z) (e : string) (t d : Z),
    getNextRunTime tz e t = Some d → shouldRun tz e d = true.
Proof.
  intros tz e t d. unfold getNextRunTime, shouldRun.
  destruct (parseCron e) as [fields|message]; [| discriminate].
  apply search_matches.
Qed.

Lemma shouldRun_getNextRunTime_witness :
  shouldRun 330 "*/15 9-17 * * 1-5" 12600000 = true.
Proof.
  apply (shouldRun_getNextRunTime 330 "*/15 9-17 * * 1-5" 1000 12600000).
  vm_compute. reflexivity.
Defined.

End CronFacts.

(** ** The condition handler *)

Section ConditionFacts.
Import Js ConditionHandler.

(** Swapping the operands of the IEEE comparison mirrors its answer. *)
Lemma SFcompare_swap x y : SFcompare y x = CompOpp <$> SFcompare x y.
Proof.
  destruct x as [sx|sx| |sx mx ex], y as [sy|sy| |sy my ey]; cbn;
    try reflexivity; try (by destruct sx); try (by destruct sy);
    try (by destruct sx, sy).
  destruct sx, sy; cbn; try reflexivity.
  - rewrite (Z.compare_antisym ey ex).
    destruct (ey ?= ex); cbn; try reflexivity.
    rewrite (Pos.compare_cont_antisym mx my Eq). cbn.
    by destruct (Pos.compare_cont Eq mx my).
  - rewrite (Z.compare_antisym ey ex).
    destruct (ey ?= ex); cbn; try reflexivity.
    by rewrite (Pos.compare_cont_antisym mx my Eq).
Qed.

Lemma SFltb_swap x y : SFltb y x = true ↔ SFcompare x y = Some Gt.
Proof.
  unfold SFltb. rewrite SFcompare_swap.
  destruct (SFcompare x y) as [[]|]; cbn; split; congruence.
Qed.

Lemma SFleb_swap x y :
  SFleb y x = true ↔ SFcompare x y = Some Gt ∨ SFcompare x y = Some Eq.
Proof.
  unfold SFleb. rewrite SFcompare_swap.
  destruct (SFcompare x y) as [[]|]; cbn; split; try congruence; intuition congruence.
Qed.

Lemma SFcompare_NaN x y :
  is_NaN x = true ∨ is_NaN y = true → SFcompare x y = None.
Proof. intros [H|H]; destruct x, y; cbn in *; congruence. Qed.

Lemma walk_nullish runtime path v :
  v = Json VUndefined ∨ v = Json VNull → walk runtime v path = Ok v.
Proof. intros [-> | ->]; by destruct path. Qed.

(** Walking a path is walking its first part and then the rest. *)
Lemma walk_app runtime p1 p2 : ∀ v,
  walk runtime v (p1 ++ p2)
    = match walk runtime v p1 with
      | Ok v' => walk runtime v' p2
      | Throw e => Throw e
      end.
Proof.
  induction p1 as [|key p1 IH]; intros v; [reflexivity |].
  cbn [app walk].
  destruct v as [[]|b]; try (by rewrite walk_nullish; auto);
    (destruct (get_prop runtime _ key) as [v'|e]; [apply IH | reflexivity]).
Qed.

Lemma split_nonempty c s : JsString.split c s ≠ [].
Proof.
  destruct s as [|a s]; cbn; [done |].
  destruct (Ascii.eqb a c); [done |]. by destruct (JsString.split c s).
Qed.

Lemma resolveValue_reference S2N runtime token prev :
  startsWith "$" token = true →
  resolveValue S2N runtime token prev = resolve_path runtime (path_of token) prev.
Proof. intros Hs. unfold resolveValue. by rewrite Hs. Qed.

Lemma resolve_path_app runtime p1 p2 prev :
  p1 ≠ [] →
  resolve_path runtime (p1 ++ p2) prev
    = match resolve_path runtime p1 prev with
      | Ok v => walk runtime v p2
      | Throw e => Throw e
      end.
Proof.
  destruct p1 as [|nodeId p1]; [done |]. intros _. cbn [app resolve_path].
  destruct (get_prop runtime _ nodeId) as [v|e]; [apply walk_app | reflexivity].
Qed.




End ConditionFacts.

(** ** The DAG validator *)

Section DagFacts.
Import Validations.

(** *** The structural checks *)

Lemma duplicate_ids_nil ids : ∀ seen,
  duplicate_ids seen ids = [] → NoDup ids ∧ ∀ x, x ∈ ids → x ∉ seen.
Proof.
  induction ids as [|id rest IH]; intros seen H; cbn in H.
  - split; [constructor | intros x Hx; by apply elem_of_nil in Hx].
  - apply app_eq_nil in H as [H1 H2].
    case_bool_decide as Hin; [discriminate |].
    destruct (IH _ H2) as [Hnd Hdis]. split.
    + constructor; [| done]. intros Hid. apply (Hdis id Hid).
      apply elem_of_union. left. by apply elem_of_singleton.
    + intros x [-> | Hx]%elem_of_cons; [done |].
      intros Hs. apply (Hdis x Hx). apply elem_of_union. by right.
Qed.

Lemma start_count_errors_nil l : start_count_errors l = [] → length l = 1%nat.
Proof.
  unfold start_count_errors. repeat case_bool_decide; try discriminate. lia.
Qed.

Lemma edge_reference_errors_nil nodeIds e :
  edge_reference_errors nodeIds e = [] →
  edge_source e ∈ nodeIds ∧ edge_target e ∈ nodeIds.
Proof.
  unfold edge_reference_errors. intros [H1 H2]%app_eq_nil.
  repeat case_bool_decide; try discriminate. done.
Qed.

Lemma concat_map_nil {A B} (f : A → list B) (l : list A) :
  concat (map f l) = [] → ∀ x, x ∈ l → f x = [].
Proof.
  induction l as [|y l IH]; cbn; intros H x Hx; [by apply elem_of_nil in Hx |].
  apply app_eq_nil in H as [H1 H2].
  apply elem_of_cons in Hx as [-> | Hx]; auto.
Qed.

(** A definition that passes the structural checks has distinct node ids,
    exactly one start node, and edges between its own nodes. *)
Lemma structural_errors_nil D :
  structural_errors D = [] →
  NoDup (map node_id (nodes D)) ∧
  length (filter (λ n, node_type n = NStart) (nodes D)) = 1%nat ∧
  ∀ e, e ∈ edges D →
    edge_source e ∈ map node_id (nodes D) ∧ edge_target e ∈ map node_id (nodes D).
Proof.
  unfold structural_errors.
  intros H.
  apply app_eq_nil in H as [H1 H]. apply app_eq_nil in H as [H2 H].
  apply app_eq_nil in H as [H3 H]. apply app_eq_nil in H as [H4 H5].
  split; [| split].
  - apply fmap_nil_inv in H1. by apply duplicate_ids_nil in H1 as [? _].
  - by apply start_count_errors_nil.
  - intros e He. pose proof (concat_map_nil _ _ H5 e He) as Hr.
    apply edge_reference_errors_nil in Hr as [Hs Ht].
    by rewrite !elem_of_list_to_set in Hs, Ht.
Qed.

(** *** The two maps *)

Lemma init_adjacency_lookup ns k :
  init_adjacency ns !! k
  = if decide (k ∈ map node_id ns) then Some [] else None.
Proof.
  unfold init_adjacency.
  assert (∀ m0 : gmap string (list string),
            fold_left (λ m n, <[node_id n := []]> m) ns m0 !! k
            = if decide (k ∈ map node_id ns) then Some [] else m0 !! k) as H.
  { induction ns as [|n ns IH]; intros m0; cbn [fold_left map].
    - by rewrite decide_False by apply not_elem_of_nil.
    - rewrite IH. destruct (decide (k ∈ map node_id ns)) as [Hin|Hin].
      + rewrite decide_True; [done | by right].
      + destruct (decide (k = node_id n)) as [->|Hne].
        * rewrite lookup_insert_eq. rewrite decide_True; [done | by left].
        * rewrite lookup_insert_ne by done.
          rewrite decide_False; [done |].
          by intros [? | ?]%elem_of_cons. }
  by rewrite H, lookup_empty.
Qed.

Lemma init_inDegree_lookup ns k :
  init_inDegree ns !! k
  = if decide (k ∈ map node_id ns) then Some 0 else None.
Proof.
  unfold init_inDegree.
  assert (∀ m0 : gmap string Z,
            fold_left (λ m n, <[node_id n := 0]> m) ns m0 !! k
            = if decide (k ∈ map node_id ns) then Some 0 else m0 !! k) as H.
  { induction ns as [|n ns IH]; intros m0; cbn [fold_left map].
    - by rewrite decide_False by apply not_elem_of_nil.
    - rewrite IH. destruct (decide (k ∈ map node_id ns)) as [Hin|Hin].
      + rewrite decide_True; [done | by right].
      + destruct (decide (k = node_id n)) as [->|Hne].
        * rewrite lookup_insert_eq. rewrite decide_True; [done | by left].
        * rewrite lookup_insert_ne by done.
          rewrite decide_False; [done |].
          by intros [? | ?]%elem_of_cons. }
  by rewrite H, lookup_empty.
Qed.

Lemma targets_from_cons e es k :
  targets_from (e :: es) k
  = (if decide (edge_source e = k) then [edge_target e] else [])
      ++ targets_from es k.
Proof.
  unfold targets_from. rewrite filter_cons.
  by destruct (decide (edge_source e = k)).
Qed.

Lemma build_adjacency_lookup es : ∀ (m : gmap string (list string)) k,
  build_adjacency es m !! k = (λ l, l ++ targets_from es k) <$> (m !! k).
Proof.
  induction es as [|e es IH]; intros m k.
  - cbn. unfold targets_from. cbn. destruct (m !! k); cbn; [| done].
    by rewrite app_nil_r.
  - change (build_adjacency (e :: es) m)
      with (build_adjacency es
              (alter (λ l, l ++ [edge_target e]) (edge_source e) m)).
    rewrite IH, targets_from_cons, lookup_alter.
    destruct (decide (edge_source e = k)) as [<-|Hne].
    + destruct (m !! edge_source e); cbn; [| done]. by rewrite <- app_assoc.
    + done.
Qed.

(** The adjacency list of a node is the list of its edges' targets. *)
Lemma adjacency_spec ns es k :
  default [] (build_adjacency es (init_adjacency ns) !! k)
  = if decide (k ∈ map node_id ns) then targets_from es k else [].
Proof.
  rewrite build_adjacency_lookup, init_adjacency_lookup.
  by destruct (decide _).
Qed.

Lemma count_into_cons e es v :
  count_into (e :: es) v
  = (if decide (edge_target e = v) then 1 else 0) + count_into es v.
Proof.
  unfold count_into. rewrite filter_cons.
  destruct (decide (edge_target e = v)); cbn [length]; lia.
Qed.

Lemma build_inDegree_dg es : ∀ (m : gmap string Z) v,
  dg (build_inDegree es m) v = dg m v + count_into es v.
Proof.
  induction es as [|e es IH]; intros m v.
  - cbn. unfold count_into. cbn. lia.
  - change (build_inDegree (e :: es) m)
      with (build_inDegree es
              (<[edge_target e := default 0 (m !! edge_target e) + 1]> m)).
    rewrite IH, count_into_cons. unfold dg.
    destruct (decide (edge_target e = v)) as [<-|Hne].
    + rewrite lookup_insert_eq. cbn. lia.
    + rewrite lookup_insert_ne by done. lia.
Qed.

Lemma build_inDegree_is_Some es : ∀ (m : gmap string Z) v,
  is_Some (m !! v) → is_Some (build_inDegree es m !! v).
Proof.
  induction es as [|e es IH]; intros m v H; [done |].
  change (build_inDegree (e :: es) m)
    with (build_inDegree es
            (<[edge_target e := default 0 (m !! edge_target e) + 1]> m)).
  apply IH. destruct (decide (edge_target e = v)) as [<-|Hne].
  - rewrite lookup_insert_eq. by eexists.
  - by rewrite lookup_insert_ne.
Qed.

(** The in-degree map holds, for each node, the number of edges into it. *)
Lemma inDegree_spec ns es v :
  v ∈ map node_id ns →
  build_inDegree es (init_inDegree ns) !! v = Some (count_into es v).
Proof.
  intros Hv.
  assert (is_Some (build_inDegree es (init_inDegree ns) !! v)) as [d Hd].
  { apply build_inDegree_is_Some. rewrite init_inDegree_lookup.
    rewrite decide_True by done. by eexists. }
  pose proof (build_inDegree_dg es (init_inDegree ns) v) as H.
  unfold dg in H. rewrite Hd, init_inDegree_lookup, decide_True in H by done.
  cbn in H. rewrite Hd. f_equal. lia.
Qed.

(** *** The inner loop of Kahn's algorithm *)

Lemma occurrences_cons x l k :
  occurrences k (x :: l) = (if decide (x = k) then 1 else 0) + occurrences k l.
Proof.
  unfold occurrences. rewrite filter_cons.
  destruct (decide (x = k)); cbn [length]; lia.
Qed.

Lemma occurrences_nonneg k l : 0 <= occurrences k l.
Proof. unfold occurrences. lia. Qed.

(** Each neighbour's degree drops by the number of times it occurs. *)
Lemma relax_dg neighbors : ∀ m q v,
  dg (relax neighbors (m, q)).1 v = dg m v - occurrences v neighbors.
Proof.
  induction neighbors as [|n rest IH]; intros m q v.
  - cbn. unfold occurrences. cbn. lia.
  - change (relax (n :: rest) (m, q))
      with (relax rest
              (<[n := default 0 (m !! n) - 1]> m,
               if bool_decide (default 0 (m !! n) - 1 = 0) then q ++ [n] else q)).
    rewrite IH, occurrences_cons. unfold dg.
    destruct (decide (n = v)) as [->|Hne].
    + rewrite lookup_insert_eq. cbn. lia.
    + rewrite lookup_insert_ne by done. lia.
Qed.

(** The queue grows by the neighbours whose degree reached zero: each
    had a positive degree before, has none left after, and is pushed once. *)
Lemma relax_queue neighbors : ∀ m q,
  ∃ pushed,
    (relax neighbors (m, q)).2 = q ++ pushed ∧
    NoDup pushed ∧
    ∀ v, v ∈ pushed →
      v ∈ neighbors ∧ 1 <= dg m v ∧ dg (relax neighbors (m, q)).1 v <= 0.
Proof.
  induction neighbors as [|n rest IH]; intros m q.
  - exists []. cbn. rewrite app_nil_r. split; [done |]. split; [constructor |].
    intros v Hv. by apply elem_of_nil in Hv.
  - change (relax (n :: rest) (m, q))
      with (relax rest
              (<[n := default 0 (m !! n) - 1]> m,
               if bool_decide (default 0 (m !! n) - 1 = 0) then q ++ [n] else q)).
    set (m1 := <[n := default 0 (m !! n) - 1]> m).
    assert (∀ v, dg m1 v = dg m v - (if decide (n = v) then 1 else 0)) as Hm1.
    { intros v. unfold dg, m1. destruct (decide (n = v)) as [->|Hne].
      - rewrite lookup_insert_eq. cbn. lia.
      - rewrite lookup_insert_ne by done. lia. }
    case_bool_decide as Hzero.
    + destruct (IH m1 (q ++ [n])) as (pushed & Hq & Hnd & Hp).
      exists (n :: pushed). rewrite Hq, <- app_assoc. split; [done |]. split.
      * constructor; [| done]. intros Hin.
        destruct (Hp n Hin) as (_ & Hge & _).
        rewrite Hm1, decide_True in Hge by done. fold (dg m n) in Hzero. lia.
      * intros v [-> | Hv]%elem_of_cons.
        -- split; [by left |]. fold (dg m n) in Hzero. split; [lia |].
           rewrite relax_dg, Hm1, decide_True by done.
           pose proof (occurrences_nonneg n rest). lia.
        -- destruct (Hp v Hv) as (Hin & Hge & Hle).
           split; [by right |]. split; [| done].
           rewrite Hm1 in Hge. destruct (decide (n = v)); lia.
    + destruct (IH m1 q) as (pushed & Hq & Hnd & Hp).
      exists pushed. split; [done |]. split; [done |].
      intros v Hv. destruct (Hp v Hv) as (Hin & Hge & Hle).
      split; [by right |]. split; [| done].
      rewrite Hm1 in Hge. destruct (decide (n = v)); lia.
Qed.

(** *** Counting the edges that come from processed nodes *)

Lemma into_cons e es done v :
  into (e :: es) done v
  = (if decide (edge_target e = v ∧ edge_source e ∈ done) then 1 else 0)
    + into es done v.
Proof.
  unfold into. rewrite filter_cons.
  destruct (decide (edge_target e = v ∧ edge_source e ∈ done)); cbn [length]; lia.
Qed.

Lemma into_nil es v : into es [] v = 0.
Proof.
  induction es as [|e es IH]; [done |].
  rewrite into_cons, IH, decide_False; [done |].
  intros [_ H]. by apply elem_of_nil in H.
Qed.

Lemma into_le es done v : into es done v <= count_into es v.
Proof.
  induction es as [|e es IH]; [done |].
  rewrite into_cons, count_into_cons.
  destruct (decide (edge_target e = v ∧ edge_source e ∈ done)) as [[Ht _]|Hn].
  - rewrite decide_True by done. lia.
  - destruct (decide (edge_target e = v)); lia.
Qed.

(** Processing [current] accounts for the edges that leave it. *)
Lemma into_snoc es done current v :
  current ∉ done →
  into es (done ++ [current]) v
  = into es done v + occurrences v (targets_from es current).
Proof.
  intros Hnew. induction es as [|e es IH]; [done |].
  rewrite !into_cons, IH, targets_from_cons.
  destruct (decide (edge_source e = current)) as [Hs|Hs].
  - cbn [app]. rewrite occurrences_cons.
    destruct (decide (edge_target e = v)) as [Ht|Ht].
    + rewrite decide_True.
      2:{ split; [done |]. apply elem_of_app. right. rewrite Hs. by left. }
      rewrite decide_False; [lia |]. intros [_ Hin]. by rewrite Hs in Hin.
    + rewrite !decide_False by (by intros [? _]). lia.
  - cbn [app].
    destruct (decide (edge_target e = v ∧ edge_source e ∈ done)) as [[Ht Hin]|Hn].
    + rewrite decide_True; [lia |]. split; [done |]. apply elem_of_app. by left.
    + rewrite decide_False; [lia |]. intros [Ht Hin]. apply Hn. split; [done |].
      apply elem_of_app in Hin as [Hin | Hin]; [done |].
      apply list_elem_of_singleton in Hin. done.
Qed.

(** When as many edges into [v] come from [done] as there are edges into
    [v], they all do. *)
Lemma into_all es done v :
  count_into es v <= into es done v →
  ∀ e, e ∈ es → edge_target e = v → edge_source e ∈ done.
Proof.
  induction es as [|e es IH]; intros Hle e' He' Ht; [by apply elem_of_nil in He' |].
  rewrite into_cons, count_into_cons in Hle.
  pose proof (into_le es done v) as Hrest.
  destruct (decide (edge_target e = v ∧ edge_source e ∈ done)) as [[Hte Hin]|Hn].
  - rewrite decide_True in Hle by done.
    apply elem_of_cons in He' as [-> | He']; [done |].
    apply IH; [lia | done | done].
  - destruct (decide (edge_target e = v)) as [Hte|Hte].
    + lia.
    + apply elem_of_cons in He' as [-> | He']; [done |].
      apply IH; [lia | done | done].
Qed.

Lemma count_into_pos es e :
  e ∈ es → 1 <= count_into es (edge_target e).
Proof.
  induction es as [|e' es IH]; intros He; [by apply elem_of_nil in He |].
  rewrite count_into_cons.
  apply elem_of_cons in He as [<- | He].
  - rewrite decide_True by done. unfold count_into. lia.
  - specialize (IH He). destruct (decide _); lia.
Qed.

Lemma targets_from_elem es k v :
  v ∈ targets_from es k ↔ ∃ e, e ∈ es ∧ edge_source e = k ∧ edge_target e = v.
Proof.
  unfold targets_from. rewrite list_elem_of_fmap. split.
  - intros (e & -> & [Hs He]%list_elem_of_filter). by exists e.
  - intros (e & He & Hs & Ht). exists e. split; [done |].
    by apply list_elem_of_filter.
Qed.

(** *** Order in a list *)

Lemma before_app_l l l' u v : before l u v → before (l ++ l') u v.
Proof.
  intros (i & j & Hi & Hj & Hij). exists i, j.
  split; [by apply lookup_app_l_Some |]. split; [by apply lookup_app_l_Some | done].
Qed.

Lemma before_app_new l l' u v : u ∈ l → v ∈ l' → before (l ++ l') u v.
Proof.
  intros (i & Hi)%list_elem_of_lookup (j & Hj)%list_elem_of_lookup.
  exists i, (length l + j)%nat.
  split; [by apply lookup_app_l_Some |]. split.
  - rewrite lookup_app_r by lia. by replace (length l + j - length l)%nat with j by lia.
  - apply lookup_lt_Some in Hi. lia.
Qed.

Lemma before_trans l u v w :
  NoDup l → before l u v → before l v w → before l u w.
Proof.
  intros Hnd (i & j & Hi & Hj & Hij) (j' & k & Hj' & Hk & Hjk).
  assert (j = j') as <- by (eapply NoDup_lookup; eauto).
  exists i, k. split; [done |]. split; [done | lia].
Qed.

Lemma before_irrefl l u : NoDup l → ¬ before l u u.
Proof.
  intros Hnd (i & j & Hi & Hj & Hij).
  assert (i = j) by (eapply NoDup_lookup; eauto). lia.
Qed.

(** *** Kahn's algorithm *)

Section Kahn.
Variable D : WorkflowDefinition.
Hypothesis ids_nodup : NoDup (map node_id (nodes D)).
Hypothesis edges_closed :
  ∀ e, e ∈ edges D →
    edge_source e ∈ map node_id (nodes D) ∧ edge_target e ∈ map node_id (nodes D).

Lemma kahn_inv_init :
  let m := build_inDegree (edges D) (init_inDegree (nodes D)) in
  kahn_inv D [] (initial_queue (nodes D) m) m.
Proof.
  intros m. unfold kahn_inv. cbn [app].
  assert (∀ v, v ∈ initial_queue (nodes D) m →
               v ∈ map node_id (nodes D) ∧ dg m v = 0) as Hq.
  { intros v [Hv Hin]%list_elem_of_filter. split; [done |].
    unfold dg. by rewrite Hv. }
  assert (∀ v, v ∈ map node_id (nodes D) → dg m v = count_into (edges D) v) as Hm.
  { intros v Hv. unfold dg, m. by rewrite inDegree_spec. }
  split; [| split; [| split; [| split]]].
  - unfold initial_queue. by apply NoDup_filter.
  - intros x Hx. by apply Hq.
  - intros v Hv. rewrite into_nil, Hm by done. lia.
  - intros v Hv. destruct (Hq v Hv) as [_ ->]. lia.
  - intros e He Ht. destruct (Hq _ Ht) as [Hid Hz].
    rewrite Hm in Hz by done. pose proof (count_into_pos _ _ He). lia.
Qed.

(** One iteration keeps the invariant. *)
Lemma kahn_inv_step done current rest m :
  kahn_inv D done (current :: rest) m →
  let state :=
    relax (default [] (build_adjacency (edges D) (init_adjacency (nodes D)) !! current))
      (m, rest) in
  kahn_inv D (done ++ [current]) state.2 state.1.
Proof.
  intros (Hnd & Hids & Hdg & Hzero & Hbefore) state. subst state.
  assert (current ∈ map node_id (nodes D)) as Hcur
    by (apply Hids, elem_of_app; right; by left).
  rewrite adjacency_spec, decide_True by done.
  set (ts := targets_from (edges D) current).
  destruct (relax_queue ts m rest) as (pushed & Hq & Hpnd & Hp).
  pose proof (relax_dg ts m rest) as Hdg'.
  destruct (relax ts (m, rest)) as [m' q'] eqn:E. cbn [fst snd] in *. subst q'.
  assert (current ∉ done) as Hnew.
  { apply NoDup_app in Hnd as (_ & Hdisj & _). intros Hin.
    apply (Hdisj current Hin). by left. }
  assert ((done ++ [current]) ++ rest ++ pushed = (done ++ current :: rest) ++ pushed)
    as Hshape by (by rewrite <- !app_assoc).
  assert (∀ v, v ∈ pushed → v ∉ done ++ current :: rest) as Hfresh.
  { intros v Hv Hin. destruct (Hp v Hv) as (_ & Hge & _).
    specialize (Hzero v Hin). lia. }
  assert (∀ v, v ∈ pushed → v ∈ map node_id (nodes D)) as Hpids.
  { intros v Hv. destruct (Hp v Hv) as (Hin & _ & _).
    apply targets_from_elem in Hin as (e & He & _ & <-). by apply edges_closed. }
  assert (∀ v, v ∈ map node_id (nodes D) →
               dg m' v = count_into (edges D) v
                         - into (edges D) (done ++ [current]) v) as Hdg2.
  { intros v Hv. rewrite Hdg', Hdg, into_snoc by done. fold ts. lia. }
  unfold kahn_inv. rewrite Hshape.
  split; [| split; [| split; [| split]]].
  - apply NoDup_app. split; [done |]. split; [| done].
    intros x Hx Hpx. by apply (Hfresh x Hpx).
  - intros x [Hx | Hx]%elem_of_app; [by apply Hids | by apply Hpids].
  - exact Hdg2.
  - intros v [Hv | Hv]%elem_of_app.
    + rewrite Hdg'. specialize (Hzero v Hv).
      pose proof (occurrences_nonneg v ts). lia.
    + by destruct (Hp v Hv) as (_ & _ & Hle).
  - intros e He [Ht | Ht]%elem_of_app.
    + apply before_app_l. by apply Hbefore.
    + destruct (Hp _ Ht) as (_ & _ & Hle).
      rewrite Hdg2 in Hle by (by apply Hpids).
      assert (edge_source e ∈ done ++ [current]) as Hsrc.
      { eapply into_all; [| exact He | reflexivity]. lia. }
      apply before_app_new; [| done].
      apply elem_of_app in Hsrc as [Hs | Hs%list_elem_of_singleton];
        apply elem_of_app; [by left | right; rewrite Hs; by left].
Qed.

(** When the loop ends, the invariant holds of the nodes it processed
    and the empty queue, and the count is their number. *)
Lemma kahn_inv_loop bound : ∀ m queue done n,
  kahn_inv D done queue m →
  kahn bound (build_adjacency (edges D) (init_adjacency (nodes D))) m queue
    (length done) = Some n →
  ∃ final m', kahn_inv D final [] m' ∧ n = length final.
Proof.
  induction bound as [|bound IH]; intros m queue done n Hinv Hk; [discriminate |].
  cbn [kahn] in Hk. destruct queue as [|current rest].
  - injection Hk as <-. by exists done, m.
  - pose proof (kahn_inv_step _ _ _ _ Hinv) as Hstep. cbn zeta in Hstep.
    destruct (relax _ (m, rest)) as [m' q'] eqn:E. cbn [fst snd] in Hstep.
    apply (IH m' q' (done ++ [current]) n Hstep).
    by rewrite length_app, Nat.add_1_r.
Qed.

(** If the loop counts as many nodes as there are, the order in which it
    processed them is a topological ordering. *)
Lemma kahn_all_processed :
  let m := build_inDegree (edges D) (init_inDegree (nodes D)) in
  kahn (S (length (nodes D))) (build_adjacency (edges D) (init_adjacency (nodes D)))
    m (initial_queue (nodes D) m) 0 = Some (length (nodes D)) →
  ∃ order, topological_ordering D order.
Proof.
  intros m Hk.
  destruct (kahn_inv_loop _ m _ [] _ kahn_inv_init Hk)
    as (final & m' & (Hnd & Hids & _ & _ & Hbefore) & Hlen).
  rewrite app_nil_r in *.
  exists final. split; [| split; [done |]].
  - apply submseteq_length_Permutation.
    + by apply NoDup_submseteq.
    + rewrite length_map. lia.
  - intros e He. apply Hbefore; [done |].
    assert (final ≡ₚ map node_id (nodes D)) as Hperm.
    { apply submseteq_length_Permutation.
      - by apply NoDup_submseteq.
      - rewrite length_map. lia. }
    rewrite Hperm. by apply edges_closed.
Qed.

(** The bound that [validateDAG] gives the loop is enough: it never runs
    out while nodes are left in the queue. *)
Lemma kahn_terminates bound : ∀ m queue done,
  kahn_inv D done queue m →
  (length (nodes D) - length done < bound)%nat →
  is_Some (kahn bound (build_adjacency (edges D) (init_adjacency (nodes D)))
             m queue (length done)).
Proof.
  induction bound as [|bound IH]; intros m queue done Hinv Hb; [lia |].
  cbn [kahn]. destruct queue as [|current rest]; [by eexists |].
  pose proof (kahn_inv_step _ _ _ _ Hinv) as Hstep. cbn zeta in Hstep.
  destruct Hinv as (Hnd & Hids & _).
  assert (length (done ++ current :: rest) <= length (map node_id (nodes D)))%nat
    as Hlen by (by apply submseteq_length, NoDup_submseteq).
  rewrite length_app, length_map in Hlen. cbn [length] in Hlen.
  destruct (relax _ (m, rest)) as [m' q'] eqn:E. cbn [fst snd] in Hstep.
  replace (S (length done)) with (length (done ++ [current]))
    by (rewrite length_app; cbn; lia).
  apply IH; [done |]. rewrite length_app. cbn [length]. lia.
Qed.

End Kahn.

(** A definition with a topological ordering has no cycle. *)
Lemma topological_ordering_acyclic D order :
  topological_ordering D order → acyclic D.
Proof.
  intros (_ & Hnd & Hedges) u Hcycle.
  assert (∀ x y, tc (edge_rel D) x y → before order x y) as Hpath.
  { intros x y Hxy. induction Hxy as [x y (e & He & <- & <-) | x y z (e & He & <- & <-) _ IH].
    - by apply Hedges.
    - eapply before_trans; [done | by apply Hedges | done]. }
  by apply (before_irrefl order u Hnd), Hpath.
Qed.

(** *** The reachability search *)

Lemma adjacency_edge D current n :
  n ∈ default [] (build_adjacency (edges D) (init_adjacency (nodes D)) !! current) →
  edge_rel D current n.
Proof.
  rewrite adjacency_spec. destruct (decide _) as [Hin|Hnin]; [| by intros ?%elem_of_nil].
  intros (e & He & Hs & Ht)%targets_from_elem. by exists e.
Qed.

Lemma visit_inv D s neighbors : ∀ reachable bfsQueue,
  (∀ n, n ∈ neighbors → rtc (edge_rel D) s n) →
  bfs_inv D s reachable bfsQueue →
  bfs_inv D s (visit neighbors (reachable, bfsQueue)).1
    (visit neighbors (reachable, bfsQueue)).2.
Proof.
  induction neighbors as [|n rest IH]; intros R q Hn [HR Hq]; [done |].
  change (visit (n :: rest) (R, q))
    with (visit rest
            (if bool_decide (n ∈ R) then (R, q) else ({[n]} ∪ R, q ++ [n]))).
  assert (rtc (edge_rel D) s n) as Hsn by (apply Hn; by left).
  assert (∀ x, x ∈ rest → rtc (edge_rel D) s x) as Hrest
    by (intros x Hx; apply Hn; by right).
  case_bool_decide.
  - by apply IH.
  - apply IH; [done |]. split.
    + intros x [->%elem_of_singleton | Hx]%elem_of_union; auto.
    + intros x [Hx | ->%list_elem_of_singleton]%elem_of_app; auto.
Qed.

Lemma bfs_sound D s bound : ∀ reachable bfsQueue result,
  bfs_inv D s reachable bfsQueue →
  bfs bound (build_adjacency (edges D) (init_adjacency (nodes D)))
    reachable bfsQueue = Some result →
  ∀ x, x ∈ result → rtc (edge_rel D) s x.
Proof.
  induction bound as [|bound IH]; intros R q result Hinv Hb; [discriminate |].
  cbn [bfs] in Hb. destruct q as [|current rest].
  - injection Hb as <-. by destruct Hinv.
  - destruct Hinv as [HR Hq].
    assert (rtc (edge_rel D) s current) as Hcur by (apply Hq; by left).
    pose proof (visit_inv D s
                  (default [] (build_adjacency (edges D) (init_adjacency (nodes D))
                                 !! current)) R rest) as Hv.
    destruct (visit _ (R, rest)) as [R' q'] eqn:E. cbn [fst snd] in Hv.
    apply (IH R' q' result); [| done].
    apply Hv.
    + intros n Hn. eapply rtc_r; [exact Hcur |]. by apply adjacency_edge.
    + split; [done |]. intros x Hx. apply Hq. by right.
Qed.

(** *** The validator *)

(** What a verdict of [valid] rests on. *)
Lemma validateDAG_valid_inv D r :
  validateDAG D = Some r → valid r = true →
  structural_errors D = [] ∧
  (let m := build_inDegree (edges D) (init_inDegree (nodes D)) in
   kahn (S (length (nodes D)))
     (build_adjacency (edges D) (init_adjacency (nodes D)))
     m (initial_queue (nodes D) m) 0 = Some (length (nodes D))) ∧
  ∃ start reachable,
    filter (λ n, node_type n = NStart) (nodes D) = [start] ∧
    bfs (S (length (nodes D)))
      (build_adjacency (edges D) (init_adjacency (nodes D)))
      {[node_id start]} [node_id start] = Some reachable ∧
    ∀ n, n ∈ nodes D → node_id n ∈ reachable.
Proof.
  unfold validateDAG. intros Hv Hvalid.
  case_bool_decide as Hns; [by injection Hv as <- |].
  case_bool_decide as Hstruct; [by injection Hv as <- |].
  pose proof Hstruct as Hs0.
  split; [done |].
  destruct (kahn _ _ _ _ 0) as [processedCount|] eqn:Hk; [| discriminate].
  cbn [mbind option_bind] in Hv.
  pose proof (structural_errors_nil D Hs0) as (_ & Hone & _).
  destruct (filter (λ n, node_type n = NStart) (nodes D)) as [|start [|]] eqn:Hstart;
    try discriminate.
  case_bool_decide as Hcount.
  { cbn in Hv. injection Hv as <-. cbn in Hvalid. discriminate. }
  rewrite bool_decide_eq_true_2 in Hv by done.
  destruct (bfs _ _ _ _) as [reachable|] eqn:Hb; [| discriminate].
  cbn in Hv. injection Hv as <-. cbn in Hvalid.
  apply bool_decide_eq_true_1 in Hvalid.
  apply app_eq_nil in Hvalid as [Hunreach _].
  apply fmap_nil_inv in Hunreach.
  split.
  - cbn zeta. f_equal. first [exact Hcount | by apply dec_stable].
  - exists start, reachable. split; [done |]. split; [done |].
    intros n Hn. apply dec_stable. intros Hnot.
    assert (n ∈ filter (λ n, node_id n ∉ reachable) (nodes D)) as Hin
      by (by apply list_elem_of_filter).
    rewrite Hunreach in Hin. by apply elem_of_nil in Hin.
Qed.

(** C5.  If [validateDAG] declares a definition valid, then its nodes can
    be listed in a topological ordering (every edge goes forward in it),
    the graph has no cycle, there is exactly one start node, and every
    node is reachable from it along edges. *)
Theorem validateDAG_valid_is_dag :
  ∀ (D : WorkflowDefinition) (r : ValidationResult),
    validateDAG D = Some r →
    valid r = true →
    (∃ order, topological_ordering D order) ∧
    acyclic D ∧
    ∃ start,
      filter (λ n, node_type n = NStart) (nodes D) = [start] ∧
      ∀ n, n ∈ nodes D → rtc (edge_rel D) (node_id start) (node_id n).
Proof.
  intros D r Hv Hvalid.
  destruct (validateDAG_valid_inv D r Hv Hvalid)
    as (Hstruct & Hkahn & start & reachable & Hstart & Hbfs & Hall).
  destruct (structural_errors_nil D Hstruct) as (Hnd & _ & Hclosed).
  destruct (kahn_all_processed D Hnd Hclosed Hkahn) as [order Horder].
  split; [by exists order |].
  split; [by eapply topological_ordering_acyclic |].
  exists start. split; [done |].
  intros n Hn. eapply bfs_sound; [| exact Hbfs | by apply Hall].
  split.
  - intros x ->%elem_of_singleton. constructor.
  - intros x ->%list_elem_of_singleton. constructor.
Qed.

Lemma validateDAG_valid_is_dag_witness :
  (∃ order, topological_ordering linear_definition order) ∧
  acyclic linear_definition ∧
  ∃ start,
    filter (λ n, node_type n = NStart) (nodes linear_definition) = [start] ∧
    ∀ n, n ∈ nodes linear_definition →
      rtc (edge_rel linear_definition) (node_id start) (node_id n).
Proof.
  apply (validateDAG_valid_is_dag linear_definition (mkValidation true [])).
  - vm_compute. reflexivity.
  - reflexivity.
Defined.

(** *** The validator always returns *)

Lemma size_le_length (R : gset string) (ids : list string) :
  (∀ x, x ∈ R → x ∈ ids) → (size R <= length ids)%nat.
Proof.
  intros H. unfold size, set_size. cbn.
  apply submseteq_length, NoDup_submseteq; [apply NoDup_elements |].
  intros x Hx. apply H. by apply elem_of_elements.
Qed.

(** The search adds to the set exactly the nodes it adds to the queue. *)
Lemma visit_grows neighbors : ∀ (reachable : gset string) bfsQueue,
  ∃ pushed,
    (visit neighbors (reachable, bfsQueue)).2 = bfsQueue ++ pushed ∧
    size (visit neighbors (reachable, bfsQueue)).1
      = (size reachable + length pushed)%nat ∧
    ∀ x, x ∈ (visit neighbors (reachable, bfsQueue)).1 →
         x ∈ reachable ∨ x ∈ neighbors.
Proof.
  induction neighbors as [|n rest IH]; intros R q.
  - exists []. cbn. rewrite app_nil_r. split; [done |]. split; [lia | auto].
  - change (visit (n :: rest) (R, q))
      with (visit rest
              (if bool_decide (n ∈ R) then (R, q) else ({[n]} ∪ R, q ++ [n]))).
    case_bool_decide as Hin.
    + destruct (IH R q) as (pushed & Hq & Hsize & Hsub).
      exists pushed. split; [done |]. split; [done |].
      intros x Hx. destruct (Hsub x Hx); [by left | right; by right].
    + destruct (IH ({[n]} ∪ R) (q ++ [n])) as (pushed & Hq & Hsize & Hsub).
      exists (n :: pushed). rewrite Hq, <- app_assoc. split; [done |]. split.
      * rewrite Hsize, size_union, size_singleton; [cbn [length]; lia |].
        intros x ->%elem_of_singleton. done.
      * intros x Hx. destruct (Hsub x Hx) as [[->%elem_of_singleton | H]%elem_of_union | H].
        -- right. by left.
        -- by left.
        -- right. by right.
Qed.

Lemma bfs_terminates D bound : ∀ (reachable : gset string) bfsQueue,
  (∀ e, e ∈ edges D → edge_target e ∈ map node_id (nodes D)) →
  (∀ x, x ∈ reachable → x ∈ map node_id (nodes D)) →
  (length (nodes D) - size reachable + length bfsQueue < bound)%nat →
  is_Some (bfs bound (build_adjacency (edges D) (init_adjacency (nodes D)))
             reachable bfsQueue).
Proof.
  intros R q Hclosed. revert R q.
  induction bound as [|bound IH]; intros R q HR Hb; [lia |].
  cbn [bfs]. destruct q as [|current rest]; [by eexists |].
  set (neighbors := default [] (build_adjacency (edges D) (init_adjacency (nodes D))
                                  !! current)).
  destruct (visit_grows neighbors R rest) as (pushed & Hq & Hsize & Hsub).
  assert (∀ x, x ∈ (visit neighbors (R, rest)).1 → x ∈ map node_id (nodes D)) as HR'.
  { intros x Hx. destruct (Hsub x Hx) as [Hx' | Hx']; [by apply HR |].
    apply adjacency_edge in Hx' as (e & He & _ & <-). by apply Hclosed. }
  pose proof (size_le_length _ _ HR') as Hle. rewrite length_map in Hle.
  destruct (visit neighbors (R, rest)) as [R' q'] eqn:E. cbn [fst snd] in *.
  apply IH; [done |]. subst q'. rewrite length_app. cbn [length] in Hb. lia.
Qed.

(** [validateDAG] returns a verdict on every definition: neither loop
    outruns its bound. *)
Lemma validateDAG_total D : is_Some (validateDAG D).
Proof.
  unfold validateDAG.
  case_bool_decide as Hns; [by eexists |].
  case_bool_decide as Hstruct; [by eexists |].
  destruct (structural_errors_nil D Hstruct) as (Hnd & Hone & Hclosed).
  destruct (kahn_terminates D Hclosed (S (length (nodes D)))
              (build_inDegree (edges D) (init_inDegree (nodes D)))
              (initial_queue (nodes D)
                 (build_inDegree (edges D) (init_inDegree (nodes D)))) [])
    as [processedCount Hk]; [by apply kahn_inv_init | cbn; lia |].
  cbn [length] in Hk. rewrite Hk. cbn [mbind option_bind].
  destruct (filter (λ n, node_type n = NStart) (nodes D)) as [|start [|]] eqn:Hstart;
    try (by eexists).
  destruct (bool_decide (processedCount ≠ length (nodes D))); [by eexists |].
  rewrite (bool_decide_eq_true_2 _ (eq_refl (@nil string))).
  destruct (bfs_terminates D (S (length (nodes D))) {[node_id start]} [node_id start])
    as [reachable Hb].
  - intros e He. by apply Hclosed.
  - intros x ->%elem_of_singleton.
    apply list_elem_of_fmap. exists start. split; [done |].
    assert (start ∈ filter (λ n, node_type n = NStart) (nodes D)) as Hin
      by (rewrite Hstart; by left).
    by apply list_elem_of_filter in Hin as [_ ?].
  - rewrite size_singleton. cbn [length].
    destruct (nodes D); [done | cbn; lia].
  - rewrite Hb. by eexists.
Qed.

End DagFacts.

(** ** The idempotency store, continued *)

Section IdempotencyMore.
Import Idempotency.

Lemma cleanup_lookup_live tc (st : Store) k e :
  st !! k = Some e → tc < expiresAt e → cleanup tc st !! k = Some e.
Proof.
  intros Hk Hlive. unfold cleanup.
  apply map_lookup_filter_Some. split; [done |]. cbn. lia.
Qed.

Lemma cleanup_lookup_inv tc (st : Store) k e :
  cleanup tc st !! k = Some e → st !! k = Some e.
Proof.
  unfold cleanup. intros H. by apply map_lookup_filter_Some in H as [? _].
Qed.

Lemma cleanup_insert_live tc (st : Store) k e :
  tc < expiresAt e → cleanup tc (<[k := e]> st) = <[k := e]> (cleanup tc st).
Proof.
  intros Hlive. unfold cleanup.
  apply map_filter_insert_True. cbn. lia.
Qed.

(** X1.  The periodic [cleanup] cannot be observed through [checkAndSet]:
    for a positive time to live, a [checkAndSet] on a store that was
    cleaned up at an earlier (or the same) time [tc] gives the answer it
    gives on the store as it was, and leaves the store that cleaning up
    afterwards would leave. *)
Theorem cleanup_checkAndSet_commute :
  ∀ (tc now ttl : Z) (k s : string) (st : Store),
    tc <= now → 0 < ttl →
    checkAndSet now k s ttl (cleanup tc st)
      = ((checkAndSet now k s ttl st).1,
         cleanup tc (checkAndSet now k s ttl st).2).
Proof.
  intros tc now ttl k s st Hclock Httl.
  unfold checkAndSet at 2 3.
  destruct (st !! k) as [e|] eqn:Hk.
  - case_bool_decide as Hlive.
    + unfold checkAndSet.
      rewrite (cleanup_lookup_live tc st k e Hk) by lia.
      by rewrite bool_decide_eq_true_2.
    + cbn [fst snd]. rewrite cleanup_insert_live by (cbn; lia).
      unfold checkAndSet.
      destruct (cleanup tc st !! k) as [e'|] eqn:Hk'; [| done].
      apply cleanup_lookup_inv in Hk'. simplify_eq.
      by rewrite bool_decide_eq_false_2.
  - cbn [fst snd]. rewrite cleanup_insert_live by (cbn; lia).
    unfold checkAndSet.
    destruct (cleanup tc st !! k) as [e'|] eqn:Hk'; [| done].
    apply cleanup_lookup_inv in Hk'. congruence.
Qed.

Lemma cleanup_checkAndSet_commute_witness :
  checkAndSet 2000 "e1:n1" "new" 300000 (cleanup 1000 stale_and_live_store)
    = ((checkAndSet 2000 "e1:n1" "new" 300000 stale_and_live_store).1,
       cleanup 1000 (checkAndSet 2000 "e1:n1" "new" 300000 stale_and_live_store).2).
Proof.
  apply (cleanup_checkAndSet_commute 1000 2000 300000 "e1:n1" "new"); lia.
Defined.

Lemma append_colon_inj e1 : ∀ e2 n1 n2,
  JsString.includes_char ":" e1 = false →
  JsString.includes_char ":" e2 = false →
  e1 +:+ ":" +:+ n1 = e2 +:+ ":" +:+ n2 → e1 = e2 ∧ n1 = n2.
Proof.
  induction e1 as [|a e1 IH]; intros [|b e2] n1 n2 H1 H2 Heq; cbn in *.
  - injection Heq as Heq. by subst.
  - injection Heq as Hb _. subst b. by rewrite Ascii.eqb_refl in H2.
  - injection Heq as Ha _. subst a. by rewrite Ascii.eqb_refl in H1.
  - injection Heq as Hab Heq. subst b.
    apply orb_false_iff in H1 as [_ H1]. apply orb_false_iff in H2 as [_ H2].
    destruct (IH e2 n1 n2 H1 H2 Heq) as [He Hn]. by subst.
Qed.

(** X2.  Keys do not collide: when the execution ids contain no colon (the
    ids that the database generates do not), two different pairs of an
    execution and a node get different keys from [generateKey]. *)
Theorem generateKey_injective :
  ∀ (e1 n1 e2 n2 : string),
    JsString.includes_char ":" e1 = false →
    JsString.includes_char ":" e2 = false →
    (e1, n1) ≠ (e2, n2) →
    generateKey e1 n1 ≠ generateKey e2 n2.
Proof.
  intros e1 n1 e2 n2 H1 H2 Hne Heq. apply Hne.
  destruct (append_colon_inj e1 e2 n1 n2 H1 H2 Heq) as [-> ->]. reflexivity.
Qed.

Lemma generateKey_injective_witness :
  generateKey "exec-1" "A:B" ≠ generateKey "exec-1" "A".
Proof.
  apply (generateKey_injective "exec-1" "A:B" "exec-1" "A");
    [reflexivity | reflexivity | discriminate].
Defined.

End IdempotencyMore.

(** ** The queue and the publisher, continued *)

Lemma existsb_true_iff {A} (p : A → bool) (l : list A) :
  existsb p l = true ↔ ∃ x, x ∈ l ∧ p x = true.
Proof.
  rewrite existsb_exists. split; intros (x & Hx & Hp); exists x;
    (split; [by apply list_elem_of_In | done]).
Qed.

(** Facts about the fixtures. *)
Lemma world_A_has_execution : execution_exists "exec-1" world_A.
Proof. eexists. split; [left | reflexivity]. Qed.

Lemma world_A_has_step : step_exists "step-A" world_A.
Proof. eexists. split; [left | reflexivity]. Qed.

Lemma world_A_step_ids_fresh : step_ids_fresh world_A.
Proof. intros s n ->%list_elem_of_singleton _. cbn. discriminate. Qed.

Lemma unseen_empty now k : unseen now k ∅.
Proof. intros e He. by rewrite lookup_empty in He. Qed.

Lemma JobQueue_enqueue_eq job w :
  JobQueue_enqueue job w =
    (Ok tt,
     set_jobEvents (λ l, l ++ [job])
       (set_counters (λ '(e, p, f), (e + 1, p, f))
          (if existsb (λ x, bool_decide (jq_id x = job_id job)) (jobRows w)
           then w else set_jobRows (λ l, l ++ [enqueue_row job]) w))).
Proof.
  cbv [JobQueue_enqueue try_catch jobQueue_create JobQueue_emit mbind M_bind
       get_world throw modify].
  change (jq_id (enqueue_row job)) with (job_id job).
  by destruct (existsb _ (jobRows w)).
Qed.

(** X3.  [jobQueue.enqueue] never throws: whatever the table holds, it
    returns, counts the job as enqueued and emits the [job] event.  The
    table gains the row of the job when no row has the job's id, and is
    left as it was when one has (the failed insert is swallowed). *)
Theorem enqueue_never_throws :
  ∀ (job : WorkerJob) (w : World),
    let r := JobQueue_enqueue job w in
    r.1 = Ok tt ∧
    q_totalEnqueued r.2 = q_totalEnqueued w + 1 ∧
    jobEvents r.2 = jobEvents w ++ [job] ∧
    jobRows r.2 =
      (if existsb (λ x, bool_decide (jq_id x = job_id job)) (jobRows w)
       then jobRows w else jobRows w ++ [enqueue_row job]).
Proof.
  intros job w r. subst r. rewrite JobQueue_enqueue_eq.
  by destruct (existsb _ (jobRows w)).
Qed.

Lemma update_where_middle {A} (p : A → bool) (g : A → A) l1 x l2 :
  (∀ y, y ∈ l1 ++ l2 → p y = false) → p x = true →
  update_where p g (l1 ++ x :: l2) = l1 ++ g x :: l2.
Proof.
  intros Hothers Hx. unfold update_where. rewrite map_app. cbn. rewrite Hx.
  f_equal; [| f_equal].
  - apply (update_where_fresh p g). intros y Hy. apply Hothers, elem_of_app. by left.
  - apply (update_where_fresh p g). intros y Hy. apply Hothers, elem_of_app. by right.
Qed.

Lemma find_first {A} (p : A → bool) l1 x l2 :
  (∀ y, y ∈ l1 → p y = false) → p x = true →
  List.find p (l1 ++ x :: l2) = Some x.
Proof.
  intros H1 Hx. induction l1 as [|y l1 IH]; cbn.
  - by rewrite Hx.
  - rewrite (H1 y) by left. apply IH. intros z Hz. apply H1. by right.
Qed.

(** X4.  [jobQueue.dequeue] takes the first pending row of the table: when
    the rows before [r] are not pending, [r] is, and no other row has its
    id, the call returns the payload of [r] and the only change to the
    world is that [r] is now [processing], locked by the worker at [now],
    with one more attempt. *)
Theorem dequeue_locks_oldest_pending :
  ∀ (now : Z) (workerId : string) (w : World) (l1 l2 : list JobRow) (r : JobRow),
    jobRows w = l1 ++ r :: l2 →
    (∀ x, x ∈ l1 → jq_status x ≠ JqPending) →
    jq_status r = JqPending →
    (∀ x, x ∈ l1 ++ l2 → jq_id x ≠ jq_id r) →
    JobQueue_dequeue now workerId w
      = (Ok (Some (jq_payload r)),
         set_jobRows (λ _, l1 ++ job_set_processing now workerId r :: l2) w) ∧
    jq_status (job_set_processing now workerId r) = JqProcessing ∧
    jq_lockedAt (job_set_processing now workerId r) = Some now ∧
    jq_lockedBy (job_set_processing now workerId r) = Some workerId ∧
    jq_attempts (job_set_processing now workerId r) = jq_attempts r + 1.
Proof.
  intros now workerId w l1 l2 r Hrows Hl1 Hr Hids.
  split; [| done].
  unfold JobQueue_dequeue.
  rewrite (bind_ok _ _ w w w) by reflexivity.
  rewrite Hrows, (find_first _ l1 r l2).
  2:{ intros y Hy. apply bool_decide_eq_false_2. by apply Hl1. }
  2:{ by apply bool_decide_eq_true_2. }
  unfold try_catch, jobQueue_update.
  rewrite (bind_ok _ _ w tt
             (set_jobRows (update_where (λ x, bool_decide (jq_id x = jq_id r))
                             (job_set_processing now workerId)) w)).
  2:{ rewrite (bind_ok _ _ w w w) by reflexivity.
      rewrite Hrows, existsb_app. cbn.
      rewrite (bool_decide_eq_true_2 _ eq_refl). rewrite orb_true_r. reflexivity. }
  cbn. f_equal. unfold set_jobRows. f_equal.
  rewrite Hrows. apply update_where_middle.
  - intros y Hy. apply bool_decide_eq_false_2. by apply Hids.
  - by apply bool_decide_eq_true_2.
Qed.

Lemma dequeue_locks_oldest_pending_witness :
  JobQueue_dequeue 5 "worker-1" queue_world
    = (Ok (Some job0),
       set_jobRows
         (λ _, [queue_row "j1" JqDone;
                job_set_processing 5 "worker-1" (queue_row "j2" JqPending);
                queue_row "j3" JqPending]) queue_world) ∧
  jq_status (job_set_processing 5 "worker-1" (queue_row "j2" JqPending))
    = JqProcessing ∧
  jq_lockedAt (job_set_processing 5 "worker-1" (queue_row "j2" JqPending))
    = Some 5 ∧
  jq_lockedBy (job_set_processing 5 "worker-1" (queue_row "j2" JqPending))
    = Some "worker-1" ∧
  jq_attempts (job_set_processing 5 "worker-1" (queue_row "j2" JqPending))
    = jq_attempts (queue_row "j2" JqPending) + 1.
Proof.
  apply (dequeue_locks_oldest_pending 5 "worker-1" queue_world
           [queue_row "j1" JqDone] [queue_row "j3" JqPending]
           (queue_row "j2" JqPending)).
  - reflexivity.
  - intros x ->%list_elem_of_singleton. discriminate.
  - reflexivity.
  - intros x [-> | ->%list_elem_of_singleton]%elem_of_cons; discriminate.
Defined.

(** With no pending row, [dequeue] returns [null] and changes nothing. *)
Lemma dequeue_nothing_pending (now : Z) (workerId : string) (w : World) :
  (∀ x, x ∈ jobRows w → jq_status x ≠ JqPending) →
  JobQueue_dequeue now workerId w = (Ok None, w).
Proof.
  intros Hnone. unfold JobQueue_dequeue.
  rewrite (bind_ok _ _ w w w) by reflexivity.
  destruct (List.find _ (jobRows w)) as [r|] eqn:E; [| reflexivity].
  apply find_some in E as [Hin Hp]. apply bool_decide_eq_true_1 in Hp.
  destruct (Hnone r); [by apply list_elem_of_In | done].
Qed.

Lemma stepExecution_create_ok eid nid label type status attempts started completed w :
  execution_exists eid w →
  (∀ s, s ∈ steps w → st_id s ≠ "id-" +:+ pretty (nextId w)) →
  let row := mkStepRow ("id-" +:+ pretty (nextId w)) eid nid label type status
               attempts None None started completed in
  stepExecution_create eid nid label type status attempts started completed w
    = (Ok row, set_steps (λ l, l ++ [row]) (set_nextId N.succ w)).
Proof.
  intros (e & He & Hid) Hfresh row. unfold stepExecution_create.
  rewrite (bind_ok _ _ w w w) by reflexivity.
  assert (existsb (λ e, bool_decide (ex_id e = eid)) (executions w) = true) as ->.
  { apply existsb_true_iff. exists e. split; [done | by apply bool_decide_eq_true_2]. }
  rewrite (bind_ok _ _ w ("id-" +:+ pretty (nextId w)) (set_nextId N.succ w))
    by reflexivity.
  rewrite (existsb_fresh (λ s, bool_decide (st_id s = "id-" +:+ pretty (nextId w)))
             (steps w)); [reflexivity |].
  intros s Hs. apply bool_decide_eq_false_2. by apply Hfresh.
Qed.

(** X5.  [publishJob] for an execution that has no row throws, and has
    changed nothing when it does: no step row, no idempotency entry, no
    job and no rejection are left behind. *)
Theorem publishJob_unknown_execution :
  ∀ (now : Z) (executionId : string) (node : WorkflowNode)
    (input : option Js.value) (previousResults : list (string * Js.value))
    (attempt : Z) (w : World),
    ¬ execution_exists executionId w →
    ∃ message,
      publishJob now executionId node input previousResults attempt w
        = (Throw message, w).
Proof.
  intros now eid node input prev attempt w Hno.
  exists "Foreign key constraint failed on the field: executionId".
  unfold publishJob, stepExecution_create.
  assert (existsb (λ e, bool_decide (ex_id e = eid)) (executions w) = false) as Hex.
  { apply existsb_fresh. intros e He. apply bool_decide_eq_false_2.
    intros Hid. apply Hno. by exists e. }
  erewrite bind_throw; [reflexivity |].
  rewrite (bind_ok _ _ w w w) by reflexivity. by rewrite Hex.
Qed.

Lemma publishJob_unknown_execution_witness :
  ∃ message,
    publishJob 1000 "exec-9" node_A None [] 1 world_A = (Throw message, world_A).
Proof.
  apply (publishJob_unknown_execution 1000 "exec-9" node_A None [] 1 world_A).
  intros (e & ->%list_elem_of_singleton & Hid). discriminate.
Defined.

Lemma publishJob_first now eid node input prev attempt w :
  execution_exists eid w →
  (∀ s, s ∈ steps w → st_id s ≠ "id-" +:+ pretty (nextId w)) →
  unseen now (Idempotency.generateKey eid (node_id node)) (idempotencyStore w) →
  let sid := "id-" +:+ pretty (nextId w) in
  let row := mkStepRow sid eid (node_id node) (node_label node) (node_type node)
               StPending attempt None None (Some now) None in
  let w2 :=
    set_idempotencyStore
      (λ _, <[Idempotency.generateKey eid (node_id node) :=
                Idempotency.mkEntry sid (now + Idempotency.DEFAULT_TTL_MS)]>
              (idempotencyStore w))
      (set_steps (λ l, l ++ [row]) (set_nextId N.succ w)) in
  publishJob now eid node input prev attempt w =
    (backpressure_canAccept ≫= λ ok : bool,
     if ok then
       JobQueue_enqueue (published_job now sid eid node input prev attempt);;
       mret sid
     else
       modify (set_backpressure Backpressure.recordRejection);;
       mret sid) w2.
Proof.
  intros Hex Hfresh Hun sid row w2. unfold publishJob.
  rewrite (bind_ok _ _ w row (set_steps (λ l, l ++ [row]) (set_nextId N.succ w)))
    by (by apply stepExecution_create_ok).
  rewrite (bind_ok _ _ _ (Idempotency.mkCheck false None) w2).
  - reflexivity.
  - unfold idempotency_checkAndSet. cbn [idempotencyStore set_steps set_nextId].
    by rewrite (checkAndSet_unseen _ _ _ _ _ Hun).
Qed.

Lemma publishJob_tail_eq sid job w2 :
  ((backpressure_canAccept ≫= λ ok : bool,
    if ok then JobQueue_enqueue job;; mret sid
    else modify (set_backpressure Backpressure.recordRejection);; mret sid)
     : M string) w2
  = let bc := Backpressure.canAccept (JobQueue_depth w2) (backpressure w2) in
    let w3 := set_backpressure (λ _, bc.2) w2 in
    (Ok sid,
     if bc.1 then (JobQueue_enqueue job w3).2
     else set_backpressure Backpressure.recordRejection w3).
Proof.
  cbv [mbind M_bind backpressure_canAccept mret M_ret modify].
  destruct (Backpressure.canAccept _ _) as [[] c]; cbn [fst snd].
  - by rewrite JobQueue_enqueue_eq.
  - reflexivity.
Qed.

Lemma publishJob_tail_ok sid job w2 :
  let tail : M string :=
    backpressure_canAccept ≫= λ ok : bool,
    if ok then JobQueue_enqueue job;; mret sid
    else modify (set_backpressure Backpressure.recordRejection);; mret sid in
  (tail w2).1 = Ok sid ∧
  steps (tail w2).2 = steps w2 ∧
  executions (tail w2).2 = executions w2 ∧
  nextId (tail w2).2 = nextId w2 ∧
  idempotencyStore (tail w2).2 = idempotencyStore w2.
Proof.
  intros tail. subst tail. rewrite publishJob_tail_eq. cbn zeta.
  destruct (Backpressure.canAccept _ _) as [[] c]; cbn [fst snd]; [| done].
  rewrite JobQueue_enqueue_eq. cbn [snd]. by destruct (existsb _ _).
Qed.

Lemma set_idempotencyStore_same w :
  set_idempotencyStore (λ _, idempotencyStore w) w = w.
Proof. by destruct w. Qed.

Lemma idempotency_checkAndSet_live now key sid w e :
  idempotencyStore w !! key = Some e →
  Idempotency.expiresAt e > now →
  idempotency_checkAndSet now key sid w
    = (Ok (Idempotency.mkCheck true (Some (Idempotency.stepId e))), w).
Proof.
  intros Hk Hlive. unfold idempotency_checkAndSet.
  rewrite (checkAndSet_live _ _ _ _ _ e Hk) by lia.
  by rewrite set_idempotencyStore_same.
Qed.

Lemma filter_fresh_snoc (l : list StepRow) row :
  (∀ s, s ∈ l → st_id s ≠ st_id row) →
  filter (λ s, st_id s ≠ st_id row) (l ++ [row]) = l.
Proof.
  intros Hfresh. rewrite filter_app, filter_cons_False, filter_nil, app_nil_r.
  - induction l as [|x l IH]; [done |].
    rewrite filter_cons_True by (apply Hfresh; left).
    f_equal. apply IH. intros s Hs. apply Hfresh. by right.
  - intros H. by apply H.
Qed.

Lemma stepExecution_delete_last row w :
  (∀ s, s ∈ steps w → st_id s ≠ st_id row) →
  stepExecution_delete (st_id row) (set_steps (λ l, l ++ [row]) w)
    = (Ok tt, set_steps (λ _, steps w) w).
Proof.
  intros Hfresh. unfold stepExecution_delete.
  rewrite (bind_ok _ _ _ (set_steps (λ l, l ++ [row]) w)
             (set_steps (λ l, l ++ [row]) w)) by reflexivity.
  cbn [steps set_steps]. rewrite existsb_app. cbn [existsb].
  rewrite (bool_decide_eq_true_2 _ eq_refl), orb_true_r.
  cbv [modify]. f_equal. unfold set_steps. cbn.
  by rewrite filter_fresh_snoc.
Qed.



(** X7.  When the queue depth has reached [maxQueueDepth], [publishJob]
    still creates the step row and returns its id, but enqueues nothing:
    the queue table, the emitted jobs and the depth are unchanged, the
    controller is [rejecting] and has counted one more rejection. *)
Theorem publishJob_rejected_under_backpressure :
  ∀ (now : Z) (executionId : string) (node : WorkflowNode)
    (input : option Js.value) (previousResults : list (string * Js.value))
    (attempt : Z) (w : World),
    execution_exists executionId w →
    step_ids_fresh w →
    unseen now (Idempotency.generateKey executionId (node_id node))
      (idempotencyStore w) →
    JobQueue_depth w >= Backpressure.maxQueueDepth (Backpressure.config (backpressure w)) →
    let sid := "id-" +:+ pretty (nextId w) in
    let r := publishJob now executionId node input previousResults attempt w in
    r.1 = Ok sid ∧
    steps r.2 = steps w ++
      [mkStepRow sid executionId (node_id node) (node_label node) (node_type node)
         StPending attempt None None (Some now) None] ∧
    jobRows r.2 = jobRows w ∧
    jobEvents r.2 = jobEvents w ∧
    JobQueue_depth r.2 = JobQueue_depth w ∧
    Backpressure._state (backpressure r.2) = Backpressure.rejecting ∧
    Backpressure._totalRejected (backpressure r.2)
      = Backpressure._totalRejected (backpressure w) + 1.
Proof.
  intros now eid node input prev attempt w Hex Hfresh Hun Hdepth sid r.
  subst r.
  rewrite (publishJob_first now eid node input prev attempt w Hex); [| | done].
  2:{ intros s Hs. by apply Hfresh. }
  cbn zeta. rewrite publishJob_tail_eq. cbn zeta.
  change (JobQueue_depth (set_idempotencyStore _ _)) with (JobQueue_depth w).
  change (backpressure (set_idempotencyStore _ _)) with (backpressure w).
  unfold Backpressure.canAccept.
  rewrite bool_decide_eq_true_2 by done. cbn. done.
Qed.

Lemma publishJob_rejected_under_backpressure_witness :
  let sid := "id-" +:+ pretty (nextId full_world) in
  let r := publishJob 1000 "exec-1" node_A None [] 1 full_world in
  r.1 = Ok sid ∧
  steps r.2 = steps full_world ++
    [mkStepRow sid "exec-1" (node_id node_A) (node_label node_A) (node_type node_A)
       StPending 1 None None (Some 1000) None] ∧
  jobRows r.2 = jobRows full_world ∧
  jobEvents r.2 = jobEvents full_world ∧
  JobQueue_depth r.2 = JobQueue_depth full_world ∧
  Backpressure._state (backpressure r.2) = Backpressure.rejecting ∧
  Backpressure._totalRejected (backpressure r.2)
    = Backpressure._totalRejected (backpressure full_world) + 1.
Proof.
  apply (publishJob_rejected_under_backpressure 1000 "exec-1" node_A None [] 1
           full_world).
  - exact world_A_has_execution.
  - exact world_A_step_ids_fresh.
  - apply unseen_empty.
  - vm_compute. discriminate.
Defined.

(** X8.  Below [maxQueueDepth], the first publication of a node creates
    its pending step row, enqueues one job that carries the step id as
    job id and step id together with the node's [maxRetries], and
    remembers the step id under the idempotency key for the time to
    live. *)
Theorem publishJob_accepted :
  ∀ (now : Z) (executionId : string) (node : WorkflowNode)
    (input : option Js.value) (previousResults : list (string * Js.value))
    (attempt : Z) (w : World),
    execution_exists executionId w →
    step_ids_fresh w →
    (∀ x, x ∈ jobRows w → jq_id x ≠ "id-" +:+ pretty (nextId w)) →
    unseen now (Idempotency.generateKey executionId (node_id node))
      (idempotencyStore w) →
    JobQueue_depth w < Backpressure.maxQueueDepth (Backpressure.config (backpressure w)) →
    let sid := "id-" +:+ pretty (nextId w) in
    let job := published_job now sid executionId node input previousResults attempt in
    let r := publishJob now executionId node input previousResults attempt w in
    r.1 = Ok sid ∧
    steps r.2 = steps w ++
      [mkStepRow sid executionId (node_id node) (node_label node) (node_type node)
         StPending attempt None None (Some now) None] ∧
    jobRows r.2 = jobRows w ++ [enqueue_row job] ∧
    jobEvents r.2 = jobEvents w ++ [job] ∧
    idempotencyStore r.2 !! Idempotency.generateKey executionId (node_id node)
      = Some (Idempotency.mkEntry sid (now + Idempotency.DEFAULT_TTL_MS)).
Proof.
  intros now eid node input prev attempt w Hex Hfresh Hrows Hun Hdepth sid job r.
  subst r.
  rewrite (publishJob_first now eid node input prev attempt w Hex); [| | done].
  2:{ intros s Hs. by apply Hfresh. }
  cbn zeta. rewrite publishJob_tail_eq. cbn zeta.
  change (JobQueue_depth (set_idempotencyStore _ _)) with (JobQueue_depth w).
  change (backpressure (set_idempotencyStore _ _)) with (backpressure w).
  rewrite canAccept_answer, bool_decide_eq_true_2 by lia.
  rewrite JobQueue_enqueue_eq. cbn [fst snd].
  cbn [jobRows set_backpressure set_idempotencyStore set_steps set_nextId].
  rewrite (existsb_fresh _ (jobRows w)).
  2:{ intros x Hx. apply bool_decide_eq_false_2. cbn. by apply Hrows. }
  cbn. split; [done |]. split; [done |]. split; [done |]. split; [done |].
  apply lookup_insert_eq.
Qed.

Lemma publishJob_accepted_witness :
  let sid := "id-" +:+ pretty (nextId world_A) in
  let job := published_job 1000 sid "exec-1" node_A None [] 1 in
  let r := publishJob 1000 "exec-1" node_A None [] 1 world_A in
  r.1 = Ok sid ∧
  steps r.2 = steps world_A ++
    [mkStepRow sid "exec-1" (node_id node_A) (node_label node_A) (node_type node_A)
       StPending 1 None None (Some 1000) None] ∧
  jobRows r.2 = jobRows world_A ++ [enqueue_row job] ∧
  jobEvents r.2 = jobEvents world_A ++ [job] ∧
  idempotencyStore r.2 !! Idempotency.generateKey "exec-1" (node_id node_A)
    = Some (Idempotency.mkEntry sid (1000 + Idempotency.DEFAULT_TTL_MS)).
Proof.
  apply (publishJob_accepted 1000 "exec-1" node_A None [] 1 world_A).
  - exact world_A_has_execution.
  - exact world_A_step_ids_fresh.
  - intros x Hx. by apply elem_of_nil in Hx.
  - apply unseen_empty.
  - vm_compute. reflexivity.
Defined.

(** ** The consumer, continued *)

Lemma step_exists_existsb sid w :
  step_exists sid w ↔
  existsb (λ s, bool_decide (st_id s = sid)) (steps w) = true.
Proof.
  rewrite existsb_true_iff. split; intros (s & Hs & Hid); exists s.
  - split; [done | by apply bool_decide_eq_true_2].
  - split; [done | by apply bool_decide_eq_true_1 in Hid].
Qed.

Lemma JobQueue_markFailed_ok jobId error w :
  (JobQueue_markFailed jobId error w).1 = Ok tt.
Proof.
  cbv [JobQueue_markFailed try_catch jobQueue_update mbind M_bind modify get_world
       throw mret M_ret].
  by destruct (existsb _ _).
Qed.

Lemma JobQueue_markDone_ok jobId result w :
  (JobQueue_markDone jobId result w).1 = Ok tt.
Proof.
  cbv [JobQueue_markDone try_catch jobQueue_update mbind M_bind modify get_world
       throw mret M_ret].
  by destruct (existsb _ _).
Qed.

(** Dispatching to a registered handler always returns, with the
    handler's result or the failure made up for a rejection. *)
Lemma run_handler_outcome registry handler job w :
  registry (node_type (job_node job)) = Some handler →
  (run_handler registry job w).1 = Ok (outcome_of handler job).
Proof.
  intros Hreg. unfold run_handler, outcome_of. rewrite Hreg.
  destruct (handler job) as [result|message].
  - unfold mbind, M_bind. destruct (bool_decide _).
    + pose proof (JobQueue_markDone_ok (job_id job) (Js.VObject <$> res_result result) w) as H.
      destruct (JobQueue_markDone _ _ w) as [[[]|e] w1]; [done | discriminate].
    + pose proof (JobQueue_markFailed_ok (job_id job) (res_error result) w) as H.
      destruct (JobQueue_markFailed _ _ w) as [[[]|e] w1]; [done | discriminate].
  - unfold mbind, M_bind.
    pose proof (JobQueue_markFailed_ok (job_id job) (Some message) w) as H.
    cbn [synthetic_failure res_error].
    destruct (JobQueue_markFailed _ _ w) as [[[]|e] w1]; [done | discriminate].
Qed.

(** X9.  A job whose [maxRetries] is zero (or less) never reaches the
    dead-letter queue, whatever its handler does: [processJob] leaves the
    dead-letter queue as it was. *)
Theorem processJob_without_retries_never_dead_letters :
  ∀ (registry : HandlerRegistry) (now : Z) (job : WorkerJob) (w : World),
    job_maxRetries job <= 0 →
    dlq (processJob registry now job w).2 = dlq w.
Proof.
  intros registry now job w Hmax. revert w.
  change (preserves dlq (processJob registry now job)).
  unfold processJob.
  apply preserves_bind; [frame |].
  intros marked. destruct (negb marked); [apply preserves_ret |].
  apply preserves_bind; [by apply preserves_run_handler |].
  intros result. destruct (retries result job).
  - destruct (getRetryConfig _) as [backoff multiplier]. frame.
  - rewrite (bool_decide_eq_false_2 (job_maxRetries job > 0)) by lia.
    rewrite andb_false_r.
    apply preserves_bind; [apply preserves_ret |].
    intros _. apply preserves_try_catch; [by apply preserves_handleResult |].
    intros; apply preserves_ret.
Qed.

Lemma processJob_without_retries_never_dead_letters_witness :
  dlq (processJob failing_registry 5 job_C world_A).2 = dlq world_A.
Proof.
  apply (processJob_without_retries_never_dead_letters failing_registry 5 job_C
           world_A).
  cbn. lia.
Defined.

(** In that run the step of the job has its row, the handler runs and
    fails, and nothing is retried: the step ends [failed] and the queue has
    counted the failure. *)
Example processJob_without_retries_run :
  map (λ s, (st_id s, st_status s)) (steps (processJob failing_registry 5 job_C world_A).2)
    = [("step-A", StFailed)] ∧
  q_totalFailed (processJob failing_registry 5 job_C world_A).2 = 1 ∧
  timers (processJob failing_registry 5 job_C world_A).2 = [].
Proof. vm_compute. repeat split; reflexivity. Qed.

Lemma JobQueue_markFailed_eq jobId error w :
  JobQueue_markFailed jobId error w =
    (Ok tt,
     let w1 := set_counters (λ '(e, p, f), (e, p, f + 1)) w in
     if existsb (λ r, bool_decide (jq_id r = jobId)) (jobRows w)
     then set_jobRows
            (update_where (λ r, bool_decide (jq_id r = jobId))
               (job_set_failed (or_default error "Unknown error"))) w1
     else w1).
Proof.
  cbv [JobQueue_markFailed try_catch jobQueue_update mbind M_bind modify get_world
       throw mret M_ret].
  cbn [jobRows set_counters].
  by destruct (existsb _ _).
Qed.

(** X10.  A job whose step row is gone (the execution was deleted, or the
    step was removed as a duplicate) is dropped without running its
    handler: [processJob] returns, the queue row of the job is [failed]
    with the error [Step no longer exists or was cancelled], one more
    failure is counted, and the steps, the executions, the completion
    signals, the retry timers and the dead-letter queue are untouched. *)
Theorem processJob_step_gone :
  ∀ (registry : HandlerRegistry) (now : Z) (job : WorkerJob) (w : World),
    ¬ step_exists (job_stepId job) w →
    let r := processJob registry now job w in
    r.1 = Ok tt ∧
    steps r.2 = steps w ∧ executions r.2 = executions w ∧
    executionEvents r.2 = executionEvents w ∧
    timers r.2 = timers w ∧ dlq r.2 = dlq w ∧
    q_totalFailed r.2 = q_totalFailed w + 1 ∧
    ∀ x, x ∈ jobRows r.2 → jq_id x = job_id job →
         jq_status x = JqFailed ∧
         jq_error x = Some "Step no longer exists or was cancelled".
Proof.
  intros registry now job w Hgone r.
  assert (existsb (λ s, bool_decide (st_id s = job_stepId job)) (steps w) = false)
    as Hex.
  { apply not_true_is_false. by rewrite <- step_exists_existsb. }
  assert (r = (Ok tt,
               (JobQueue_markFailed (job_id job)
                  (Some "Step no longer exists or was cancelled") w).2)) as ->.
  { subst r. unfold processJob.
    pose proof (JobQueue_markFailed_ok (job_id job)
                  (Some "Step no longer exists or was cancelled") w) as Hok.
    destruct (JobQueue_markFailed _ _ w) as [o w1] eqn:E. cbn in Hok. subst o.
    rewrite (bind_ok _ _ w false w1); [reflexivity |].
    unfold try_catch.
    rewrite (bind_throw _ _ w "Record to update not found." w).
    - by rewrite (bind_ok _ _ w tt w1 E).
    - unfold stepExecution_update.
      rewrite (bind_ok _ _ w w w) by reflexivity. by rewrite Hex. }
  rewrite JobQueue_markFailed_eq. cbn [fst snd].
  destruct (existsb _ (jobRows w)) eqn:Hrow; cbn;
    (do 7 (split; [done |])); intros x Hx Hid.
  - apply update_where_elem in Hx as (y & Hy & ->).
    destruct (bool_decide (jq_id y = job_id job)) eqn:Hb; [done |].
    apply bool_decide_eq_false_1 in Hb. done.
  - exfalso. apply not_true_iff_false in Hrow. apply Hrow.
    apply existsb_true_iff. exists x. split; [done | by apply bool_decide_eq_true_2].
Qed.

Lemma processJob_step_gone_witness :
  let r := processJob failing_registry 5 job0 world_A in
  r.1 = Ok tt ∧
  steps r.2 = steps world_A ∧ executions r.2 = executions world_A ∧
  executionEvents r.2 = executionEvents world_A ∧
  timers r.2 = timers world_A ∧ dlq r.2 = dlq world_A ∧
  q_totalFailed r.2 = q_totalFailed world_A + 1 ∧
  ∀ x, x ∈ jobRows r.2 → jq_id x = job_id job0 →
       jq_status x = JqFailed ∧
       jq_error x = Some "Step no longer exists or was cancelled".
Proof.
  apply (processJob_step_gone failing_registry 5 job0 world_A).
  intros (s & ->%list_elem_of_singleton & Hid). discriminate.
Defined.

Lemma run_handler_split registry handler job w :
  registry (node_type (job_node job)) = Some handler →
  run_handler registry job w
    = (Ok (outcome_of handler job), (run_handler registry job w).2).
Proof.
  intros Hreg. pose proof (run_handler_outcome registry handler job w Hreg) as H.
  destruct (run_handler registry job w) as [o w1]. cbn in *. by subst.
Qed.

(** X11.  When the result of a registered handler is to be retried,
    [processJob] returns and sets exactly one timer, for the same job; it
    counts the retry, frees the idempotency key of the node, puts the step
    back to [pending] with the attempt number of the job, and touches
    neither the dead-letter queue nor the execution. *)
Theorem processJob_schedules_one_retry :
  ∀ (registry : HandlerRegistry) (handler : ActionHandler) (now : Z)
    (job : WorkerJob) (w : World),
    registry (node_type (job_node job)) = Some handler →
    step_exists (job_stepId job) w →
    retries (outcome_of handler job) job = true →
    let r := processJob registry now job w in
    let key := Idempotency.generateKey (job_executionId job) (node_id (job_node job)) in
    r.1 = Ok tt ∧
    (∃ delay, timers r.2 = timers w ++ [(delay, job)]) ∧
    totalRetries r.2 = totalRetries w + 1 ∧
    dlq r.2 = dlq w ∧
    executions r.2 = executions w ∧
    executionEvents r.2 = executionEvents w ∧
    idempotencyStore r.2 !! key = None ∧
    (∀ s, s ∈ steps r.2 → st_id s = job_stepId job →
          st_status s = StPending ∧ st_attempts s = job_attempt job).
Proof.
  intros registry handler now job w Hreg Hstep Hretry r key. subst r.
  apply step_exists_existsb in Hstep.
  rewrite processJob_unfold by exact Hstep.
  set (w1 := set_steps _ w).
  rewrite (bind_ok _ _ w1 _ _ (run_handler_split registry handler job w1 Hreg)).
  rewrite Hretry.
  assert (steps (run_handler registry job w1).2 = steps w1) as Hs
    by (by apply preserves_run_handler).
  assert (timers (run_handler registry job w1).2 = timers w) as Ht
    by (by rewrite (preserves_run_handler timers)).
  assert (totalRetries (run_handler registry job w1).2 = totalRetries w) as Hr
    by (by rewrite (preserves_run_handler totalRetries)).
  assert (dlq (run_handler registry job w1).2 = dlq w) as Hd
    by (by rewrite (preserves_run_handler dlq)).
  assert (executions (run_handler registry job w1).2 = executions w) as He
    by (by rewrite (preserves_run_handler executions)).
  assert (executionEvents (run_handler registry job w1).2 = executionEvents w) as Hv
    by (by rewrite (preserves_run_handler executionEvents)).
  set (w2 := (run_handler registry job w1).2) in *.
  destruct (getRetryConfig _) as [backoff multiplier].
  rewrite (bind_ok _ _ w2 tt (set_totalRetries (Z.add 1) w2)) by reflexivity.
  rewrite (bind_ok _ _ _ tt
             (set_auditLog
                (λ l, l ++ [mkAudit "step.retried" "step" (job_stepId job)])
                (set_totalRetries (Z.add 1) w2))) by reflexivity.
  set (w3 := set_auditLog _ _).
  assert (existsb (λ s, bool_decide (st_id s = job_stepId job)) (steps w3) = true)
    as Hstep3.
  { change (steps w3) with (steps w2). rewrite Hs. subst w1. cbn [steps set_steps].
    apply existsb_true_iff. apply existsb_true_iff in Hstep as (s & Hin & Hid).
    exists (step_set_running now (job_attempt job) s). split.
    - apply update_where_elem. exists s. split; [done |]. by rewrite Hid.
    - cbn. done. }
  rewrite (bind_ok _ _ w3 tt _ (stepExecution_update_ok _ _ _ Hstep3)).
  unfold mbind, M_bind, modify. subst w3. cbn -[Z.pow Z.mul].
  rewrite Ht, Hr, Hd, He, Hv.
  split; [done |]. split; [by eexists |]. split; [lia |]. split; [done |].
  split; [done |]. split; [done |].
  split; [apply lookup_delete_eq |].
  intros s Hin Hid.
  apply update_where_elem in Hin as (y & Hy & ->).
  destruct (bool_decide (st_id y = job_stepId job)) eqn:Hb; [done |].
  apply bool_decide_eq_false_1 in Hb. done.
Qed.

Lemma processJob_schedules_one_retry_witness :
  let r := processJob failing_registry 5 job_B world_A in
  let key := Idempotency.generateKey (job_executionId job_B) (node_id (job_node job_B)) in
  r.1 = Ok tt ∧
  (∃ delay, timers r.2 = timers world_A ++ [(delay, job_B)]) ∧
  totalRetries r.2 = totalRetries world_A + 1 ∧
  dlq r.2 = dlq world_A ∧
  executions r.2 = executions world_A ∧
  executionEvents r.2 = executionEvents world_A ∧
  idempotencyStore r.2 !! key = None ∧
  (∀ s, s ∈ steps r.2 → st_id s = job_stepId job_B →
        st_status s = StPending ∧ st_attempts s = job_attempt job_B).
Proof.
  apply (processJob_schedules_one_retry failing_registry failing_handler
           5 job_B world_A).
  - reflexivity.
  - exact world_A_has_step.
  - reflexivity.
Defined.

Lemma run_handler_failed_rows registry handler job w :
  registry (node_type (job_node job)) = Some handler →
  res_status (outcome_of handler job) = RFailed →
  jobRows (run_handler registry job w).2
    = update_where (λ r, bool_decide (jq_id r = job_id job))
        (job_set_failed (or_default (res_error (outcome_of handler job)) "Unknown error"))
        (jobRows w).
Proof.
  intros Hreg Hfailed.
  assert (∀ error,
            jobRows (JobQueue_markFailed (job_id job) error w).2
            = update_where (λ r, bool_decide (jq_id r = job_id job))
                (job_set_failed (or_default error "Unknown error")) (jobRows w)) as Hmark.
  { intros error. rewrite JobQueue_markFailed_eq. cbn [snd].
    destruct (existsb _ (jobRows w)) eqn:Hex; [reflexivity |].
    cbn [jobRows set_counters]. symmetry. apply update_where_fresh.
    intros x Hx. apply not_true_is_false. intros Hp.
    apply not_true_iff_false in Hex. apply Hex.
    apply existsb_true_iff. by exists x. }
  unfold run_handler, outcome_of in *. rewrite Hreg.
  destruct (handler job) as [result|message].
  - rewrite (bool_decide_eq_false_2 (res_status result = RCompleted))
      by (rewrite Hfailed; discriminate).
    unfold mbind, M_bind.
    rewrite <- Hmark. by destruct (JobQueue_markFailed _ _ w) as [[[]|e] w1].
  - unfold mbind, M_bind. cbn [synthetic_failure res_error].
    rewrite <- Hmark. by destruct (JobQueue_markFailed _ _ w) as [[[]|e] w1].
Qed.

(** X12.  A retried job is never run again by a worker.  The job that the
    retry timer enqueues has the id of the job that failed, whose row is
    still in the queue table; so when the timer fires, the insert fails
    and is swallowed: the job is emitted as an event, but the table is
    unchanged, its row for the job stays [failed], and (no other row being
    pending) the next [dequeue] finds nothing to do. *)
Theorem retried_job_is_never_dequeued :
  ∀ (registry : HandlerRegistry) (handler : ActionHandler) (now later : Z)
    (workerId : string) (job : WorkerJob) (w : World),
    registry (node_type (job_node job)) = Some handler →
    step_exists (job_stepId job) w →
    retries (outcome_of handler job) job = true →
    (∃ row, row ∈ jobRows w ∧ jq_id row = job_id job) →
    (∀ x, x ∈ jobRows w → jq_id x ≠ job_id job → jq_status x ≠ JqPending) →
    let w1 := (processJob registry now job w).2 in
    let r := fire_timer later job w1 in
    r.1 = Ok tt ∧
    jobEvents r.2 = jobEvents w1 ++ [retryJob_of later job] ∧
    jobRows r.2 = jobRows w1 ∧
    (∀ x, x ∈ jobRows r.2 → jq_id x = job_id job → jq_status x = JqFailed) ∧
    JobQueue_dequeue later workerId r.2 = (Ok None, r.2).
Proof.
  intros registry handler now later workerId job w Hreg Hstep Hretry
    (row & Hrow & Hid) Hothers w1 r.
  assert (res_status (outcome_of handler job) = RFailed) as Hfailed.
  { unfold retries in Hretry.
    apply andb_true_iff in Hretry as [Hretry _].
    apply andb_true_iff in Hretry as [Hretry _].
    by apply bool_decide_eq_true_1 in Hretry. }
  set (failed := job_set_failed
                   (or_default (res_error (outcome_of handler job)) "Unknown error")).
  assert (jobRows w1
          = update_where (λ x, bool_decide (jq_id x = job_id job)) failed (jobRows w))
    as Hrows.
  { subst w1. apply step_exists_existsb in Hstep.
    rewrite processJob_unfold by exact Hstep.
    set (w0 := set_steps _ w).
    rewrite (bind_ok _ _ w0 _ _ (run_handler_split registry handler job w0 Hreg)).
    rewrite Hretry.
    pose proof (run_handler_failed_rows registry handler job w0 Hreg Hfailed) as Hr.
    change (jobRows w0) with (jobRows w) in Hr. fold failed in Hr. rewrite <- Hr.
    generalize ((run_handler registry job w0).2).
    change (preserves jobRows
              (let '(backoff, multiplier) := getRetryConfig (node_config (job_node job)) in
               let delay := backoff * multiplier ^ (job_attempt job - 1) in
               modify (set_totalRetries (Z.add 1));;
               recordAudit "step.retried" "step" (job_stepId job);;
               stepExecution_update (job_stepId job)
                 (step_set_retry
                    ("Retry " +:+ pretty (job_attempt job) +:+ "/"
                       +:+ pretty (job_maxRetries job) +:+ ": "
                       +:+ default "undefined" (res_error (outcome_of handler job)))
                    (job_attempt job));;
               modify (set_idempotencyStore
                         (Idempotency.remove
                            (Idempotency.generateKey (job_executionId job)
                               (node_id (job_node job)))));;
               modify (set_timers (λ l, l ++ [(delay, job)])))).
    frame. }
  assert (∀ x, x ∈ jobRows w1 →
               (jq_id x = job_id job → jq_status x = JqFailed) ∧
               jq_status x ≠ JqPending) as Hstatus.
  { intros x. rewrite Hrows. intros (y & Hy & ->)%update_where_elem.
    case_bool_decide as Hy_id.
    - split; [done | discriminate].
    - split; [done | by apply Hothers]. }
  assert (existsb (λ x, bool_decide (jq_id x = job_id (retryJob_of later job)))
            (jobRows w1) = true) as Hex.
  { apply existsb_true_iff. exists (failed row). split.
    - rewrite Hrows. apply update_where_elem. exists row. split; [done |].
      by rewrite (bool_decide_eq_true_2 _ Hid).
    - apply bool_decide_eq_true_2. exact Hid. }
  subst r. unfold fire_timer. rewrite JobQueue_enqueue_eq, Hex. cbn [fst snd].
  split; [done |]. split; [done |]. split; [done |]. split.
  - intros x Hx. by apply Hstatus.
  - apply dequeue_nothing_pending. intros x Hx. by apply Hstatus.
Qed.

Lemma retried_job_is_never_dequeued_witness :
  let w1 := (processJob failing_registry 5 job_B processing_world).2 in
  let r := fire_timer 25 job_B w1 in
  r.1 = Ok tt ∧
  jobEvents r.2 = jobEvents w1 ++ [retryJob_of 25 job_B] ∧
  jobRows r.2 = jobRows w1 ∧
  (∀ x, x ∈ jobRows r.2 → jq_id x = job_id job_B → jq_status x = JqFailed) ∧
  JobQueue_dequeue 25 "worker-1" r.2 = (Ok None, r.2).
Proof.
  apply (retried_job_is_never_dequeued failing_registry failing_handler 5 25
           "worker-1" job_B processing_world).
  - reflexivity.
  - exact world_A_has_step.
  - reflexivity.
  - eexists. split; [left | reflexivity].
  - intros x ->%list_elem_of_singleton Hne. by destruct Hne.
Defined.

(** Once the step row is there, [handleResult] leaves the outcome on it,
    whether the rest of it returns or throws. *)
Lemma handleResult_records now result w :
  step_exists (res_stepId result) w →
  recorded (res_stepId result) (status_of_result (res_status result))
    (handleResult now result w).2.
Proof.
  intros Hstep. apply step_exists_existsb in Hstep.
  unfold handleResult.
  rewrite (bind_ok _ _ w tt _ (stepExecution_update_ok _ _ _ Hstep)).
  set (w1 := set_steps _ w).
  assert (recorded (res_stepId result) (status_of_result (res_status result)) w1)
    as Hrec.
  { apply existsb_true_iff in Hstep as (s & Hs & Hid).
    apply bool_decide_eq_true_1 in Hid.
    exists (step_set_outcome (status_of_result (res_status result))
              (Js.VObject <$> res_result result) (or_null (res_error result)) now s).
    split; [| by split].
    apply update_where_elem. exists s. split; [done |].
    by rewrite (bool_decide_eq_true_2 _ Hid). }
  revert Hrec. generalize w1. clear w1.
  destruct (res_status result); cbn [status_of_result].
  - apply keeps_bind; [apply keeps_of_preserves; frame |].
    intros [execution|]; [apply keeps_advance | apply keeps_ret].
  - apply keeps_bind.
    { apply keeps_of_preserves. by apply preserves_execution_update. }
    intros _. apply keeps_bind; [| intros; apply keeps_of_preserves; frame].
    intros w1 (s & Hs & Hid & Hst). exists s. split; [| done].
    cbn. apply update_where_elem. exists s. split; [done |].
    rewrite Hst. cbn. by rewrite andb_false_r.
Qed.

(** X13.  When the result of a registered handler is not to be retried
    and names the step of the job, [processJob] sets no timer and leaves
    the outcome on the step row, and the dead-letter queue gains an entry
    for the job exactly when the result is a failure and the job allows
    retries; this holds of what it has written whether the result handler
    returns, throws, or does not come back from skipping a branch.  When
    the result is a failure, [processJob] returns. *)
Theorem processJob_final_result :
  ∀ (registry : HandlerRegistry) (handler : ActionHandler) (now : Z)
    (job : WorkerJob) (w : World),
    registry (node_type (job_node job)) = Some handler →
    step_exists (job_stepId job) w →
    retries (outcome_of handler job) job = false →
    res_stepId (outcome_of handler job) = job_stepId job →
    let result := outcome_of handler job in
    let r := processJob registry now job w in
    timers r.2 = timers w ∧
    dlq r.2 = dlq w ++
      (if bool_decide (res_status result = RFailed)
          && bool_decide (job_maxRetries job > 0)
       then [mkDLQItem job (or_default (res_error result) "Unknown error")
               (job_attempt job) now]
       else []) ∧
    recorded (job_stepId job) (status_of_result (res_status result)) r.2 ∧
    (res_status result = RFailed → r.1 = Ok tt).
Proof.
  intros registry handler now job w Hreg Hstep Hretry Hsid result r. subst r.
  pose proof Hstep as Hstep0.
  apply step_exists_existsb in Hstep.
  rewrite processJob_unfold by exact Hstep.
  set (w1 := set_steps _ w).
  rewrite (bind_ok _ _ w1 _ _ (run_handler_split registry handler job w1 Hreg)).
  rewrite Hretry. fold result.
  assert (steps (run_handler registry job w1).2 = steps w1) as Hs
    by (by apply preserves_run_handler).
  assert (timers (run_handler registry job w1).2 = timers w) as Ht
    by (by rewrite (preserves_run_handler timers)).
  assert (dlq (run_handler registry job w1).2 = dlq w) as Hd
    by (by rewrite (preserves_run_handler dlq)).
  set (w2 := (run_handler registry job w1).2) in *.
  set (items := if bool_decide (res_status result = RFailed)
                   && bool_decide (job_maxRetries job > 0)
                then [mkDLQItem job (or_default (res_error result) "Unknown error")
                        (job_attempt job) now]
                else []).
  set (pre := if bool_decide (res_status result = RFailed)
                 && bool_decide (job_maxRetries job > 0)
              then dlq_add now job (or_default (res_error result) "Unknown error")
                     (job_attempt job);;
                   recordAudit "dlq.entry" "step" (job_stepId job)
              else mret tt).
  assert (∃ w3, pre w2 = (Ok tt, w3) ∧ steps w3 = steps w2 ∧
                timers w3 = timers w ∧ dlq w3 = dlq w ++ items) as (w3 & Hpre & Hs3 & Ht3 & Hd3).
  { subst pre items. destruct (_ && _).
    - eexists. split; [reflexivity |]. cbn. by rewrite Ht, Hd.
    - exists w2. split; [reflexivity |]. by rewrite Ht, Hd, app_nil_r. }
  rewrite (bind_ok _ _ w2 tt w3 Hpre).
  assert (step_exists (res_stepId result) w3) as Hstep3.
  { unfold step_exists. subst result. rewrite Hsid, Hs3, Hs. subst w1. cbn [steps set_steps].
    destruct Hstep0 as (s & Hin & Hid).
    exists (step_set_running now (job_attempt job) s). split; [| done].
    apply update_where_elem. exists s. split; [done |].
    by rewrite (bool_decide_eq_true_2 _ Hid). }
  pose proof (handleResult_records now result w3 Hstep3) as Hrec.
  unfold result in Hrec at 1. rewrite Hsid in Hrec.
  assert (timers (handleResult now result w3).2 = timers w3) as Ht4
    by (by apply preserves_handleResult).
  assert (dlq (handleResult now result w3).2 = dlq w3) as Hd4
    by (by apply preserves_handleResult).
  unfold try_catch.
  destruct (handleResult now result w3) as [[[]|e] w4]; cbn in *;
    rewrite Ht4, Hd4, Ht3, Hd3; done.
Qed.

Lemma processJob_final_result_witness :
  let result := outcome_of failing_handler job_A in
  let r := processJob failing_registry 5 job_A world_A in
  timers r.2 = timers world_A ∧
  dlq r.2 = dlq world_A ++
    (if bool_decide (res_status result = RFailed)
        && bool_decide (job_maxRetries job_A > 0)
     then [mkDLQItem job_A (or_default (res_error result) "Unknown error")
             (job_attempt job_A) 5]
     else []) ∧
  recorded (job_stepId job_A) (status_of_result (res_status result)) r.2 ∧
  (res_status result = RFailed → r.1 = Ok tt).
Proof.
  apply (processJob_final_result failing_registry failing_handler 5 job_A world_A).
  - reflexivity.
  - exact world_A_has_step.
  - reflexivity.
  - reflexivity.
Defined.

(** ** The result handler, the orchestrator and the condition handler, continued *)

Lemma execution_exists_existsb eid w :
  execution_exists eid w ↔
  existsb (λ e, bool_decide (ex_id e = eid)) (executions w) = true.
Proof.
  rewrite existsb_true_iff. split; intros (s & Hs & Hid); exists s.
  - split; [done | by apply bool_decide_eq_true_2].
  - split; [done | by apply bool_decide_eq_true_1 in Hid].
Qed.

(** X14.  A failed result closes its execution: when the step and the
    execution have rows, [handleResult] returns, leaves no step of the
    execution [pending], adds and removes no step row, does not touch the
    queue table, and emits the one signal [done:<executionId>] carrying
    the failure and its error. *)
Theorem handleResult_failure_closes_execution :
  ∀ (now : Z) (result : WorkerResult) (w : World),
    step_exists (res_stepId result) w →
    execution_exists (res_executionId result) w →
    res_status result = RFailed →
    let r := handleResult now result w in
    r.1 = Ok tt ∧
    (∀ s, s ∈ steps r.2 → st_executionId s = res_executionId result →
          st_status s ≠ StPending) ∧
    length (steps r.2) = length (steps w) ∧
    jobRows r.2 = jobRows w ∧
    executionEvents r.2 = executionEvents w ++
      [("done:" +:+ res_executionId result,
        mkDone RFailed None (res_error result))].
Proof.
  intros now result w Hstep Hexec Hfailed r. subst r.
  apply step_exists_existsb in Hstep. apply execution_exists_existsb in Hexec.
  unfold handleResult.
  rewrite (bind_ok _ _ w tt _ (stepExecution_update_ok _ _ _ Hstep)).
  rewrite Hfailed.
  set (w1 := set_steps _ w).
  assert (existsb (λ e, bool_decide (ex_id e = res_executionId result))
            (executions w1) = true) as Hexec1 by exact Hexec.
  rewrite (bind_ok _ _ w1 tt _ (execution_update_ok _ _ _ Hexec1)).
  unfold stepExecution_updateMany, recordAudit, emit_done, mbind, M_bind, modify.
  subst w1. cbn.
  split; [done |]. split; [| split; [| done]].
  - intros s Hs Heid Hpending.
    apply update_where_elem in Hs as (y & Hy & ->).
    destruct (bool_decide (st_executionId y = res_executionId result)
              && bool_decide (st_status y = StPending)) eqn:Hb.
    + cbn in Hpending. discriminate.
    + apply andb_false_iff in Hb as [Hb | Hb]; apply bool_decide_eq_false_1 in Hb; done.
  - unfold update_where. by rewrite !length_map.
Qed.

Lemma handleResult_failure_closes_execution_witness :
  let r := handleResult 7 (late_result RFailed) world_A in
  r.1 = Ok tt ∧
  (∀ s, s ∈ steps r.2 → st_executionId s = res_executionId (late_result RFailed) →
        st_status s ≠ StPending) ∧
  length (steps r.2) = length (steps world_A) ∧
  jobRows r.2 = jobRows world_A ∧
  executionEvents r.2 = executionEvents world_A ++
    [("done:" +:+ res_executionId (late_result RFailed),
      mkDone RFailed None (res_error (late_result RFailed)))].
Proof.
  apply (handleResult_failure_closes_execution 7 (late_result RFailed) world_A).
  - exact world_A_has_step.
  - exact world_A_has_execution.
  - reflexivity.
Defined.

Lemma filter_none {A} (P : A → Prop) `{∀ x, Decision (P x)} (l : list A) :
  (∀ x, x ∈ l → ¬ P x) → filter P l = [].
Proof.
  intros Hl. induction l as [|x l IH]; [done |].
  rewrite filter_cons_False by (apply Hl; left).
  apply IH. intros y Hy. apply Hl. by right.
Qed.

(** *** What [executeWorkflow] checks *)

(** Publishing a node for an execution that has its row always returns,
    as long as the ids that the database has yet to generate are not in
    use; and it leaves the world so. *)
Lemma publishJob_returns now eid node input prev attempt w :
  execution_exists eid w → step_ids_fresh w →
  let r := publishJob now eid node input prev attempt w in
  (∃ sid, r.1 = Ok sid) ∧ execution_exists eid r.2 ∧ step_ids_fresh r.2 ∧
  executions r.2 = executions w.
Proof.
  intros Hex Hfresh r. subst r.
  set (sid := "id-" +:+ pretty (nextId w)).
  set (row := mkStepRow sid eid (node_id node) (node_label node) (node_type node)
                StPending attempt None None (Some now) None).
  assert (∀ s, s ∈ steps w → st_id s ≠ sid) as Hfresh0.
  { intros s Hs. by apply Hfresh. }
  assert (∀ s n, s ∈ steps w ++ [row] → (N.succ (nextId w) <= n)%N →
                 st_id s ≠ "id-" +:+ pretty n) as Hfresh1.
  { intros s n [Hs | ->%list_elem_of_singleton]%elem_of_app Hn.
    - apply Hfresh; [done | lia].
    - cbn. intros Heq. apply (inj (String.append "id-")) in Heq.
      apply (inj pretty) in Heq. lia. }
  unfold publishJob.
  rewrite (bind_ok _ _ w row (set_steps (λ l, l ++ [row]) (set_nextId N.succ w)))
    by (by apply stepExecution_create_ok).
  set (w1 := set_steps _ _).
  assert (∃ check st,
            idempotency_checkAndSet now
              (Idempotency.generateKey eid (node_id node)) (st_id row) w1
            = (Ok check, set_idempotencyStore (λ _, st) w1)) as (check & st & Hcheck).
  { unfold idempotency_checkAndSet.
    destruct (Idempotency.checkAndSet _ _ _ _ _) as [c st]. by exists c, st. }
  rewrite (bind_ok _ _ _ _ _ Hcheck).
  set (w2 := set_idempotencyStore _ w1).
  destruct (duplicate_of check) as [existing|].
  - assert (stepExecution_delete (st_id row) w2
            = (Ok tt, set_steps (filter (λ s, st_id s ≠ st_id row)) w2)) as Hdel.
    { unfold stepExecution_delete.
      rewrite (bind_ok _ _ w2 w2 w2) by reflexivity.
      cbn [steps w2 w1 set_idempotencyStore set_steps set_nextId].
      rewrite existsb_app. cbn [existsb].
      rewrite (bool_decide_eq_true_2 _ eq_refl), orb_true_r. reflexivity. }
    rewrite (bind_ok _ _ _ _ _ Hdel). cbn [fst snd].
    split; [by eexists |]. split; [exact Hex |]. split; [| done].
    intros s n Hs Hn.
    change (s ∈ filter (λ s, st_id s ≠ st_id row) (steps w ++ [row])) in Hs.
    change ((N.succ (nextId w) <= n)%N) in Hn.
    apply list_elem_of_filter in Hs as [Hne Hs].
    apply elem_of_app in Hs as [Hs | ->%list_elem_of_singleton]; [| done].
    apply Hfresh; [done | lia].
  - pose proof (publishJob_tail_ok (st_id row)
                  (published_job now (st_id row) eid node input prev attempt) w2)
      as Ht.
    cbn zeta in Ht. destruct Ht as (H1 & H2 & H3 & H4 & _).
    change (published_job now (st_id row) eid node input prev attempt)
      with {| job_id := st_id row; job_executionId := eid; job_stepId := st_id row;
              job_node := node; job_input := input; job_previousResults := prev;
              job_attempt := attempt; job_maxRetries := getMaxRetries node;
              job_createdAt := now |} in *.
    split; [by eexists |].
    split; [unfold execution_exists; by rewrite H3 |].
    split; [| by rewrite H3].
    intros s n. rewrite H2, H4. cbn. apply Hfresh1.
Qed.

(** A loop whose body always returns, and keeps what it needs to do so,
    returns. *)
Lemma for_each_returns {A} (P : World → Prop) (xs : list A) (body : A → M unit) :
  (∀ x w, P w → (body x w).1 = Ok tt ∧ P (body x w).2) →
  ∀ w, P w → (for_each xs body w).1 = Ok tt ∧ P (for_each xs body w).2.
Proof.
  intros Hbody. induction xs as [|x xs IH]; intros w HP; [done |].
  cbn [for_each]. unfold mbind, M_bind.
  destruct (Hbody x w HP) as [Hok HP'].
  destruct (body x w) as [[[]|e] w1]; [| discriminate]. by apply IH.
Qed.



(** X15.  A workflow whose every node has an incoming edge has nothing to
    start with: [executeWorkflow] creates the execution row and completes
    it at once, with the empty object as output, without creating a step,
    enqueueing a job or emitting a completion signal. *)
Theorem executeWorkflow_without_initial_nodes :
  ∀ (now : Z) (workflowId : string) (input : option Js.value)
    (userId : option string) (w : World) (workflow : WorkflowRow),
    List.find (λ r, bool_decide (wf_id r = workflowId)) (workflows w) = Some workflow →
    (∀ n, n ∈ nodes (wf_definitionJson workflow) →
          node_id n ∈ map edge_target (edges (wf_definitionJson workflow))) →
    (∀ e, e ∈ executions w → ex_id e ≠ "id-" +:+ pretty (nextId w)) →
    let r := executeWorkflow now workflowId input userId w in
    let eid := "id-" +:+ pretty (nextId w) in
    r.1 = Ok (Returned (mkOrchestratorResult eid RCompleted (Some []) None)) ∧
    executions r.2 = executions w ++
      [mkExecutionRow eid workflowId ExCompleted input (Some (Js.VObject []))
         (or_null userId) (Some now) (Some now)] ∧
    steps r.2 = steps w ∧
    jobRows r.2 = jobRows w ∧
    executionEvents r.2 = executionEvents w.
Proof.
  intros now workflowId input userId w workflow Hfind Hincoming Hfresh r eid.
  subst r. unfold executeWorkflow.
  rewrite (bind_ok _ _ w (Some workflow) w)
    by (unfold workflow_findUnique; rewrite (bind_ok _ _ w w w) by reflexivity;
        by rewrite Hfind).
  set (row := mkExecutionRow eid workflowId ExRunning input None (or_null userId)
                (Some now) None).
  set (w2 := set_executions (λ l, l ++ [row]) (set_nextId N.succ w)).
  rewrite (bind_ok _ _ w row w2).
  2:{ unfold execution_create.
      rewrite (bind_ok _ _ w w w) by reflexivity.
      rewrite (find_existsb _ _ _ Hfind).
      rewrite (bind_ok _ _ w eid (set_nextId N.succ w)) by reflexivity.
      rewrite (existsb_fresh (λ e, bool_decide (ex_id e = eid)) (executions w));
        [reflexivity |].
      intros e He. apply bool_decide_eq_false_2. by apply Hfresh. }
  rewrite (bind_ok _ _ w2 tt
             (set_auditLog
                (λ l, l ++ [mkAudit "execution.started" "execution" (ex_id row)]) w2))
    by reflexivity.
  set (w3 := set_auditLog _ w2).
  rewrite bool_decide_eq_true_2.
  2:{ apply filter_none. intros n Hn.
      unfold has. rewrite bool_decide_eq_true_2 by (by apply Hincoming). done. }
  assert (existsb (λ e, bool_decide (ex_id e = ex_id row)) (executions w3) = true)
    as Hex.
  { cbn. rewrite existsb_app. cbn.
    rewrite (bool_decide_eq_true_2 _ eq_refl). by rewrite orb_true_r. }
  rewrite (bind_ok _ _ w3 tt _ (execution_update_ok _ _ _ Hex)).
  cbn. split; [done |]. split; [| done].
  rewrite map_app. cbn.
  rewrite (bool_decide_eq_true_2 _ eq_refl). f_equal.
  apply (update_where_fresh (λ e, bool_decide (ex_id e = eid))).
  intros e He. apply bool_decide_eq_false_2. by apply Hfresh.
Qed.

Lemma executeWorkflow_without_initial_nodes_witness :
  let r := executeWorkflow 1000 "wf-2" None None cyclic_world in
  let eid := "id-" +:+ pretty (nextId cyclic_world) in
  r.1 = Ok (Returned (mkOrchestratorResult eid RCompleted (Some []) None)) ∧
  executions r.2 = executions cyclic_world ++
    [mkExecutionRow eid "wf-2" ExCompleted None (Some (Js.VObject []))
       (or_null None) (Some 1000) (Some 1000)] ∧
  steps r.2 = steps cyclic_world ∧
  jobRows r.2 = jobRows cyclic_world ∧
  executionEvents r.2 = executionEvents cyclic_world.
Proof.
  apply (executeWorkflow_without_initial_nodes 1000 "wf-2" None None cyclic_world
           (mkWorkflowRow "wf-2" "loop" cyclic_definition WfActive)).
  - reflexivity.
  - intros n [-> | ->%list_elem_of_singleton]%elem_of_cons; cbn.
    + right. left.
    + left.
  - intros e He. by apply elem_of_nil in He.
Defined.


Lemma appends_ret {A} P (a : A) : appends P (mret a).
Proof. intros w. exists []. by rewrite app_nil_r. Qed.

Lemma appends_throw {A} P e : appends P (@throw A e).
Proof. intros w. exists []. by rewrite app_nil_r. Qed.

Lemma appends_bind {A B} P (m : M A) (k : A → M B) :
  appends P m → (∀ a, appends P (k a)) → appends P (m ≫= k).
Proof.
  intros Hm Hk w. unfold mbind, M_bind.
  destruct (Hm w) as (new1 & H1 & HP1).
  destruct (m w) as [[a|e] w1]; cbn in *.
  - destruct (Hk a w1) as (new2 & H2 & HP2).
    exists (new1 ++ new2). rewrite H2, H1, app_assoc. split; [done |].
    by apply Forall_app.
  - by exists new1.
Qed.

Lemma appends_for_each {A} P (xs : list A) body :
  (∀ x, appends P (body x)) → appends P (for_each xs body).
Proof.
  intros Hb. induction xs as [|x xs IH]; cbn.
  - apply appends_ret.
  - apply appends_bind; auto.
Qed.

Lemma appends_stepExecution_create (P : StepRow → Prop)
    eid nid label type status attempts started completed :
  (∀ id, P (mkStepRow id eid nid label type status attempts None None
              started completed)) →
  appends P (stepExecution_create eid nid label type status attempts started completed).
Proof.
  intros HP w. unfold stepExecution_create.
  rewrite (bind_ok _ _ w w w) by reflexivity.
  destruct (existsb _ (executions w)).
  - rewrite (bind_ok _ _ w ("id-" +:+ pretty (nextId w)) (set_nextId N.succ w))
      by reflexivity.
    destruct (existsb _ _).
    + exists []. by rewrite app_nil_r.
    + eexists [_]. split; [reflexivity |]. constructor; [apply HP | constructor].
  - exists []. by rewrite app_nil_r.
Qed.

(** X17.  [skipBranch] only ever appends rows to the steps table, whether
    it returns or throws, and every row it appends is a [skipped] step of
    the execution, for a node of the definition that is not a join and was
    neither completed nor pending or running. *)
Theorem skipBranch_only_adds_skipped_rows :
  ∀ (depth : nat) (now : Z) (nodeIds : list string)
    (definition : WorkflowDefinition) (executionId : string)
    (completedNodeIds pendingOrRunningNodeIds : list string) (w : World),
    ∃ new,
      steps (skipBranch depth now nodeIds definition executionId
               completedNodeIds pendingOrRunningNodeIds w).2 = steps w ++ new ∧
      Forall
        (λ s, st_status s = StSkipped ∧
              st_executionId s = executionId ∧
              st_nodeType s ≠ NJoin ∧
              (st_nodeId s ∉ completedNodeIds) ∧
              (st_nodeId s ∉ pendingOrRunningNodeIds) ∧
              ∃ n, n ∈ nodes definition ∧ node_id n = st_nodeId s
                   ∧ node_type n = st_nodeType s)
        new.
Proof.
  intros depth now nodeIds definition eid completed pending.
  change (appends
            (λ s, st_status s = StSkipped ∧
                  st_executionId s = eid ∧
                  st_nodeType s ≠ NJoin ∧
                  (st_nodeId s ∉ completed) ∧
                  (st_nodeId s ∉ pending) ∧
                  ∃ n, n ∈ nodes definition ∧ node_id n = st_nodeId s
                       ∧ node_type n = st_nodeType s)
            (skipBranch depth now nodeIds definition eid completed pending)).
  revert nodeIds.
  induction depth as [|depth IH]; intros nodeIds; cbn [skipBranch].
  - apply appends_throw.
  - apply appends_for_each. intros nodeId.
    destruct (has nodeId completed || has nodeId pending) eqn:Hseen;
      [apply appends_ret |].
    apply orb_false_iff in Hseen as [Hc Hp].
    apply bool_decide_eq_false_1 in Hc. apply bool_decide_eq_false_1 in Hp.
    destruct (List.find _ _) as [node|] eqn:Hfind; [| apply appends_ret].
    apply find_some in Hfind as [Hin Hid].
    apply list_elem_of_In in Hin. apply bool_decide_eq_true_1 in Hid.
    case_bool_decide as Hjoin; [apply appends_ret |].
    apply appends_bind.
    + apply appends_stepExecution_create. intros id. cbn.
      rewrite Hid. repeat split; try done. by exists node.
    + intros _. destruct (bool_decide _); [apply IH | apply appends_ret].
Qed.

(** ** The cron parser, continued *)

Section CronMore.
Import CronParser.

(** Until it returns, the search has seen no match. *)
Lemma search_first tz fields remaining : ∀ candidate d,
  search tz fields remaining candidate = Some d →
  ∃ k : nat, (k < remaining)%nat ∧ d = candidate + 60000 * Z.of_nat k ∧
    ∀ j : nat, (j < k)%nat → matches tz fields (candidate + 60000 * Z.of_nat j) = false.
Proof.
  induction remaining as [|remaining IH]; intros candidate d; cbn [search].
  - discriminate.
  - destruct (matches tz fields candidate) eqn:Hm.
    + intros [= <-]. exists 0%nat. split; [lia |]. split; [lia |]. intros j Hj. lia.
    + intros H. destruct (IH _ _ H) as (k & Hk & -> & Hfirst).
      exists (S k). split; [lia |]. split; [lia |].
      intros [|j] Hj.
      * by replace (candidate + 60000 * Z.of_nat 0) with candidate by lia.
      * replace (candidate + 60000 * Z.of_nat (S j))
          with (candidate + 60000 + 60000 * Z.of_nat j) by lia.
        apply Hfirst. lia.
Qed.

(** X18.  For a process whose local time is at a fixed offset [tz] from
    UTC (no daylight-saving change), what [getNextRunTime e from] returns
    is the first due minute after [from]: it lies after [from], on a whole
    minute, at most 366 days ahead, and [shouldRun e] is false at every
    whole minute in between. *)
Theorem getNextRunTime_is_first_match :
  ∀ (tz : Z) (e : string) (from d : Z),
    getNextRunTime tz e from = Some d →
    from < d ∧
    d mod 60000 = 0 ∧
    d <= from + 366 * 24 * 60 * 60000 ∧
    ∀ t, from < t < d → t mod 60000 = 0 → shouldRun tz e t = false.
Proof.
  intros tz e from d. unfold getNextRunTime, shouldRun.
  destruct (parseCron e) as [fields|message]; [| discriminate].
  intros H. apply search_first in H as (k & Hk & -> & Hfirst).
  unfold maxIterations in Hk.
  pose proof (Z.mod_pos_bound from 60000 ltac:(lia)) as Hmod.
  split; [lia |]. split.
  - rewrite (Z.div_mod from 60000) at 1 by lia.
    replace (60000 * (from / 60000) + from mod 60000 - from mod 60000 + 60000
             + 60000 * Z.of_nat k)
      with ((from / 60000 + 1 + Z.of_nat k) * 60000) by lia.
    apply Z.mod_mul. lia.
  - split; [lia |].
    intros t [Hlo Hhi] Ht.
    pose proof (Z.div_mod t 60000 ltac:(lia)) as Hdt. rewrite Ht in Hdt.
    pose proof (Z.div_mod from 60000 ltac:(lia)) as Hdf.
    set (j := t / 60000 - from / 60000 - 1).
    assert (0 <= j < Z.of_nat k) as Hj by (subst j; lia).
    replace t with (from - from mod 60000 + 60000 + 60000 * Z.of_nat (Z.to_nat j))
      by (subst j; lia).
    apply Hfirst. lia.
Qed.

Lemma getNextRunTime_is_first_match_witness :
  1000 < 12600000 ∧
  12600000 mod 60000 = 0 ∧
  12600000 <= 1000 + 366 * 24 * 60 * 60000 ∧
  ∀ t, 1000 < t < 12600000 → t mod 60000 = 0 →
       shouldRun 330 "*/15 9-17 * * 1-5" t = false.
Proof.
  apply (getNextRunTime_is_first_match 330 "*/15 9-17 * * 1-5" 1000 12600000).
  vm_compute. reflexivity.
Defined.

(** X19.  An expression that [validateCronExpression] reports an error for
    is never due and has no next run time: at every time and in every time
    zone offset, [shouldRun] is false and [getNextRunTime] is [null]. *)
Theorem invalid_cron_never_runs :
  ∀ (tz : Z) (e : string) (t : Z),
    validateCronExpression e ≠ None →
    shouldRun tz e t = false ∧ getNextRunTime tz e t = None.
Proof.
  intros tz e t. unfold validateCronExpression, shouldRun, getNextRunTime.
  by destruct (parseCron e).
Qed.

Lemma invalid_cron_never_runs_witness :
  shouldRun 330 "*/15 9-17 * *" 12600000 = false ∧
  getNextRunTime 330 "*/15 9-17 * *" 12600000 = None.
Proof.
  apply (invalid_cron_never_runs 330 "*/15 9-17 * *" 12600000).
  vm_compute. discriminate.
Defined.

Lemma parseParts_elem parts min max : ∀ acc values,
  parseParts parts min max acc = Ok values →
  ∀ x, x ∈ values ↔
       x ∈ acc ∨ ∃ part vs, part ∈ parts ∧ parsePart part min max = Ok vs ∧ x ∈ vs.
Proof.
  induction parts as [|part parts IH]; intros acc values; cbn.
  - intros [= <-] x. split; [by left |].
    intros [H | (p & vs & Hp & _)]; [done | by apply elem_of_nil in Hp].
  - destruct (parsePart part min max) as [vs|msg] eqn:Hpart; [| discriminate].
    intros H x. rewrite (IH _ _ H x), elem_of_app. split.
    + intros [[Hacc | Hvs] | (p & vs' & Hp & Hq & Hx)].
      * by left.
      * right. exists part, vs. split; [left | done].
      * right. exists p, vs'. split; [by right | done].
    + intros [Hacc | (p & vs' & Hp & Hq & Hx)]; [by left; left |].
      apply elem_of_cons in Hp as [-> | Hp].
      * left; right. congruence.
      * right. by exists p, vs'.
Qed.

Lemma StronglySorted_le_lt (l : list Z) :
  StronglySorted Z.le l → NoDup l → StronglySorted Z.lt l.
Proof.
  induction 1 as [|x l Hs IH Hall]; intros Hnd; [constructor |].
  apply NoDup_cons in Hnd as [Hx Hnd].
  constructor; [by apply IH |].
  rewrite Forall_forall in *. intros y Hy.
  specialize (Hall y Hy). assert (x ≠ y) by (intros ->; done). lia.
Qed.

(** X20.  A field that parses is read as a set in ascending order: the
    values that [parseField] returns are strictly increasing (so none is
    repeated), and they are exactly the values of the comma-separated
    parts of the field. *)
Theorem parseField_sorted_set :
  ∀ (field : string) (min max : Z) (values : list Z),
    parseField field min max = Ok values →
    StronglySorted Z.lt values ∧
    ∀ x, x ∈ values ↔
         ∃ part vs, part ∈ JsString.split "," field ∧
                    parsePart part min max = Ok vs ∧ x ∈ vs.
Proof.
  intros field min max values. unfold parseField.
  destruct (parseParts _ _ _ _) as [vs|msg] eqn:Hparts; [| discriminate].
  intros [= <-]. split.
  - apply StronglySorted_le_lt.
    + apply StronglySorted_merge_sort; try apply _.
    + rewrite merge_sort_Permutation. apply NoDup_remove_dups.
  - intros x. rewrite merge_sort_Permutation, elem_of_remove_dups.
    rewrite (parseParts_elem _ _ _ _ _ Hparts x). split.
    + intros [H | H]; [by apply elem_of_nil in H | done].
    + by right.
Qed.

Lemma parseField_sorted_set_witness :
  StronglySorted Z.lt [0; 1; 2; 3; 4; 5; 15; 30; 45] ∧
  ∀ x, x ∈ [0; 1; 2; 3; 4; 5; 15; 30; 45] ↔
       ∃ part vs, part ∈ JsString.split "," "5,1-5,*/15" ∧
                  parsePart part 0 59 = Ok vs ∧ x ∈ vs.
Proof.
  apply (parseField_sorted_set "5,1-5,*/15" 0 59).
  vm_compute. reflexivity.
Defined.

End CronMore.

(** ** The DAG validator, continued *)

Section DagMore.
Import Validations.

Lemma end_count_errors_nil l : end_count_errors l = [] ↔ l ≠ [].
Proof.
  unfold end_count_errors. destruct l; cbn; split; try done.
Qed.

Lemma fork_join_errors_nil es n :
  fork_join_errors es n = [] ↔
  (node_type n = NFork →
     (2 <= length (filter (λ e, edge_source e = node_id n) es))%nat) ∧
  (node_type n = NJoin →
     (2 <= length (filter (λ e, edge_target e = node_id n) es))%nat).
Proof.
  unfold fork_join_errors. split.
  - intros [H1 H2]%app_eq_nil. split; intros Ht.
    + rewrite bool_decide_eq_true_2 in H1 by done.
      destruct (decide (length (filter (λ e, edge_source e = node_id n) es) < 2)%nat)
        as [Hlt|Hge]; [| lia].
      by rewrite bool_decide_eq_true_2 in H1.
    + rewrite bool_decide_eq_true_2 in H2 by done.
      destruct (decide (length (filter (λ e, edge_target e = node_id n) es) < 2)%nat)
        as [Hlt|Hge]; [| lia].
      by rewrite bool_decide_eq_true_2 in H2.
  - intros [Hf Hj].
    assert (∀ (P : Prop) `{Decision P} (Q : Prop) `{Decision Q} (x : string),
              (P → ¬ Q) →
              (if bool_decide P then if bool_decide Q then [x] else [] else [])
              = @nil string) as Hnil.
    { intros P ? Q ? x HPQ. case_bool_decide as HP; [| done].
      by rewrite bool_decide_eq_false_2 by auto. }
    rewrite !Hnil; [done | |]; intros Ht; [specialize (Hj Ht) | specialize (Hf Ht)]; lia.
Qed.

Lemma concat_map_nil_iff {A B} (f : A → list B) (l : list A) :
  concat (map f l) = [] ↔ ∀ x, x ∈ l → f x = [].
Proof.
  split; [apply concat_map_nil |].
  induction l as [|y l IH]; cbn; intros H; [done |].
  rewrite (H y) by left. cbn. apply IH. intros x Hx. apply H. by right.
Qed.

Lemma duplicate_ids_NoDup ids : ∀ seen,
  NoDup ids → (∀ x, x ∈ ids → x ∉ seen) → duplicate_ids seen ids = [].
Proof.
  induction ids as [|id rest IH]; intros seen Hnd Hdis; cbn; [done |].
  apply NoDup_cons in Hnd as [Hid Hnd].
  rewrite bool_decide_eq_false_2 by (apply Hdis; left). cbn.
  apply IH; [done |]. intros x Hx.
  intros [->%elem_of_singleton | Hs]%elem_of_union; [done |].
  apply (Hdis x); [by right | done].
Qed.

Lemma structural_errors_nil_full D :
  structural_errors D = [] ↔
  NoDup (map node_id (nodes D)) ∧
  NoDup (map edge_id (edges D)) ∧
  length (filter (λ n, node_type n = NStart) (nodes D)) = 1%nat ∧
  filter (λ n, node_type n = NEnd) (nodes D) ≠ [] ∧
  ∀ e, e ∈ edges D →
    edge_source e ∈ map node_id (nodes D) ∧ edge_target e ∈ map node_id (nodes D).
Proof.
  unfold structural_errors. split.
  - intros H.
    apply app_eq_nil in H as [H1 H]. apply app_eq_nil in H as [H2 H].
    apply app_eq_nil in H as [H3 H]. apply app_eq_nil in H as [H4 H5].
    split; [| split; [| split; [| split]]].
    + apply fmap_nil_inv in H1. by apply duplicate_ids_nil in H1 as [? _].
    + apply fmap_nil_inv in H2. by apply duplicate_ids_nil in H2 as [? _].
    + by apply start_count_errors_nil.
    + by apply end_count_errors_nil.
    + intros e He. pose proof (concat_map_nil _ _ H5 e He) as Hr.
      apply edge_reference_errors_nil in Hr as [Hs Ht].
      by rewrite !elem_of_list_to_set in Hs, Ht.
  - intros (Hn & He & Hs & Hend & Hclosed).
    rewrite !duplicate_ids_NoDup by (done || (intros; apply not_elem_of_empty)).
    cbn [map app].
    unfold start_count_errors. rewrite Hs. cbn.
    rewrite (proj2 (end_count_errors_nil _) Hend). cbn.
    apply concat_map_nil_iff. intros e Hin.
    destruct (Hclosed e Hin) as [H1 H2].
    unfold edge_reference_errors.
    rewrite !bool_decide_eq_true_2; [done | |]; by apply elem_of_list_to_set.
Qed.

(** The structural part of what a verdict of [valid] means. *)
Lemma validateDAG_valid_structure (D : WorkflowDefinition) (r : ValidationResult) :
    validateDAG D = Some r →
    valid r = true →
    errors r = [] ∧
    NoDup (map node_id (nodes D)) ∧
    NoDup (map edge_id (edges D)) ∧
    (∃ n, n ∈ nodes D ∧ node_type n = NEnd) ∧
    (∀ e, e ∈ edges D →
       edge_source e ∈ map node_id (nodes D) ∧
       edge_target e ∈ map node_id (nodes D)) ∧
    (∀ n, n ∈ nodes D → node_type n = NFork →
       (2 <= length (filter (λ e, edge_source e = node_id n) (edges D)))%nat) ∧
    (∀ n, n ∈ nodes D → node_type n = NJoin →
       (2 <= length (filter (λ e, edge_target e = node_id n) (edges D)))%nat).
Proof.
  intros Hv Hvalid.
  destruct (validateDAG_valid_inv D r Hv Hvalid) as (Hstruct & _).
  apply structural_errors_nil_full in Hstruct as (Hn & He & _ & Hend & Hclosed).
  assert (errors r = [] ∧
          concat (map (fork_join_errors (edges D)) (nodes D)) = []) as [Herr Hfj].
  { unfold validateDAG in Hv.
    case_bool_decide as Hns; [injection Hv as <-; discriminate |].
    case_bool_decide as Hs; [injection Hv as <-; discriminate |].
    destruct (kahn _ _ _ _ 0) as [processedCount|]; [| discriminate].
    cbn [mbind option_bind] in Hv.
    destruct (match filter _ (nodes D) with [] => _ | _ => _ end) as [errors2|];
      [| discriminate].
    cbn in Hv. injection Hv as <-. cbn in Hvalid |- *.
    apply bool_decide_eq_true_1 in Hvalid. split; [done |].
    apply app_eq_nil in Hvalid as [_ Hvalid].
    by apply app_eq_nil in Hvalid as [_ Hvalid]. }
  split; [done |]. split; [done |]. split; [done |]. split.
  { destruct (filter (λ n, node_type n = NEnd) (nodes D)) as [|n l] eqn:E; [done |].
    assert (n ∈ filter (λ n, node_type n = NEnd) (nodes D)) as Hin
      by (rewrite E; by left).
    apply list_elem_of_filter in Hin as [Ht Hin]. by exists n. }
  split; [done |].
  split; intros n Hin Ht;
    pose proof (concat_map_nil _ _ Hfj n Hin) as Hnil;
    apply fork_join_errors_nil in Hnil as [Hf Hj]; auto.
Qed.

(** *** Kahn's algorithm processes every node of an acyclic definition *)

Lemma tc_tc {A} (R : relation A) x y : tc (tc R) x y → tc R x y.
Proof.
  induction 1 as [x y H | x y z H _ IH]; [done |].
  by etrans.
Qed.

(** In a non-empty finite set in which every element has a predecessor,
    some element precedes itself. *)
Lemma predecessors_cycle {A} `{EqDecision A} (n : nat) :
  ∀ (l : list A) (R : relation A),
    length l = n → l ≠ [] →
    (∀ x, x ∈ l → ∃ y, y ∈ l ∧ R y x) →
    ∃ x, tc R x x.
Proof.
  induction n as [|n IH]; intros l R Hlen Hne Hpred.
  - by destruct l.
  - destruct l as [|x l]; [done |]. cbn in Hlen.
    destruct (decide (l = [])) as [-> | Hl].
    { destruct (Hpred x ltac:(left)) as (y & Hy & HR).
      apply list_elem_of_singleton in Hy as ->. exists x. by apply tc_once. }
    destruct (decide (x ∈ l)) as [Hin | Hnin].
    { apply (IH l R); [lia | done |].
      intros z Hz. destruct (Hpred z ltac:(by right)) as (y & Hy & HR).
      exists y. split; [| done].
      apply elem_of_cons in Hy as [-> | Hy]; done. }
    destruct (Hpred x ltac:(left)) as (y & Hy & HRy).
    apply elem_of_cons in Hy as [-> | Hy].
    { exists x. by apply tc_once. }
    destruct (IH l (tc R)) as (z & Hz); [lia | done | | exists z; by apply tc_tc].
    intros z Hz. destruct (Hpred z ltac:(by right)) as (u & Hu & HRu).
    apply elem_of_cons in Hu as [-> | Hu].
    + exists y. split; [done |]. eapply tc_l; [exact HRy | by apply tc_once].
    + exists u. split; [done | by apply tc_once].
Qed.

Lemma into_lt_source es done v :
  into es done v < count_into es v →
  ∃ e, e ∈ es ∧ edge_target e = v ∧ edge_source e ∉ done.
Proof.
  induction es as [|e es IH]; intros Hlt.
  - unfold into, count_into in Hlt. cbn in Hlt. lia.
  - rewrite into_cons, count_into_cons in Hlt.
    destruct (decide (edge_target e = v)) as [Ht | Ht].
    + destruct (decide (edge_source e ∈ done)) as [Hs | Hs].
      * rewrite decide_True in Hlt by done.
        destruct IH as (e' & He' & H1 & H2); [lia |].
        exists e'. split; [by right | done].
      * exists e. split; [by left | done].
    + rewrite decide_False in Hlt by (by intros [? _]).
      destruct IH as (e' & He' & H1 & H2); [lia |].
      exists e'. split; [by right | done].
Qed.

(** A neighbour whose degree is used up by the edges from [current] is
    pushed. *)
Lemma relax_pushes neighbors : ∀ m q v,
  1 <= dg m v → dg m v <= occurrences v neighbors →
  v ∈ (relax neighbors (m, q)).2.
Proof.
  induction neighbors as [|n rest IH]; intros m q v Hpos Hocc.
  - unfold occurrences in Hocc. cbn in Hocc. lia.
  - change (relax (n :: rest) (m, q))
      with (relax rest
              (<[n := default 0 (m !! n) - 1]> m,
               if bool_decide (default 0 (m !! n) - 1 = 0) then q ++ [n] else q)).
    set (m1 := <[n := default 0 (m !! n) - 1]> m).
    rewrite occurrences_cons in Hocc.
    destruct (decide (n = v)) as [-> | Hne].
    + fold (dg m v). case_bool_decide as Hzero.
      * destruct (relax_queue rest m1 (q ++ [v])) as (pushed & -> & _).
        apply elem_of_app. left. apply elem_of_app. right. by left.
      * apply IH.
        -- unfold dg, m1. rewrite lookup_insert_eq. cbn. fold (dg m v). lia.
        -- unfold dg, m1. rewrite lookup_insert_eq. cbn. fold (dg m v). lia.
    + assert (dg m1 v = dg m v) as Hm1
        by (unfold dg, m1; by rewrite lookup_insert_ne).
      destruct (bool_decide _); apply IH; rewrite Hm1; lia.
Qed.

Section KahnComplete.
Variable D : WorkflowDefinition.
Hypothesis ids_nodup : NoDup (map node_id (nodes D)).
Hypothesis edges_closed :
  ∀ e, e ∈ edges D →
    edge_source e ∈ map node_id (nodes D) ∧ edge_target e ∈ map node_id (nodes D).

Lemma zero_seen_init :
  let m := build_inDegree (edges D) (init_inDegree (nodes D)) in
  zero_seen D [] (initial_queue (nodes D) m) m.
Proof.
  intros m v Hv Hz. cbn [app]. unfold initial_queue.
  apply list_elem_of_filter. split; [| done].
  subst m. rewrite inDegree_spec by done. f_equal.
  unfold dg in Hz. rewrite inDegree_spec in Hz by done. cbn in Hz.
  unfold count_into in *. lia.
Qed.

Lemma zero_seen_step done current rest m :
  kahn_inv D done (current :: rest) m →
  zero_seen D done (current :: rest) m →
  let state :=
    relax (default [] (build_adjacency (edges D) (init_adjacency (nodes D)) !! current))
      (m, rest) in
  zero_seen D (done ++ [current]) state.2 state.1.
Proof.
  intros (Hnd & Hids & Hdg & Hzero & Hbefore) Hseen state. subst state.
  assert (current ∈ map node_id (nodes D)) as Hcur
    by (apply Hids, elem_of_app; right; by left).
  rewrite adjacency_spec, decide_True by done.
  set (ts := targets_from (edges D) current).
  intros v Hv Hle.
  rewrite relax_dg in Hle.
  destruct (relax_queue ts m rest) as (pushed & Hq & _).
  destruct (decide (dg m v <= 0)) as [Hold | Hpos].
  - specialize (Hseen v Hv Hold). rewrite Hq.
    apply elem_of_app in Hseen as [Hd | Hq'].
    + apply elem_of_app. left. apply elem_of_app. by left.
    + apply elem_of_cons in Hq' as [-> | Hr].
      * apply elem_of_app. left. apply elem_of_app. right. by left.
      * apply elem_of_app. right. apply elem_of_app. by left.
  - apply elem_of_app. right. apply relax_pushes; lia.
Qed.

Lemma kahn_loop_full bound : ∀ m queue done n,
  kahn_inv D done queue m →
  zero_seen D done queue m →
  kahn bound (build_adjacency (edges D) (init_adjacency (nodes D))) m queue
    (length done) = Some n →
  ∃ final m', kahn_inv D final [] m' ∧ zero_seen D final [] m' ∧ n = length final.
Proof.
  induction bound as [|bound IH]; intros m queue done n Hinv Hseen Hk; [discriminate |].
  cbn [kahn] in Hk. destruct queue as [|current rest].
  - injection Hk as <-. by exists done, m.
  - pose proof (kahn_inv_step D edges_closed _ _ _ _ Hinv) as Hstep.
    pose proof (zero_seen_step _ _ _ _ Hinv Hseen) as Hstep2.
    cbn zeta in Hstep, Hstep2.
    destruct (relax _ (m, rest)) as [m' q'] eqn:E. cbn [fst snd] in Hstep, Hstep2.
    apply (IH m' q' (done ++ [current]) n Hstep Hstep2).
    by rewrite length_app, Nat.add_1_r.
Qed.

Lemma kahn_complete :
  acyclic D →
  let m := build_inDegree (edges D) (init_inDegree (nodes D)) in
  kahn (S (length (nodes D))) (build_adjacency (edges D) (init_adjacency (nodes D)))
    m (initial_queue (nodes D) m) 0 = Some (length (nodes D)).
Proof.
  intros Hacyclic m.
  assert (kahn_inv D [] (initial_queue (nodes D) m) m) as Hinit
    by (by apply kahn_inv_init).
  destruct (kahn_terminates D edges_closed (S (length (nodes D))) m
              (initial_queue (nodes D) m) [])
    as [n Hk]; [done | cbn; lia |].
  cbn [length] in Hk. rewrite Hk. f_equal.
  destruct (kahn_loop_full _ m _ [] _ Hinit zero_seen_init Hk)
    as (final & m' & (Hnd & Hids & Hdg & _ & _) & Hseen & ->).
  rewrite app_nil_r in *.
  set (missing := filter (λ v, v ∉ final) (map node_id (nodes D))).
  destruct (decide (missing = [])) as [Hnone | Hsome].
  - assert (∀ v, v ∈ map node_id (nodes D) → v ∈ final) as Hall.
    { intros v Hv. apply dec_stable. intros Hnot.
      eapply (filter_nil_not_elem_of _ _ v Hnone); done. }
    apply Nat.le_antisymm.
    + rewrite <- (length_map node_id). by apply submseteq_length, NoDup_submseteq.
    + rewrite <- (length_map node_id (nodes D)).
      by apply submseteq_length, NoDup_submseteq.
  - exfalso.
    destruct (predecessors_cycle (length missing) missing (edge_rel D) eq_refl Hsome)
      as (x & Hx); [| by apply (Hacyclic x)].
    intros v [Hnot Hv]%list_elem_of_filter.
    assert (0 < dg m' v) as Hpos.
    { apply Z.lt_nge. intros Hle. apply Hnot.
      specialize (Hseen v Hv Hle). by rewrite app_nil_r in Hseen. }
    rewrite Hdg in Hpos by done.
    destruct (into_lt_source (edges D) final v) as (e & He & Ht & Hs); [lia |].
    exists (edge_source e). split.
    + apply list_elem_of_filter. split; [done |]. by apply edges_closed.
    + by exists e.
Qed.

End KahnComplete.

(** *** The reachability search finds every node that can be reached *)

Lemma visit_facts neighbors : ∀ (reachable : gset string) bfsQueue,
  let state := visit neighbors (reachable, bfsQueue) in
  (∀ x, x ∈ reachable → x ∈ state.1) ∧
  (∀ x, x ∈ neighbors → x ∈ state.1) ∧
  (∀ x, x ∈ state.1 → x ∈ reachable ∨ x ∈ state.2) ∧
  (∀ x, x ∈ bfsQueue → x ∈ state.2) ∧
  (∀ x, x ∈ state.2 → x ∈ bfsQueue ∨ x ∈ state.1).
Proof.
  induction neighbors as [|n rest IH]; intros R q; cbn zeta.
  - cbn. repeat split; auto. intros x Hx. by apply elem_of_nil in Hx.
  - change (visit (n :: rest) (R, q))
      with (visit rest
              (if bool_decide (n ∈ R) then (R, q) else ({[n]} ∪ R, q ++ [n]))).
    case_bool_decide as Hin.
    + destruct (IH R q) as (H1 & H2 & H3 & H4 & H5). cbn zeta in *.
      split; [done |]. split; [| done].
      intros x [-> | Hx]%elem_of_cons; auto.
    + destruct (IH ({[n]} ∪ R) (q ++ [n])) as (H1 & H2 & H3 & H4 & H5).
      cbn zeta in *. split; [| split; [| split; [| split]]].
      * intros x Hx. apply H1, elem_of_union. by right.
      * intros x [-> | Hx]%elem_of_cons; [| auto].
        apply H1, elem_of_union. left. by apply elem_of_singleton.
      * intros x Hx. destruct (H3 x Hx) as [[->%elem_of_singleton | Hr]%elem_of_union | Hq];
          [| by left | by right].
        right. apply H4, elem_of_app. right. by left.
      * intros x Hx. apply H4, elem_of_app. by left.
      * intros x Hx. destruct (H5 x Hx) as [[Hq | ->%list_elem_of_singleton]%elem_of_app | Hr];
          [by left | | by right].
        right. apply H1, elem_of_union. left. by apply elem_of_singleton.
Qed.

Lemma edge_adjacency D current n :
  current ∈ map node_id (nodes D) →
  edge_rel D current n →
  n ∈ default [] (build_adjacency (edges D) (init_adjacency (nodes D)) !! current).
Proof.
  intros Hcur (e & He & Hs & Ht).
  rewrite adjacency_spec, decide_True by done.
  apply targets_from_elem. by exists e.
Qed.

Lemma bfs_closed_step D current rest (reachable : gset string) :
  (∀ e, e ∈ edges D → edge_target e ∈ map node_id (nodes D)) →
  bfs_closed D reachable (current :: rest) →
  let state :=
    visit (default [] (build_adjacency (edges D) (init_adjacency (nodes D)) !! current))
      (reachable, rest) in
  bfs_closed D state.1 state.2 ∧ ∀ x, x ∈ reachable → x ∈ state.1.
Proof.
  intros Hclosed (Hq & Hnodes & Hedges) state. subst state.
  set (neighbors := default [] (build_adjacency (edges D) (init_adjacency (nodes D))
                                  !! current)).
  destruct (visit_facts neighbors reachable rest) as (H1 & H2 & H3 & H4 & H5).
  cbn zeta in *.
  assert (current ∈ reachable) as Hcur by (apply Hq; by left).
  split; [| done]. split; [| split].
  - intros x Hx. destruct (H5 x Hx) as [Hr | Hr]; [| done].
    apply H1, Hq. by right.
  - intros x Hx. destruct (H3 x Hx) as [Hr | Hr]; [by apply Hnodes |].
    destruct (H5 x Hr) as [Hr' | Hr'].
    + apply Hnodes, Hq. by right.
    + destruct (visit_grows neighbors reachable rest) as (_ & _ & _ & Hsub).
      destruct (Hsub x Hr') as [Hx' | Hx']; [by apply Hnodes |].
      apply adjacency_edge in Hx' as (e & He & _ & <-). by apply Hclosed.
  - intros x y Hx Hnq Hxy.
    destruct (H3 x Hx) as [Hr | Hr]; [| done].
    destruct (decide (x = current)) as [-> | Hne].
    + apply H2. apply edge_adjacency; [by apply Hnodes | done].
    + apply H1. apply (Hedges x y); [done | | done].
      intros [-> | Hin]%elem_of_cons; [done |]. apply Hnq. by apply H4.
Qed.

Lemma bfs_complete D s bound : ∀ (reachable : gset string) bfsQueue result,
  (∀ e, e ∈ edges D → edge_target e ∈ map node_id (nodes D)) →
  bfs_closed D reachable bfsQueue →
  s ∈ reachable →
  bfs bound (build_adjacency (edges D) (init_adjacency (nodes D)))
    reachable bfsQueue = Some result →
  ∀ x, rtc (edge_rel D) s x → x ∈ result.
Proof.
  induction bound as [|bound IH]; intros R q result Hclosed Hinv Hs Hb; [discriminate |].
  cbn [bfs] in Hb. destruct q as [|current rest].
  - injection Hb as <-. destruct Hinv as (_ & _ & Hedges).
    clear IH. intros x Hx. revert Hs.
    induction Hx as [| a b c Hab _ IHx]; [done |].
    intros Ha. apply IHx. apply (Hedges a b); [done | | done].
    apply not_elem_of_nil.
  - destruct (bfs_closed_step D current rest R Hclosed Hinv) as [Hstep Hmono].
    cbn zeta in Hstep, Hmono.
    destruct (visit _ (R, rest)) as [R' q'] eqn:E. cbn [fst snd] in *.
    apply (IH R' q' result); auto.
Qed.

(** *** The validator accepts every well-formed definition *)

Lemma validateDAG_complete (D : WorkflowDefinition) :
  well_formed D → validateDAG D = Some (mkValidation true []).
Proof.
  intros [Hn He (start & Hstart & Hreach) (fin & Hfin & Htype) Hclosed Hacyclic
              Hforks Hjoins].
  assert (start ∈ nodes D) as Hsin.
  { assert (start ∈ filter (λ n, node_type n = NStart) (nodes D)) as Hin
      by (rewrite Hstart; by left).
    by apply list_elem_of_filter in Hin as [_ ?]. }
  unfold validateDAG.
  rewrite bool_decide_eq_false_2 by (intros Hnil; rewrite Hnil in Hsin;
                                     by apply elem_of_nil in Hsin).
  assert (structural_errors D = []) as Hstruct.
  { apply structural_errors_nil_full. split; [done |]. split; [done |]. split.
    - by rewrite Hstart.
    - split; [| done]. intros Hnil.
      eapply (filter_nil_not_elem_of _ _ fin Hnil); done. }
  cbv zeta. rewrite Hstruct.
  rewrite (bool_decide_eq_false_2 (@nil string ≠ [])) by (intros H; by apply H).
  rewrite (kahn_complete D Hn Hclosed Hacyclic). cbn [mbind option_bind].
  rewrite (bool_decide_eq_false_2 (length (nodes D) ≠ length (nodes D)))
    by (intros H; by apply H).
  rewrite Hstart. rewrite (bool_decide_eq_true_2 _ (eq_refl (@nil string))).
  destruct (bfs_terminates D (S (length (nodes D))) {[node_id start]} [node_id start])
    as [reachable Hb].
  { intros e Hin. by apply Hclosed. }
  { intros x ->%elem_of_singleton. apply list_elem_of_fmap. by exists start. }
  { rewrite size_singleton. cbn [length]. destruct (nodes D); [done | cbn; lia]. }
  rewrite Hb. cbn [mbind option_bind].
  assert (∀ n, n ∈ nodes D → node_id n ∈ reachable) as Hall.
  { intros n Hin.
    eapply (bfs_complete D (node_id start)); [| | | exact Hb | by apply Hreach].
    - intros e Hine. by apply Hclosed.
    - split; [| split].
      + intros x ->%list_elem_of_singleton. by apply elem_of_singleton.
      + intros x ->%elem_of_singleton. apply list_elem_of_fmap. by exists start.
      + intros x y ->%elem_of_singleton Hnq _. exfalso. apply Hnq. by left.
    - by apply elem_of_singleton. }
  rewrite (filter_none (λ n, node_id n ∉ reachable)).
  2:{ intros n Hin Hnot. by apply Hnot, Hall. }
  assert (concat (map (fork_join_errors (edges D)) (nodes D)) = []) as ->.
  { apply concat_map_nil_iff. intros n Hin. apply fork_join_errors_nil. auto. }
  reflexivity.
Qed.

Lemma validateDAG_sound (D : WorkflowDefinition) :
  validateDAG D = Some (mkValidation true []) → well_formed D.
Proof.
  intros Hv.
  destruct (validateDAG_valid_structure D _ Hv eq_refl)
    as (_ & Hn & He & Hend & Hclosed & Hforks & Hjoins).
  destruct (validateDAG_valid_inv D _ Hv eq_refl)
    as (Hstruct & Hkahn & start & reachable & Hstart & Hbfs & Hall).
  destruct (kahn_all_processed D Hn (λ e He, Hclosed e He) Hkahn) as [order Horder].
  split; try done.
  - exists start. split; [done |].
    intros n Hin. eapply bfs_sound; [| exact Hbfs | by apply Hall].
    split.
    + intros x ->%elem_of_singleton. constructor.
    + intros x ->%list_elem_of_singleton. constructor.
  - by eapply topological_ordering_acyclic.
Qed.

(** X21.  The validator accepts exactly the well-formed definitions: it
    returns [{valid: true, errors: []}] if and only if the node ids are
    distinct, the edge ids are distinct, there is exactly one start node
    and every node is reachable from it, there is an end node, every edge
    joins two nodes of the definition, the graph has no cycle, every fork
    has at least two outgoing edges and every join at least two incoming
    ones. *)
Theorem validateDAG_accepts_exactly_well_formed :
  ∀ D : WorkflowDefinition,
    validateDAG D = Some (mkValidation true []) ↔ well_formed D.
Proof.
  intros D. split; [apply validateDAG_sound | apply validateDAG_complete].
Qed.

End DagMore.

(** ** Bounded buffers *)

Section BufferFacts.
Import JsArray.

Lemma last_n_all {A} n (l : list A) : (length l <= n)%nat → last_n n l = l.
Proof. intros H. unfold last_n. by replace (length l - n)%nat with 0%nat by lia. Qed.

Lemma last_n_length {A} n (l : list A) : length (last_n n l) = (length l `min` n)%nat.
Proof.
  unfold last_n. rewrite length_drop.
  destruct (Nat.min_spec (length l) n) as [[? ->] | [? ->]]; lia.
Qed.

Lemma tail_drop {A} (l : list A) : tail l = drop 1 l.
Proof. by destruct l. Qed.

(** Pushing onto the last [limit] elements of a history gives the last
    [limit] elements of the longer history. *)
Lemma push_bounded_last_n {A} (limit : nat) (x : A) (history : list A) :
  (0 < limit)%nat →
  push_bounded limit x (last_n limit history) = last_n limit (history ++ [x]).
Proof.
  intros Hpos. unfold push_bounded.
  rewrite length_app, last_n_length. cbn [length].
  unfold last_n. rewrite length_app. cbn [length].
  assert (length history `min` limit <= length history)%nat as Hm1 by apply Nat.le_min_l.
  assert (length history `min` limit <= limit)%nat as Hm2 by apply Nat.le_min_r.
  destruct (Nat.min_spec (length history) limit) as [[Hlt Hmin] | [Hle Hmin]];
    rewrite Hmin in *; clear Hmin.
  - rewrite bool_decide_eq_false_2 by lia.
    rewrite (drop_app_le history) by lia. do 2 f_equal. lia.
  - rewrite bool_decide_eq_true_2 by lia.
    rewrite tail_drop.
    rewrite (drop_app_le (drop _ history)); [| rewrite length_drop; lia].
    rewrite drop_drop.
    rewrite (drop_app_le history (A:=A)); [| lia].
    do 2 f_equal. lia.
Qed.

Lemma push_bounded_length {A} (limit : nat) (x : A) (l : list A) :
  (length l <= limit)%nat → (0 < limit)%nat →
  (length (push_bounded limit x l) <= limit)%nat ∧
  (length (push_bounded limit x l) <= S (length l))%nat.
Proof.
  intros Hl Hpos. unfold push_bounded.
  case_bool_decide as Hfull; rewrite length_app in Hfull; cbn [length] in Hfull.
  - rewrite tail_drop, length_drop, length_app. cbn [length]. lia.
  - rewrite length_app. cbn [length]. lia.
Qed.

End BufferFacts.

(** ** The metrics collector *)

Section MetricsFacts.
Import Metrics.

(** X22.  The collector keeps a rolling window of the last 1000 execution
    durations: after any sequence of executions that end (completed or
    failed), [executionDurations] is the last 1000 of the durations it held
    followed by those reported, in order; each end is counted once, as
    completed or as failed, and the count of started executions is not
    touched. *)
Theorem executionDurations_is_rolling_window :
  ∀ (c : MetricsCollector) (ends : list ExecutionEnd),
    (length (executionDurations c) <= 1000)%nat →
    let c' := foldl record_end c ends in
    executionDurations c'
      = last_n 1000 (executionDurations c ++ map duration_of ends) ∧
    executionCompletedCount c' + executionFailedCount c'
      = executionCompletedCount c + executionFailedCount c
        + Z.of_nat (length ends) ∧
    executionTotalCount c' = executionTotalCount c.
Proof.
  intros c ends Hlen. cbn zeta.
  assert (∀ history c0,
            executionDurations c0 = last_n 1000 history →
            executionDurations (foldl record_end c0 ends)
              = last_n 1000 (history ++ map duration_of ends) ∧
            executionCompletedCount (foldl record_end c0 ends)
              + executionFailedCount (foldl record_end c0 ends)
              = executionCompletedCount c0 + executionFailedCount c0
                + Z.of_nat (length ends) ∧
            executionTotalCount (foldl record_end c0 ends) = executionTotalCount c0)
    as Hgen.
  { clear c Hlen. induction ends as [|e ends IH]; intros history c0 Hc0.
    - cbn. rewrite app_nil_r. split; [done |]. split; [lia | done].
    - cbn [foldl map length].
      destruct (IH (history ++ [duration_of e]) (record_end c0 e))
        as (H1 & H2 & H3).
      { destruct e; cbn [record_end recordExecutionCompleted recordExecutionFailed
                          executionDurations duration_of];
          rewrite Hc0; apply push_bounded_last_n; lia. }
      rewrite <- app_assoc in H1. cbn in H1.
      split; [done |]. split.
      + rewrite H2. destruct e; cbn; lia.
      + rewrite H3. by destruct e. }
  apply (Hgen (executionDurations c) c). by rewrite last_n_all.
Qed.

Lemma executionDurations_is_rolling_window_witness :
  let c' := foldl record_end (init 0) [EndCompleted 5; EndFailed 7] in
  executionDurations c'
    = last_n 1000 (executionDurations (init 0)
                     ++ map duration_of [EndCompleted 5; EndFailed 7]) ∧
  executionCompletedCount c' + executionFailedCount c'
    = executionCompletedCount (init 0) + executionFailedCount (init 0)
      + Z.of_nat (length [EndCompleted 5; EndFailed 7]) ∧
  executionTotalCount c' = executionTotalCount (init 0).
Proof.
  apply (executionDurations_is_rolling_window (init 0) [EndCompleted 5; EndFailed 7]).
  cbn. lia.
Defined.

Lemma push_bounded_500 (x : Z) (l : list Z) :
  (length l <= 500)%nat →
  (length (JsArray.push_bounded 500 x l) <= 500)%nat ∧
  (length (JsArray.push_bounded 500 x l) <= S (length l))%nat.
Proof. intros H. apply push_bounded_length; lia. Qed.

Lemma metrics_consistent_perform c call :
  metrics_consistent c → metrics_consistent (perform c call).
Proof.
  intros (Hlen & Hcount & Hc & Hf & Hsteps).
  assert (∀ d : Z, (length (JsArray.push_bounded 500 d []) <= 1)%nat) as Hone
    by (intros d; unfold JsArray.push_bounded; cbn [app length];
        rewrite bool_decide_eq_false_2 by lia; cbn; lia).
  destruct call as [|d|d|t d|t d| | | |].
  - done.
  - destruct (push_bounded_length 1000 d (executionDurations c) Hlen ltac:(lia))
      as [H1 H2].
    unfold metrics_consistent.
    cbn [perform recordExecutionCompleted recordExecutionFailed executionDurations
         executionCompletedCount executionFailedCount stepMetrics].
    split; [done |]. split; [lia |]. split; [lia |]. split; [lia | done].
  - destruct (push_bounded_length 1000 d (executionDurations c) Hlen ltac:(lia))
      as [H1 H2].
    unfold metrics_consistent.
    cbn [perform recordExecutionCompleted recordExecutionFailed executionDurations
         executionCompletedCount executionFailedCount stepMetrics].
    split; [done |]. split; [lia |]. split; [lia |]. split; [lia | done].
  - split; [done |]. split; [done |]. split; [done |]. split; [done |].
    intros k data. cbn [perform recordStepCompleted stepMetrics set_stepMetrics].
    destruct (decide (k = t)) as [-> | Hne];
      [| rewrite lookup_insert_ne by done; apply Hsteps].
    rewrite lookup_insert_eq. intros [= <-].
    cbn [count successCount failureCount durations].
    unfold getOrCreateStepMetric.
    destruct (stepMetrics c !! t) as [old|] eqn:E; cbn [default].
    + destruct (Hsteps t old E) as (H1 & H2 & H3 & H4 & H5 & H6).
      destruct (push_bounded_500 d (durations old) H5) as [H7 H8].
      unfold id. repeat split; lia.
    + pose proof (Hone d) as Hd. cbn [count successCount failureCount durations].
      repeat split; lia.
  - split; [done |]. split; [done |]. split; [done |]. split; [done |].
    intros k data. cbn [perform recordStepFailed stepMetrics set_stepMetrics].
    destruct (decide (k = t)) as [-> | Hne];
      [| rewrite lookup_insert_ne by done; apply Hsteps].
    rewrite lookup_insert_eq. intros [= <-].
    cbn [count successCount failureCount durations].
    unfold getOrCreateStepMetric.
    destruct (stepMetrics c !! t) as [old|] eqn:E; cbn [default].
    + destruct (Hsteps t old E) as (H1 & H2 & H3 & H4 & H5 & H6).
      destruct (push_bounded_500 d (durations old) H5) as [H7 H8].
      unfold id. repeat split; lia.
    + pose proof (Hone d). cbn [count successCount failureCount durations].
      repeat split; lia.
  - done.
  - done.
  - done.
  - split; [cbn; lia |]. split; [cbn; lia |]. split; [cbn; lia |].
    split; [cbn; lia |]. intros k data. cbn. by rewrite lookup_empty.
Qed.

(** X23.  Whatever sequence of its recording methods and [reset] is called
    on a new collector, its figures stay consistent: the window of
    execution durations has at most 1000 entries and no more than
    executions have ended, and every step entry has
    [count = successCount + failureCount], at least one recorded step, at
    most 500 durations and no more durations than [count]. *)
Theorem metrics_stay_consistent :
  ∀ (now : Z) (calls : list MetricsCall),
    metrics_consistent (foldl perform (init now) calls).
Proof.
  intros now calls.
  assert (metrics_consistent (init now)) as Hinit.
  { unfold init. split; [cbn; lia |]. split; [cbn; lia |]. split; [cbn; lia |].
    split; [cbn; lia |]. intros k data. cbn. by rewrite lookup_empty. }
  revert Hinit. generalize (init now).
  induction calls as [|call calls IH]; intros c Hc; [done |].
  cbn. apply IH. by apply metrics_consistent_perform.
Qed.

End MetricsFacts.

(** ** The logger *)

Section LoggerFacts.
Import Logger.

(** X24.  The logger's buffer is a ring of the 500 latest entries: after any
    sequence of calls, it holds the last 500 of what it held followed by
    the entries of the calls at or above the minimum level, in order; calls
    below the minimum level leave no entry, and logging never changes the
    minimum level. *)
Theorem logger_buffer_keeps_latest :
  ∀ (s : StructuredLogger) (calls : list LogCall),
    (length (buffer s) <= MAX_BUFFER_SIZE)%nat →
    let s' := foldl write s calls in
    buffer s' = last_n MAX_BUFFER_SIZE
                  (buffer s ++ map entry_of (passing (minLevel s) calls)) ∧
    (length (buffer s') <= MAX_BUFFER_SIZE)%nat ∧
    minLevel s' = minLevel s.
Proof.
  intros s calls Hlen. cbn zeta.
  assert (∀ history s0,
            buffer s0 = last_n MAX_BUFFER_SIZE history →
            buffer (foldl write s0 calls)
              = last_n MAX_BUFFER_SIZE
                  (history ++ map entry_of (passing (minLevel s0) calls)) ∧
            minLevel (foldl write s0 calls) = minLevel s0) as Hgen.
  { clear s Hlen. induction calls as [|c calls IH]; intros history s0 Hs0.
    - cbn. by rewrite app_nil_r.
    - cbn [foldl]. unfold passing. rewrite filter_cons. fold (passing (minLevel s0) calls).
      unfold write at 2 4, log.
      destruct (decide (LOG_LEVEL_PRIORITY (minLevel s0)
                        <= LOG_LEVEL_PRIORITY (call_level c))) as [Hpass | Hdrop].
      + rewrite bool_decide_eq_false_2 by lia.
        destruct (IH (history ++ [entry_of c])
                    (mkLogger
                       (JsArray.push_bounded MAX_BUFFER_SIZE
                          (mkLogEntry (call_level c) (call_message c) (call_time c)
                             (call_context c)) (buffer s0))
                       (minLevel s0))) as [H1 H2].
        { cbn [buffer]. rewrite Hs0. apply push_bounded_last_n.
          unfold MAX_BUFFER_SIZE. lia. }
        cbn [minLevel] in H1, H2. rewrite <- app_assoc in H1. done.
      + rewrite bool_decide_eq_true_2 by lia. by apply IH. }
  destruct (Hgen (buffer s) s) as [H1 H2]; [by rewrite last_n_all |].
  split; [done |]. split; [| done].
  rewrite H1, last_n_length. apply Nat.le_min_r.
Qed.

Lemma logger_buffer_keeps_latest_witness :
  let calls := [mkLogCall 1 LDebug "polling" None; mkLogCall 2 LError "boom" None] in
  let s' := foldl write init calls in
  buffer s' = last_n MAX_BUFFER_SIZE
                (buffer init ++ map entry_of (passing (minLevel init) calls)) ∧
  (length (buffer s') <= MAX_BUFFER_SIZE)%nat ∧
  minLevel s' = minLevel init.
Proof.
  apply (logger_buffer_keeps_latest init
           [mkLogCall 1 LDebug "polling" None; mkLogCall 2 LError "boom" None]).
  cbn. lia.
Defined.

Lemma slice_from_negative {A} (n : nat) (l : list A) :
  (0 < n)%nat → JsArray.slice_from (- Z.of_nat n) l = last_n n l.
Proof.
  intros Hn. unfold JsArray.slice_from, last_n.
  rewrite bool_decide_eq_true_2 by lia. f_equal. lia.
Qed.

(** X25.  [getRecentLogs] with a positive [limit] returns the last [limit]
    of the buffered entries at or above the requested level (all of them
    when there are fewer).  With [limit: 0] it returns all of them, not
    none, and with a negative limit it drops the first [-limit] of
    them. *)
Theorem getRecentLogs_limit :
  ∀ (s : StructuredLogger) (lv : option LogLevel) (limit : Z),
    let entries :=
      match lv with
      | Some l =>
          filter (λ e, LOG_LEVEL_PRIORITY (level e) >= LOG_LEVEL_PRIORITY l) (buffer s)
      | None => buffer s
      end in
    let result := getRecentLogs lv (Some limit) s in
    (0 < limit → result = last_n (Z.to_nat limit) entries) ∧
    (limit = 0 → result = entries) ∧
    (limit < 0 → result = drop (Z.to_nat (- limit)) entries).
Proof.
  intros s lv limit entries result. subst result. unfold getRecentLogs.
  fold entries. change (default 100 (Some limit)) with limit.
  split; [| split]; intros Hl.
  - replace (- limit) with (- Z.of_nat (Z.to_nat limit)) by lia.
    apply slice_from_negative. lia.
  - subst limit. unfold JsArray.slice_from.
    change (- 0) with 0.
    rewrite bool_decide_eq_false_2 by lia.
    by rewrite Z.min_l by lia.
  - unfold JsArray.slice_from. rewrite bool_decide_eq_false_2 by lia.
    destruct (decide (- limit <= Z.of_nat (length entries))) as [Hle | Hgt].
    + by rewrite Z.min_l by lia.
    + rewrite Z.min_r by lia. rewrite Nat2Z.id.
      rewrite drop_all. symmetry. apply drop_ge. lia.
Qed.

End LoggerFacts.

(** ** The heartbeat monitor *)

Section JsMapFacts.
Context {V : Type}.
Implicit Types (m : list (string * V)).

Lemma JsMap_set_keys k v m :
  map fst (JsMap.set k v m)
  = if decide (k ∈ map fst m) then map fst m else map fst m ++ [k].
Proof.
  induction m as [|[k' v'] m IH]; cbn.
  - by rewrite decide_False by apply not_elem_of_nil.
  - case_bool_decide as Hk; cbn.
    + subst k'. rewrite decide_True by left. done.
    + rewrite IH. destruct (decide (k ∈ map fst m)) as [Hin | Hnin].
      * rewrite decide_True by (by right). done.
      * rewrite decide_False; [done |].
        intros [-> | ?]%elem_of_cons; done.
Qed.

Lemma JsMap_set_NoDup k v m :
  NoDup (map fst m) → NoDup (map fst (JsMap.set k v m)).
Proof.
  intros Hnd. rewrite JsMap_set_keys. destruct (decide _) as [Hin | Hnin]; [done |].
  apply NoDup_app. split; [done |]. split; [| apply NoDup_singleton].
  intros x Hx ->%list_elem_of_singleton. done.
Qed.

Lemma JsMap_set_elem k v m k' v' :
  NoDup (map fst m) →
  (k', v') ∈ JsMap.set k v m → (k' = k ∧ v' = v) ∨ ((k', v') ∈ m ∧ k' ≠ k).
Proof.
  induction m as [|[k0 v0] m IH]; cbn; intros Hnd.
  - intros [= -> ->]%list_elem_of_singleton. by left.
  - apply NoDup_cons in Hnd as [Hk0 Hnd]. case_bool_decide as Hk.
    + subst k0. intros [[= -> ->] | Hin]%elem_of_cons; [by left |].
      right. split; [by right |]. intros ->. apply Hk0.
      apply list_elem_of_fmap. by exists (k, v').
    + intros [[= -> ->] | Hin]%elem_of_cons.
      * right. split; [by left | done].
      * destruct (IH Hnd Hin) as [? | [? ?]]; [by left |].
        right. split; [by right | done].
Qed.

Lemma JsMap_delete_elem k m k' v' :
  (k', v') ∈ JsMap.delete k m ↔ (k', v') ∈ m ∧ k' ≠ k.
Proof. unfold JsMap.delete. rewrite list_elem_of_filter. cbn. tauto. Qed.

Lemma JsMap_delete_NoDup k m :
  NoDup (map fst m) → NoDup (map fst (JsMap.delete k m)).
Proof.
  intros Hnd. unfold JsMap.delete.
  induction m as [|[k0 v0] m IH]; [done |].
  cbn in Hnd. apply NoDup_cons in Hnd as [Hk0 Hnd].
  rewrite filter_cons. destruct (decide _); [| by apply IH].
  cbn. apply NoDup_cons. split; [| by apply IH].
  intros (kv & Hkv & Hin)%list_elem_of_fmap.
  apply list_elem_of_filter in Hin as [_ Hin]. apply Hk0.
  apply list_elem_of_fmap. by exists kv.
Qed.

Lemma JsMap_get_elem k v m : JsMap.get k m = Some v → (k, v) ∈ m.
Proof.
  induction m as [|[k0 v0] m IH]; cbn; [discriminate |].
  case_bool_decide as Hk.
  - subst k0. intros [= ->]. by left.
  - intros H. right. by apply IH.
Qed.

End JsMapFacts.

Section HeartbeatFacts.
Import Heartbeat.

Lemma heartbeat_wf_set h k e :
  heartbeat_wf h → jobId e = k →
  heartbeat_wf (mkMonitor (JsMap.set k e (activeJobs h)) (stallThresholdMs h)) ∧
  ∀ e', e' ∈ JsMap.values (JsMap.set k e (activeJobs h)) → jobId e' = k → e' = e.
Proof.
  intros [Hnd Hkeys] Hid. split; [split |]; cbn.
  - by apply JsMap_set_NoDup.
  - intros k' e' Hin.
    destruct (JsMap_set_elem _ _ _ _ _ Hnd Hin) as [[-> ->] | [Hin' _]]; auto.
  - intros e' ([k' v'] & -> & Hin)%list_elem_of_fmap Hk. cbn in *.
    destruct (JsMap_set_elem _ _ _ _ _ Hnd Hin) as [[_ ->] | [Hin' Hne]]; [done |].
    rewrite (Hkeys _ _ Hin') in Hk. done.
Qed.

(** X26.  The heartbeat monitor, whose entries are keyed by their job id:
    registering, beating and deregistering keep it so.  A job registered
    or beaten at time [t] is not reported as stalled at any time up to
    [t + stallThresholdMs]; a deregistered job is no longer listed; and
    the status never reports more stalled jobs than active ones. *)
Theorem heartbeat_monitor_tracks_jobs :
  ∀ (h : WorkerHeartbeat) (t now : Z) (job execution label : string),
    heartbeat_wf h →
    let registered := registerJob t job execution label h in
    let beaten := heartbeat t job h in
    let removed := deregisterJob job h in
    (heartbeat_wf registered ∧ heartbeat_wf beaten ∧ heartbeat_wf removed) ∧
    (now - t <= stallThresholdMs h →
       (∀ e, e ∈ getStalledJobs now registered → jobId e ≠ job) ∧
       (∀ e, e ∈ getStalledJobs now beaten → jobId e ≠ job)) ∧
    (∀ e, e ∈ st_entries (getStatus now removed) → jobId e ≠ job) ∧
    (st_stalledJobs (getStatus now h) <= st_activeJobs (getStatus now h))%nat.
Proof.
  intros h t now job execution label Hwf registered beaten removed.
  destruct (heartbeat_wf_set h job (mkHeartbeat job execution label t t) Hwf eq_refl)
    as [Hwf_reg Hreg].
  assert (heartbeat_wf beaten ∧
          ∀ e, e ∈ JsMap.values (activeJobs beaten) → jobId e = job →
               lastHeartbeat e = t) as [Hwf_beat Hbeat].
  { subst beaten. unfold heartbeat.
    destruct (JsMap.get job (activeJobs h)) as [entry|] eqn:Hget.
    - pose proof (JsMap_get_elem _ _ _ Hget) as Hin.
      destruct Hwf as [Hnd Hkeys]. pose proof (Hkeys _ _ Hin) as Hid.
      destruct (heartbeat_wf_set h job
                  (mkHeartbeat (jobId entry) (executionId entry) (nodeLabel entry)
                     (startedAt entry) t) (conj Hnd Hkeys) Hid) as [H1 H2].
      split; [done |]. cbn. intros e He Hk. by rewrite (H2 e He Hk).
    - split; [done |]. intros e ([k v] & -> & Hin)%list_elem_of_fmap Hk. cbn in *.
      destruct Hwf as [Hnd Hkeys]. rewrite (Hkeys _ _ Hin) in Hk. subst k.
      exfalso. clear -Hget Hin. induction (activeJobs h) as [|[k0 v0] m IH]; cbn in *.
      + by apply elem_of_nil in Hin.
      + case_bool_decide as Hk; [discriminate |].
        apply elem_of_cons in Hin as [[= -> ->] | Hin]; [done | by apply IH]. }
  assert (heartbeat_wf removed) as Hwf_rem.
  { destruct Hwf as [Hnd Hkeys]. split; cbn.
    - by apply JsMap_delete_NoDup.
    - intros k e [Hin _]%JsMap_delete_elem. by apply Hkeys. }
  split; [done |]. split; [| split].
  - intros Hfresh. split.
    + intros e [Hstalled He]%list_elem_of_filter Hid.
      rewrite (Hreg e He Hid) in Hstalled. cbn in Hstalled. lia.
    + intros e [Hstalled He]%list_elem_of_filter Hid.
      rewrite (Hbeat e He Hid) in Hstalled.
      assert (stallThresholdMs beaten = stallThresholdMs h) as Hth.
      { subst beaten. unfold heartbeat. by destruct (JsMap.get _ _). }
      rewrite Hth in Hstalled. lia.
  - cbn. intros e ([k v] & -> & Hin)%list_elem_of_fmap Hid. cbn in *.
    apply JsMap_delete_elem in Hin as [Hin Hne].
    destruct Hwf as [_ Hkeys]. rewrite (Hkeys _ _ Hin) in Hid. done.
  - cbn. apply length_filter.
Qed.

Lemma heartbeat_monitor_tracks_jobs_witness :
  let h := registerJob 0 "step-1" "exec-1" "A" init in
  let registered := registerJob 1000 "step-A" "exec-1" "A" h in
  let beaten := heartbeat 1000 "step-A" h in
  let removed := deregisterJob "step-A" h in
  (heartbeat_wf registered ∧ heartbeat_wf beaten ∧ heartbeat_wf removed) ∧
  (31000 - 1000 <= stallThresholdMs h →
     (∀ e, e ∈ getStalledJobs 31000 registered → jobId e ≠ "step-A") ∧
     (∀ e, e ∈ getStalledJobs 31000 beaten → jobId e ≠ "step-A")) ∧
  (∀ e, e ∈ st_entries (getStatus 31000 removed) → jobId e ≠ "step-A") ∧
  (st_stalledJobs (getStatus 31000 h) <= st_activeJobs (getStatus 31000 h))%nat.
Proof.
  apply (heartbeat_monitor_tracks_jobs (registerJob 0 "step-1" "exec-1" "A" init)
           1000 31000 "step-A" "exec-1" "A").
  split.
  - cbn. apply NoDup_singleton.
  - intros k e [= -> ->]%list_elem_of_singleton. reflexivity.
Defined.

End HeartbeatFacts.

(** ** The scheduler *)

Section SchedulerFacts.
Import CronParser Scheduler.

Lemma cronTriggers_elem workflows triggers trigger workflow :
  (trigger, workflow) ∈ cronTriggers workflows triggers →
  trigger ∈ triggers ∧ workflow ∈ workflows ∧
  tr_type trigger = TCron ∧ tr_enabled trigger = true ∧
  wf_id workflow = tr_workflowId trigger.
Proof.
  unfold cronTriggers. rewrite list_elem_of_omap.
  intros (t & Ht & Hsome).
  destruct (bool_decide (tr_type t = TCron) && tr_enabled t) eqn:Hb; [| discriminate].
  apply andb_true_iff in Hb as [Hcron Hen]. apply bool_decide_eq_true_1 in Hcron.
  destruct (List.find _ workflows) as [wf|] eqn:Hfind; [| discriminate].
  cbn in Hsome. injection Hsome as <- <-.
  apply find_some in Hfind as [Hin Hid]. apply bool_decide_eq_true_1 in Hid.
  split; [done |]. split; [by apply list_elem_of_In | done].
Qed.

Lemma fires_Some tz now trigger workflow expression :
  fires tz now trigger workflow = Some expression →
  wf_status workflow = WfActive ∧
  tr_expression trigger = Some expression ∧
  expression ≠ "" ∧
  shouldRun tz expression now = true ∧
  ∀ lastFired, tr_lastFiredAt trigger = Some lastFired →
               same_minute tz lastFired now = false.
Proof.
  unfold fires. case_bool_decide as Hactive; cbn [negb]; [| discriminate].
  destruct (tr_expression trigger) as [e|]; [| discriminate].
  case_bool_decide as Hempty; [discriminate |].
  destruct (shouldRun tz e now) eqn:Hrun; cbn [negb]; [| discriminate].
  destruct (tr_lastFiredAt trigger) as [last|].
  - destruct (same_minute tz last now) eqn:Hsame; [discriminate |].
    intros [= <-]. repeat split; try done. by intros ? [= <-].
  - intros [= <-]. repeat split; try done.
Qed.

(** What the loop adds: one call per trigger that fires, in order; and
    every row of a trigger that fired carries the time of the tick. *)
Lemma fire_all_spec tz now read : ∀ triggers launches fired,
  ∃ new,
    (fire_all tz now read (triggers, launches, fired)).1.2 = launches ++ new ∧
    (fire_all tz now read (triggers, launches, fired)).2
      = fired + Z.of_nat (length new) ∧
    (∀ l, l ∈ new →
       ∃ trigger workflow expression,
         (trigger, workflow) ∈ read ∧
         fires tz now trigger workflow = Some expression ∧
         l = mkLaunch (tr_id trigger) (wf_id workflow) (tr_input trigger)) ∧
    (∀ r, r ∈ (fire_all tz now read (triggers, launches, fired)).1.1 →
       (∃ l, l ∈ new ∧ launch_trigger l = tr_id r) →
       tr_lastFiredAt r = Some now) ∧
    (∀ r, r ∈ (fire_all tz now read (triggers, launches, fired)).1.1 →
       ∃ r0, r0 ∈ triggers ∧ tr_id r0 = tr_id r ∧
             (tr_lastFiredAt r = tr_lastFiredAt r0 ∨ tr_lastFiredAt r = Some now)).
Proof.
  induction read as [|[trigger workflow] rest IH]; intros triggers launches fired.
  - exists []. cbn. rewrite app_nil_r. split; [done |]. split; [lia |].
    split; [intros l Hl; by apply elem_of_nil in Hl |].
    split.
    + intros r _ (l & Hl & _). by apply elem_of_nil in Hl.
    + intros r Hr. exists r. auto.
  - cbn [fire_all].
    destruct (fires tz now trigger workflow) as [expression|] eqn:Hf.
    + set (triggers1 := update_where _ _ triggers).
      destruct (IH triggers1
                  (launches ++ [mkLaunch (tr_id trigger) (wf_id workflow)
                                  (tr_input trigger)]) (fired + 1))
        as (new & H1 & H2 & H3 & H4 & H5).
      exists (mkLaunch (tr_id trigger) (wf_id workflow) (tr_input trigger) :: new).
      rewrite H1, H2, <- app_assoc. cbn [length app].
      split; [done |]. split; [lia |]. split; [| split].
      * intros l [-> | Hl]%elem_of_cons.
        -- exists trigger, workflow, expression. split; [left | done].
        -- destruct (H3 l Hl) as (t & w & e & Hin & Hfe & ->).
           exists t, w, e. split; [by right | done].
      * intros r Hr (l & [-> | Hl]%elem_of_cons & Hid).
        -- cbn in Hid. destruct (H5 r Hr) as (r0 & Hr0 & Hid0 & Hlast).
           subst triggers1. apply update_where_elem in Hr0 as (y & Hy & ->).
           destruct (bool_decide (tr_id y = tr_id trigger)) eqn:Hb.
           ++ cbn in Hlast. by destruct Hlast.
           ++ apply bool_decide_eq_false_1 in Hb. congruence.
        -- apply H4; [done |]. by exists l.
      * intros r Hr. destruct (H5 r Hr) as (r0 & Hr0 & Hid0 & Hlast).
        subst triggers1. apply update_where_elem in Hr0 as (y & Hy & ->).
        exists y. split; [done |].
        destruct (bool_decide (tr_id y = tr_id trigger)) eqn:Hb.
        -- cbn in *. split; [done |]. right. by destruct Hlast.
        -- split; [done | done].
    + destruct (IH triggers launches fired) as (new & H1 & H2 & H3 & H4 & H5).
      exists new. split; [done |]. split; [done |]. split; [| done].
      intros l Hl. destruct (H3 l Hl) as (t & w & e & Hin & Hfe & ->).
      exists t, w, e. split; [by right | done].
Qed.

(** X27.  A tick of the scheduler starts executions only for triggers that
    are due: every call it makes is for an enabled cron trigger of the
    table, with that trigger's input, whose workflow is active, whose
    expression [shouldRun] accepts at the time of the tick, and that was
    not last fired in the same minute; and [triggersFired] grows by the
    number of calls made. *)
Theorem tick_starts_only_due_triggers :
  ∀ (tz now : Z) (workflows : list WorkflowRow) (triggers : list TriggerRow)
    (s : SchedulerStatus),
    let r := tick tz now workflows triggers s in
    (∀ l, l ∈ r.2 →
       ∃ trigger workflow expression,
         trigger ∈ triggers ∧ workflow ∈ workflows ∧
         launch_trigger l = tr_id trigger ∧
         launch_workflowId l = tr_workflowId trigger ∧
         launch_input l = tr_input trigger ∧
         wf_id workflow = tr_workflowId trigger ∧
         wf_status workflow = WfActive ∧
         tr_type trigger = TCron ∧ tr_enabled trigger = true ∧
         tr_expression trigger = Some expression ∧
         shouldRun tz expression now = true ∧
         ∀ lastFired, tr_lastFiredAt trigger = Some lastFired →
                      same_minute tz lastFired now = false) ∧
    triggersFired r.1.1 = triggersFired s + Z.of_nat (length r.2).
Proof.
  intros tz now workflows triggers s r. subst r. unfold tick.
  destruct (isProcessing s).
  { cbn. split; [| lia]. intros l Hl. by apply elem_of_nil in Hl. }
  destruct (fire_all_spec tz now (cronTriggers workflows triggers) triggers [] 0)
    as (new & H1 & H2 & H3 & _).
  destruct (fire_all _ _ _ _) as [[triggers' launches] fired].
  cbn [fst snd] in *. subst launches fired. cbn [app triggersFired].
  split; [| lia].
  intros l Hl. destruct (H3 l Hl) as (t & w & e & Hin & Hf & ->).
  apply cronTriggers_elem in Hin as (Ht & Hw & Hcron & Hen & Hid).
  apply fires_Some in Hf as (Hactive & He & _ & Hrun & Hlast).
  exists t, w, e. cbn. repeat split; done.
Qed.

Lemma same_minute_refl_div tz t1 t2 :
  local_ms tz t1 / 60000 = local_ms tz t2 / 60000 → same_minute tz t1 t2 = true.
Proof.
  intros Hmin. unfold same_minute, getFullYear, getMonth, getDate, getHours,
    getMinutes, local_days.
  assert (local_ms tz t1 / 86400000 = local_ms tz t2 / 86400000) as Hday.
  { replace 86400000 with (60000 * 1440) by lia.
    rewrite <- !Z.div_div by lia. by rewrite Hmin. }
  assert (local_ms tz t1 / 3600000 = local_ms tz t2 / 3600000) as Hhour.
  { replace 3600000 with (60000 * 60) by lia.
    rewrite <- !Z.div_div by lia. by rewrite Hmin. }
  rewrite Hday, Hhour, Hmin.
  by rewrite !bool_decide_eq_true_2.
Qed.

(** X28.  No trigger fires twice in a minute: of two ticks within the same
    minute of the clock, the second running on the trigger table that the
    first has left, the second starts no execution for a trigger that the
    first has fired, whatever the workflows and the scheduler's counters
    are. *)
Theorem tick_never_fires_twice_in_a_minute :
  ∀ (tz t1 t2 : Z) (workflows1 workflows2 : list WorkflowRow)
    (triggers : list TriggerRow) (s1 s2 : SchedulerStatus),
    local_ms tz t1 / 60000 = local_ms tz t2 / 60000 →
    let r1 := tick tz t1 workflows1 triggers s1 in
    let r2 := tick tz t2 workflows2 r1.1.2 s2 in
    ∀ l1 l2, l1 ∈ r1.2 → l2 ∈ r2.2 → launch_trigger l1 ≠ launch_trigger l2.
Proof.
  intros tz t1 t2 workflows1 workflows2 triggers s1 s2 Hmin r1 r2 l1 l2 Hl1 Hl2 Heq.
  (* the rows of the trigger of [l1] carry [t1] after the first tick *)
  assert (∀ r, r ∈ r1.1.2 → tr_id r = launch_trigger l1 →
               tr_lastFiredAt r = Some t1) as Hfired.
  { subst r1. unfold tick in *. destruct (isProcessing s1).
    { by apply elem_of_nil in Hl1. }
    destruct (fire_all_spec tz t1 (cronTriggers workflows1 triggers) triggers [] 0)
      as (new & H1 & _ & _ & H4 & _).
    destruct (fire_all _ _ _ _) as [[triggers' launches] fired].
    cbn [fst snd] in *. subst launches. cbn [app] in Hl1.
    intros r Hr Hid. apply H4; [done |]. by exists l1. }
  (* the trigger of [l2] passed the tests of the second tick *)
  subst r2. unfold tick in Hl2. destruct (isProcessing s2).
  { by apply elem_of_nil in Hl2. }
  destruct (fire_all_spec tz t2 (cronTriggers workflows2 r1.1.2) r1.1.2 [] 0)
    as (new & H1 & _ & H3 & _).
  destruct (fire_all _ _ _ _) as [[triggers' launches] fired].
  cbn [fst snd] in *. subst launches. cbn [app] in Hl2.
  destruct (H3 l2 Hl2) as (t & w & e & Hin & Hf & ->).
  apply cronTriggers_elem in Hin as (Ht & _).
  apply fires_Some in Hf as (_ & _ & _ & _ & Hlast).
  cbn in Heq. specialize (Hfired t Ht (eq_sym Heq)).
  specialize (Hlast t1 Hfired).
  by rewrite same_minute_refl_div in Hlast.
Qed.

Lemma tick_never_fires_twice_in_a_minute_witness :
  let r1 := tick 330 12600000 (workflows (world_with WfActive)) [minutely_trigger]
              Scheduler.init in
  let r2 := tick 330 12630000 (workflows (world_with WfActive)) r1.1.2 r1.1.1 in
  r1.2 = [mkLaunch "tr-1" "wf-1" None] ∧
  Forall (λ l1, Forall (λ l2, launch_trigger l1 ≠ launch_trigger l2) r2.2) r1.2.
Proof.
  split; [vm_compute; reflexivity |].
  apply Forall_forall. intros l1 Hl1. apply Forall_forall. intros l2 Hl2.
  apply (tick_never_fires_twice_in_a_minute 330 12600000 12630000
           (workflows (world_with WfActive)) (workflows (world_with WfActive))
           [minutely_trigger] Scheduler.init
           (tick 330 12600000 (workflows (world_with WfActive)) [minutely_trigger]
              Scheduler.init).1.1);
    [vm_compute; reflexivity | exact Hl1 | exact Hl2].
Defined.

End SchedulerFacts.

(** ** The delay handler *)

Section DelayFacts.
Import Js DelayHandler.

Lemma Math_min_cap x :
  ConditionHandler.is_NaN (Math_min x MAX_DELAY_MS) = true ∨
  SFleb (Math_min x MAX_DELAY_MS) MAX_DELAY_MS = true.
Proof.
  unfold Math_min, SFleb.
  destruct (SFcompare x MAX_DELAY_MS) as [[]|] eqn:Hc.
  - right. destruct x as [[]| | |]; try (by rewrite Hc); reflexivity.
  - right. by rewrite Hc.
  - right. reflexivity.
  - by left.
Qed.

Lemma SFltb_NaN x : ConditionHandler.is_NaN x = true → SFltb zero x = false.
Proof. by destruct x. Qed.

(** X29.  The delay handler never waits longer than five minutes: whatever
    the configuration and the clock, the timer it sets, if it sets one,
    is for more than 0 and at most 300000 milliseconds. *)
Theorem delay_never_exceeds_cap :
  ∀ (StringToNumber : string → spec_float) (NumberToString : spec_float → string)
    (DateToTime : value → spec_float) (now : Z) (config : list (string * value)),
    match timer StringToNumber NumberToString DateToTime now config with
    | Some ms => SFltb zero ms = true ∧ SFleb ms MAX_DELAY_MS = true
    | None => True
    end.
Proof.
  intros S2N N2S D2T now config. unfold timer.
  destruct (actualMs S2N N2S D2T now config) as [ms|invalid] eqn:Ha; [| done].
  destruct (SFltb zero ms) eqn:Hpos; [| done].
  split; [done |].
  unfold actualMs in Ha.
  destruct (truthy _).
  - destruct (ConditionHandler.is_NaN _); [discriminate |].
    injection Ha as <-.
    destruct (SFltb zero (SFsub _ _ _ _)) eqn:Hd; [| discriminate].
    destruct (Math_min_cap (SFsub 53 1024 (D2T (default VUndefined
                                                  (obj_get "scheduledTime" config)))
                              (ConditionHandler.number_of_Z now))) as [Hn | Hle];
      [| done].
    by rewrite (SFltb_NaN _ Hn) in Hpos.
  - injection Ha as <-.
    match goal with |- SFleb (Math_min ?x _) _ = _ =>
      destruct (Math_min_cap x) as [Hn | Hle]; [| done] end.
    by rewrite (SFltb_NaN _ Hn) in Hpos.
Qed.

(** X30.  A delay node whose [scheduledTime] is not a date fails for good:
    the handler sets no timer and returns a failed result marked
    [retryable: false], which the consumer does not retry, whatever retry
    configuration the job carries. *)
Theorem delay_invalid_schedule_is_final :
  ∀ (StringToNumber : string → spec_float) (NumberToString : spec_float → string)
    (DateToTime : value → spec_float) (now elapsed : Z)
    (config : list (string * value)) (job : WorkerJob) (scheduledTime : value),
    obj_get "scheduledTime" config = Some scheduledTime →
    truthy scheduledTime = true →
    ConditionHandler.is_NaN (DateToTime scheduledTime) = true →
    let result :=
      execute StringToNumber NumberToString DateToTime now elapsed config job in
    res_status result = RFailed ∧
    res_retryable result = Some false ∧
    retries result job = false ∧
    timer StringToNumber NumberToString DateToTime now config = None.
Proof.
  intros S2N N2S D2T now elapsed config job st Hget Htruthy Hnan result.
  subst result. unfold execute, timer, actualMs.
  rewrite Hget. cbn [default]. unfold id. rewrite Htruthy, Hnan.
  cbn [res_status res_retryable]. split; [done |]. split; [done |].
  split; [| done]. unfold retries. cbn [res_status res_retryable].
  rewrite (bool_decide_eq_true_2 (Some false = Some false)) by done.
  by rewrite andb_false_r.
Qed.

Lemma delay_invalid_schedule_is_final_witness :
  let config := [("scheduledTime", VString "soon")] in
  let result :=
    execute integer_StringToNumber (λ _, "") (λ _, ConditionHandler.NaN) 1000 0
      config job_B in
  res_status result = RFailed ∧
  res_retryable result = Some false ∧
  retries result job_B = false ∧
  timer integer_StringToNumber (λ _, "") (λ _, ConditionHandler.NaN) 1000 config
    = None.
Proof.
  apply (delay_invalid_schedule_is_final integer_StringToNumber (λ _, "")
           (λ _, ConditionHandler.NaN) 1000 0 [("scheduledTime", VString "soon")]
           job_B (VString "soon")); reflexivity.
Defined.

End DelayFacts.
